(** * GQP core: schema graph, cursor pool, validator, security gate, executor

    A shallow embedding of the TypeScript core of GQP
    (src/core/schema.ts, cursor.ts, validation.ts, security.ts, executor.ts,
    engine.ts) together with the properties established about it.

    Conventions of the embedding:
    - a JS [Map<string, V>] is an insertion-ordered association list
      ([JsMap]); a JS [Set<string>] is an insertion-ordered list without
      repetition ([JsSet]);
    - a JS [number] that the code only uses as a count, a timestamp or a
      bound is an integer [Z] (fractions are not modelled);
    - a method that throws returns [Err e] in the [Result] type; a promise
      that resolves or rejects is its outcome;
    - objects held by a map are identified by the key they are stored under;
    - a plain object used as a record of entries (filters, access rules) is
      the association list of its own enumerable properties: the key
      [__proto__], which an assignment does not store, and the members a
      lookup inherits from [Object.prototype] are outside the model, and a
      statement that could meet them excludes them by hypothesis.
*)

From Stdlib Require Import String Ascii DecimalString List ZArith Bool Arith Lia Sorted.
Import ListNotations.

Open Scope string_scope.
Open Scope list_scope.
Open Scope Z_scope.

Set Warnings "-register-all".

(** ** Collections *)

Module JsMap.
Section WithValue.
Context {V : Type}.

Definition t : Type := list (string * V).

Definition empty : t := [].

Fixpoint get (m : t) (k : string) : option V :=
  match m with
  | [] => None
  | (k', v) :: m' => if String.eqb k' k then Some v else get m' k
  end.

Definition has (m : t) (k : string) : bool :=
  match get m k with Some _ => true | None => false end.

(** [Map.prototype.set]: an existing key keeps its position. *)
Fixpoint set (m : t) (k : string) (v : V) : t :=
  match m with
  | [] => [(k, v)]
  | (k', v') :: m' =>
      if String.eqb k' k then (k, v) :: m' else (k', v') :: set m' k v
  end.

Definition delete (m : t) (k : string) : t :=
  filter (fun e => negb (String.eqb (fst e) k)) m.

Definition size (m : t) : Z := Z.of_nat (length m).

Definition keys (m : t) : list string := map fst m.
End WithValue.
Arguments t : clear implicits.
End JsMap.

Module JsSet.
Definition t : Type := list string.

Definition has (s : t) (x : string) : bool := existsb (String.eqb x) s.

Definition add (s : t) (x : string) : t := if has s x then s else s ++ [x].

Definition size (s : t) : Z := Z.of_nat (length s).
End JsSet.

(** [Array.prototype.slice(0, n)] for an integer [n]. *)
Definition slice0 {A : Type} (l : list A) (n : Z) : list A :=
  if n <? 0 then firstn (length l - Z.to_nat (- n)) l
  else firstn (Z.to_nat n) l.

(** ** Errors (src/core/errors.ts) *)

Inductive GQPErrorCode : Type :=
| INVALID_ACTION | INVALID_NODE | NODE_NOT_FOUND | NODE_REQUIRED
| ADAPTER_NOT_FOUND | VALIDATION_ERROR | AUTHORIZATION_ERROR | ACCESS_DENIED
| INTROSPECTION_DISABLED | QUERY_ERROR | TIMEOUT_ERROR | CONFIGURATION_ERROR
| CURSOR_NOT_FOUND | CURSOR_EXPIRED | RATE_LIMIT_ERROR | PARSE_ERROR
| INTERNAL_ERROR.

(** The message of a [createError.validation] error. *)
Inductive Reason : Type :=
| MustBeAnObject
| MustBeAString
| RequiredString
| ExceedsMaximumDepth (max : Z)
| ArrayExceedsMaximumLength (max : Z)
| ExceedsMaximumLength (max : Z)
| NoReason.

(** A thrown value: a [GQPError] with its code, the field or subject it
    names and its message, or a foreign exception raised by an adapter, a
    plugin or a user-supplied callback. *)
Inductive Thrown : Type :=
| GQPError (code : GQPErrorCode) (subject : string) (reason : Reason)
| Foreign (message : string).

Definition isGQPError (e : Thrown) : bool :=
  match e with GQPError _ _ _ => true | Foreign _ => false end.

Definition wrapError (e : Thrown) : Thrown :=
  match e with
  | GQPError _ _ _ => e
  | Foreign m => GQPError INTERNAL_ERROR m NoReason
  end.

Module createError.
Definition nodeNotFound (node : string) : Thrown :=
  GQPError NODE_NOT_FOUND node NoReason.
Definition nodeRequired (action : string) : Thrown :=
  GQPError NODE_REQUIRED action NoReason.
Definition invalidNode (node : string) : Thrown :=
  GQPError INVALID_NODE node NoReason.
Definition invalidAction (action : string) : Thrown :=
  GQPError INVALID_ACTION action NoReason.
Definition adapterNotFound (node : string) : Thrown :=
  GQPError ADAPTER_NOT_FOUND node NoReason.
Definition validation (field : string) (r : Reason) : Thrown :=
  GQPError VALIDATION_ERROR field r.
Definition accessDenied (node : string) : Thrown :=
  GQPError ACCESS_DENIED node NoReason.
Definition introspectionDisabled : Thrown :=
  GQPError INTROSPECTION_DISABLED "" NoReason.
Definition timeout (operation : string) : Thrown :=
  GQPError TIMEOUT_ERROR operation NoReason.
End createError.

Inductive Result (A : Type) : Type :=
| Ok (a : A)
| Err (e : Thrown).
Arguments Ok {A} a.
Arguments Err {A} e.

Definition bind {A B : Type} (r : Result A) (k : A -> Result B) : Result B :=
  match r with
  | Ok a => k a
  | Err e => Err e
  end.

Notation "x <- r ;; k" := (bind r (fun x => k))
  (at level 61, r at next level, right associativity).

(** ** Schema graph (src/core/schema.ts, src/core/types.ts) *)

Inductive RelationType : Type := belongsTo | hasOne | hasMany.

Record GQPField : Type := mkField {
  f_name : string;
  f_type : string;
  f_nullable : bool;
  f_isList : bool;
  f_description : option string;
  f_directives : list string
}.

Record GQPEdge : Type := mkEdge {
  e_name : string;
  e_to : string;
  e_relation : RelationType
}.

Record GQPNode : Type := mkNode {
  name : string;
  description : option string;
  fields : list GQPField;
  edges : list GQPEdge;
  capabilities : list string;
  source : string
}.

Module GQPSchema.

Record t : Type := mk {
  nodes : JsMap.t GQPNode;
  rootNodeNames : JsSet.t;
  edgeIndex : JsMap.t JsSet.t
}.

Definition empty : t := mk [] [] [].

(** The loop of [addNode] over [node.edges]. *)
Fixpoint indexEdges (idx : JsMap.t JsSet.t) (nodeName : string)
         (es : list GQPEdge) : JsMap.t JsSet.t :=
  match es with
  | [] => idx
  | e :: rest =>
      let idx1 :=
        if JsMap.has idx nodeName then idx else JsMap.set idx nodeName [] in
      let targets :=
        match JsMap.get idx1 nodeName with Some s => s | None => [] end in
      indexEdges (JsMap.set idx1 nodeName (JsSet.add targets (e_to e)))
                 nodeName rest
  end.

Definition addNode (s : t) (node : GQPNode) (isRoot : bool) : t :=
  mk (JsMap.set (nodes s) (name node) node)
     (if isRoot then JsSet.add (rootNodeNames s) (name node)
      else rootNodeNames s)
     (indexEdges (edgeIndex s) (name node) (edges node)).

Definition getNode (s : t) (nm : string) : option GQPNode :=
  JsMap.get (nodes s) nm.

Definition getRootNodes (s : t) : list GQPNode :=
  flat_map (fun nm => match JsMap.get (nodes s) nm with
                      | Some n => [n]
                      | None => []
                      end) (rootNodeNames s).

Definition getNodeCount (s : t) : Z := JsMap.size (nodes s).

Definition getAllNodes (s : t) : list GQPNode := map snd (nodes s).

(** [this.edgeIndex.get(nodeName) || new Set()] *)
Definition targetsOf (s : t) (nm : string) : JsSet.t :=
  match JsMap.get (edgeIndex s) nm with
  | Some ts => ts
  | None => []
  end.

(** [neighbors.includes(node)]: the objects of the node map are
    identified by their name, the key [addNode] stores them under. *)
Definition includes (neighbors : list GQPNode) (n : GQPNode) : bool :=
  existsb (fun m => String.eqb (name m) (name n)) neighbors.

(** First loop of [getNeighbors]: the targets of the outgoing edges. *)
Fixpoint forwardLoop (s : t) (limit : Z) (targets : list string)
         (neighbors : list GQPNode) : list GQPNode :=
  match targets with
  | [] => neighbors
  | targetName :: rest =>
      if Z.of_nat (length neighbors) >=? limit then neighbors
      else match JsMap.get (nodes s) targetName with
           | Some targetNode =>
               forwardLoop s limit rest (neighbors ++ [targetNode])
           | None => forwardLoop s limit rest neighbors
           end
  end.

(** Second loop of [getNeighbors]: the sources of incoming edges. *)
Fixpoint reverseLoop (s : t) (nodeName : string) (limit : Z)
         (entries : list (string * JsSet.t))
         (neighbors : list GQPNode) : list GQPNode :=
  match entries with
  | [] => neighbors
  | (sourceNodeName, targets) :: rest =>
      if Z.of_nat (length neighbors) >=? limit then neighbors
      else if JsSet.has targets nodeName
              && negb (String.eqb sourceNodeName nodeName)
      then match JsMap.get (nodes s) sourceNodeName with
           | Some sourceNode =>
               if negb (includes neighbors sourceNode)
               then reverseLoop s nodeName limit rest
                                (neighbors ++ [sourceNode])
               else reverseLoop s nodeName limit rest neighbors
           | None => reverseLoop s nodeName limit rest neighbors
           end
      else reverseLoop s nodeName limit rest neighbors
  end.

Definition getNeighbors (s : t) (nodeName : string) (limit : Z)
  : list GQPNode :=
  match JsMap.get (nodes s) nodeName with
  | None => []
  | Some _ =>
      let neighbors := forwardLoop s limit (targetsOf s nodeName) [] in
      let neighbors :=
        reverseLoop s nodeName limit (edgeIndex s) neighbors in
      slice0 neighbors limit
  end.

(** [clear()] *)
Definition clear (s : t) : t := empty.

Definition getEdge (s : t) (from to : string) : option GQPEdge :=
  match JsMap.get (nodes s) from with
  | None => None
  | Some node => find (fun e => String.eqb (e_to e) to) (edges node)
  end.

(** *** findPath *)

Record QueueEntry : Type := mkEntry {
  q_node : string;
  q_path : list string
}.

(** The inner [for] of [findPath]: either the target is met and the new
    path is returned at once, or every neighbour is appended to the
    queue. *)
Fixpoint expand (to : string) (path : list string) (neighbors : list string)
         (queue : list QueueEntry) : list string + list QueueEntry :=
  match neighbors with
  | [] => inr queue
  | neighbor :: rest =>
      let newPath := path ++ [neighbor] in
      if String.eqb neighbor to then inl newPath
      else expand to path rest (queue ++ [mkEntry neighbor newPath])
  end.

(** The [while (queue.length > 0)] loop.  [fuel] bounds the number of
    iterations; [None] means the bound was hit, [Some r] that the loop
    ended with result [r] ([r = None] is the final [return null]). *)
Fixpoint bfsLoop (fuel : nat) (s : t) (to : string) (maxDepth : Z)
         (queue : list QueueEntry) (visited : JsSet.t)
  : option (option (list string)) :=
  match queue with
  | [] => Some None
  | current :: rest =>
      match fuel with
      | O => None
      | S fuel' =>
          if Z.of_nat (length (q_path current)) >? maxDepth
          then bfsLoop fuel' s to maxDepth rest visited
          else if JsSet.has visited (q_node current)
          then bfsLoop fuel' s to maxDepth rest visited
          else
            match expand to (q_path current)
                         (targetsOf s (q_node current)) rest with
            | inl newPath => Some (Some newPath)
            | inr queue' =>
                bfsLoop fuel' s to maxDepth queue'
                        (visited ++ [q_node current])
            end
      end
  end.

(** Number of edge-index entries: every iteration of the loop consumes a
    queue entry, and the entries ever pushed are bounded by it. *)
Definition edgeCount (s : t) : nat :=
  fold_right (fun e acc => (length (snd e) + acc)%nat) O (edgeIndex s).

Definition findPath (s : t) (from to : string) (maxDepth : Z)
  : option (list string) :=
  if String.eqb from to then Some [from]
  else if negb (JsMap.has (nodes s) from) || negb (JsMap.has (nodes s) to)
  then None
  else match bfsLoop (S (edgeCount s)) s to maxDepth
                     [mkEntry from [from]] [] with
       | Some r => r
       | None => None
       end.

End GQPSchema.


(** ** Cursor (src/core/cursor.ts) *)

(** [x || null] on an optional string: [undefined], [null] and the empty
    string are falsy. *)
Definition truthy (o : option string) : option string :=
  match o with
  | Some s => if String.eqb s "" then None else Some s
  | None => None
  end.

(** [new Set(xs).size] *)
Definition distinctCount (xs : list string) : Z :=
  Z.of_nat (length (nodup string_dec xs)).

Record GQPCursor : Type := mkCursor {
  id : string;
  currentNode : option string;
  neighbors : list string;
  path : list string;
  depth : Z;
  createdAt : Z;
  totalNodes : Z;
  exploredNodes : Z
}.

Inductive GQPAction : Type := explore | navigate | query | introspect.

Record NeighborView : Type := mkNeighborView {
  nv_name : string;
  nv_description : option string;
  nv_relation : RelationType;
  nv_distance : Z
}.

Record NeighborhoodView : Type := mkView {
  v_currentNode : option GQPNode;
  v_neighbors : list NeighborView;
  v_path : list string;
  v_depth : Z;
  v_availableActions : list GQPAction
}.

Module GQPGraphCursor.

(** The cursor object; the schema it points to is shared with the engine
    and is passed to every method that reads it. *)
Record t : Type := mk {
  cursor : GQPCursor;
  maxPathLength : Z
}.

Definition generateCursorId (suffix : string) : string :=
  String.append "cursor_" suffix.

(** [updateNeighbors] *)
Definition updateNeighbors (schema : GQPSchema.t) (c : GQPCursor)
  : GQPCursor :=
  let ns :=
    match truthy (currentNode c) with
    | None => map name (GQPSchema.getRootNodes schema)
    | Some cur => map name (GQPSchema.getNeighbors schema cur 5)
    end in
  mkCursor (id c) (currentNode c) ns (path c) (depth c) (createdAt c)
           (totalNodes c) (exploredNodes c).

(** [constructor(schema, startNode?, maxPathLength)]; [suffix] and [now]
    are what [Math.random] and [Date.now] return. *)
Definition new (schema : GQPSchema.t) (startNode : option string)
           (maxPathLength : Z) (suffix : string) (now : Z) : t :=
  let c :=
    mkCursor (generateCursorId suffix)
             (truthy startNode)
             []
             (match truthy startNode with Some s => [s] | None => [] end)
             (match truthy startNode with Some _ => 0 | None => -1 end)
             now
             (GQPSchema.getNodeCount schema)
             (match truthy startNode with Some _ => 1 | None => 0 end) in
  mk (match truthy startNode with
      | Some _ => updateNeighbors schema c
      | None => c
      end) maxPathLength.

Definition getId (c : t) : string := id (cursor c).
Definition getState (c : t) : GQPCursor := cursor c.
Definition getCurrentNode (c : t) : option string := currentNode (cursor c).
Definition getCreatedAt (c : t) : Z := createdAt (cursor c).

Definition getNeighborhood (schema : GQPSchema.t) (c : t) (size : Z)
  : NeighborhoodView :=
  let currentNodeName := currentNode (cursor c) in
  let current :=
    match truthy currentNodeName with
    | Some nm => GQPSchema.getNode schema nm
    | None => None
    end in
  match current, currentNodeName with
  | Some node, Some nm =>
      mkView (Some node)
             (map (fun n =>
                     mkNeighborView
                       (name n) (description n)
                       (match GQPSchema.getEdge schema nm (name n) with
                        | Some e => e_relation e
                        | None => hasMany
                        end) 1)
                  (GQPSchema.getNeighbors schema nm size))
             (path (cursor c))
             (depth (cursor c))
             ([navigate; query]
                ++ if Z.of_nat (length (path (cursor c))) >? 1
                   then [explore] else [])
  | _, _ =>
      mkView None
             (map (fun n =>
                     mkNeighborView (name n) (description n) hasMany 1)
                  (slice0 (GQPSchema.getRootNodes schema) size))
             [] (-1) [explore; navigate; introspect]
  end.

Definition navigateTo (schema : GQPSchema.t) (c : t) (nodeName : string)
  : Result (t * NeighborhoodView) :=
  match GQPSchema.getNode schema nodeName with
  | None => Err (createError.nodeNotFound nodeName)
  | Some _ =>
      let cur := cursor c in
      let depth' := Z.of_nat (length (path cur)) in
      let shifted :=
        if Z.of_nat (length (path cur)) >=? maxPathLength c
        then tl (path cur) else path cur in
      let path' := shifted ++ [nodeName] in
      let cur' :=
        mkCursor (id cur) (Some nodeName) (neighbors cur) path' depth'
                 (createdAt cur) (totalNodes cur) (distinctCount path') in
      let c' := mk (updateNeighbors schema cur') (maxPathLength c) in
      Ok (c', getNeighborhood schema c' 5)
  end.

(** [goBack]: the cursor after the call and the view returned
    ([None] is [null]). *)
Definition goBack (schema : GQPSchema.t) (c : t)
  : t * option NeighborhoodView :=
  let cur := cursor c in
  if Z.of_nat (length (path cur)) <=? 1 then (c, None)
  else
    let path' := removelast (path cur) in
    let previousNode := truthy (last (map Some path') None) in
    let cur' :=
      mkCursor (id cur) previousNode (neighbors cur) path'
               (Z.max 0 (depth cur - 1))
               (createdAt cur) (totalNodes cur) (exploredNodes cur) in
    let c' := mk (updateNeighbors schema cur') (maxPathLength c) in
    (c', Some (getNeighborhood schema c' 5)).

Definition reset (c : t) : t :=
  let cur := cursor c in
  mk (mkCursor (id cur) None [] [] (-1) (createdAt cur) (totalNodes cur) 0)
     (maxPathLength c).

Definition canReach (schema : GQPSchema.t) (c : t) (nodeName : string)
           (maxDepth : Z) : bool :=
  match truthy (currentNode (cursor c)) with
  | None => true
  | Some cur =>
      match GQPSchema.findPath schema cur nodeName maxDepth with
      | Some _ => true
      | None => false
      end
  end.

Definition getSuggestedNodes (schema : GQPSchema.t) (c : t) (limit : Z)
  : list string :=
  match truthy (currentNode (cursor c)) with
  | None => map name (slice0 (GQPSchema.getRootNodes schema) limit)
  | Some cur =>
      let visited := path (cursor c) in
      let unvisited :=
        slice0 (filter (fun n => negb (JsSet.has visited (name n)))
                       (GQPSchema.getNeighbors schema cur 10)) limit in
      map name unvisited
  end.

End GQPGraphCursor.

Module CursorManager.

Record t : Type := mk {
  cursors : JsMap.t GQPGraphCursor.t;
  maxCursors : Z;
  cursorTTL : Z;
  maxPathLength : Z
}.

(** [new CursorManager(schema, maxCursors, cursorTTL, maxPathLength)] *)
Definition new (maxCursors cursorTTL maxPathLength : Z) : t :=
  mk [] maxCursors cursorTTL maxPathLength.

Definition withCursors (m : t) (cs : JsMap.t GQPGraphCursor.t) : t :=
  mk cs (maxCursors m) (cursorTTL m) (maxPathLength m).

Definition size (m : t) : Z := JsMap.size (cursors m).

Definition isExpired (m : t) (now : Z) (c : GQPGraphCursor.t) : bool :=
  now - GQPGraphCursor.getCreatedAt c >? cursorTTL m.

(** [evictExpired]: the loop over the entries, deleting by id. *)
Definition evictExpired (m : t) (now : Z) : t :=
  withCursors m
    (fold_left
       (fun cs e =>
          if now - GQPGraphCursor.getCreatedAt (snd e) >? cursorTTL m
          then JsMap.delete cs (fst e) else cs)
       (cursors m) (cursors m)).

(** The scan of [evictOldest]: [None] is the initial
    [oldestId = null, oldestTime = Infinity]. *)
Fixpoint oldestScan (entries : list (string * GQPGraphCursor.t))
         (oldest : option (string * Z)) : option (string * Z) :=
  match entries with
  | [] => oldest
  | (cid, c) :: rest =>
      let created := GQPGraphCursor.getCreatedAt c in
      let better :=
        match oldest with
        | None => true
        | Some (_, oldestTime) => created <? oldestTime
        end in
      oldestScan rest (if better then Some (cid, created) else oldest)
  end.

Definition evictOldest (m : t) : t :=
  match oldestScan (cursors m) None with
  | Some (oldestId, _) =>
      if String.eqb oldestId "" then m
      else withCursors m (JsMap.delete (cursors m) oldestId)
  | None => m
  end.

(** [create(startNode?)]: [now] is the clock read by the sweep, [suffix]
    and [stamp] the identifier suffix and the clock read by the
    constructor of the new cursor. *)
Definition create (m : t) (schema : GQPSchema.t)
           (startNode : option string) (now : Z) (suffix : string)
           (stamp : Z) : t * GQPGraphCursor.t :=
  let m1 := evictExpired m now in
  let m2 := if size m1 >=? maxCursors m1 then evictOldest m1 else m1 in
  let c := GQPGraphCursor.new schema startNode (maxPathLength m2)
                              suffix stamp in
  (withCursors m2 (JsMap.set (cursors m2) (GQPGraphCursor.getId c) c), c).

Definition get (m : t) (cid : string) (now : Z)
  : t * option GQPGraphCursor.t :=
  match JsMap.get (cursors m) cid with
  | Some c =>
      if isExpired m now c
      then (withCursors m (JsMap.delete (cursors m) cid), None)
      else (m, Some c)
  | None => (m, None)
  end.

Definition delete (m : t) (cid : string) : t * bool :=
  (withCursors m (JsMap.delete (cursors m) cid), JsMap.has (cursors m) cid).

Definition getOrCreate (m : t) (schema : GQPSchema.t)
           (cid : option string) (startNode : option string)
           (now : Z) (suffix : string) (stamp : Z)
  : t * GQPGraphCursor.t :=
  match truthy cid with
  | Some i =>
      match get m i now with
      | (m', Some existing) => (m', existing)
      | (m', None) => create m' schema startNode now suffix stamp
      end
  | None => create m schema startNode now suffix stamp
  end.

Definition clear (m : t) : t := withCursors m [].

End CursorManager.

(** ** JavaScript values *)

(** An unknown value, as [JSON.parse] or a caller may produce it.  The
    properties of an object are listed in enumeration order. *)
Inductive JsVal : Type :=
| JUndefined
| JNull
| JBool (b : bool)
| JNum (z : Z)
| JStr (s : string)
| JArr (items : list JsVal)
| JObj (props : list (string * JsVal)).

(** A value of TypeScript type [number]. *)
Inductive JsNumber : Type :=
| Finite (z : Z)
| NaN
| PosInfinity
| NegInfinity.

Definition QueryFilters : Type := list (string * JsVal).

Record OrderBy : Type := mkOrderBy {
  ob_field : string;
  ob_direction : string
}.

Record QueryOptions : Type := mkOptions {
  limit : option JsNumber;
  offset : option JsNumber;
  orderBy : option OrderBy;
  include : option (list string)
}.

Definition emptyOptions : QueryOptions := mkOptions None None None None.

(** [s.split(sep)] for a one-character separator. *)
Fixpoint splitOn (sep : ascii) (s : string) : list string :=
  match s with
  | EmptyString => [EmptyString]
  | String c rest =>
      if Ascii.eqb c sep then EmptyString :: splitOn sep rest
      else match splitOn sep rest with
           | h :: t => String c h :: t
           | [] => [String c EmptyString]
           end
  end.

(** [parts.join(sep)] *)
Definition join (sep : string) (parts : list string) : string :=
  match parts with
  | [] => EmptyString
  | p :: rest =>
      fold_left (fun acc q => String.append acc (String.append sep q)) rest p
  end.

(** [inc.split(".")] cut to [maxDepth] segments when longer. *)
Definition truncateInclude (maxDepth : Z) (inc : string) : string :=
  let parts := splitOn "."%char inc in
  if Z.of_nat (length parts) >? maxDepth
  then join "." (slice0 parts maxDepth)
  else inc.

(** ** Validator (src/core/validation.ts) *)

Definition isLetter (c : ascii) : bool :=
  let n := nat_of_ascii c in
  ((97 <=? n) && (n <=? 122) || (65 <=? n) && (n <=? 90))%nat.

Definition isDigit (c : ascii) : bool :=
  let n := nat_of_ascii c in ((48 <=? n) && (n <=? 57))%nat.

Definition isUnderscore (c : ascii) : bool := Ascii.eqb c "_"%char.

Fixpoint allChars (p : ascii -> bool) (s : string) : bool :=
  match s with
  | EmptyString => true
  | String c rest => p c && allChars p rest
  end.

(** [/^[a-zA-Z_][a-zA-Z0-9_]*$/.test(s)] *)
Definition isIdentifier (s : string) : bool :=
  match s with
  | EmptyString => false
  | String c rest =>
      (isLetter c || isUnderscore c)
      && allChars (fun d => isLetter d || isDigit d || isUnderscore d) rest
  end.

(** White space removed by [String.prototype.trim], among the code units
    below 256. *)
Definition isSpace (c : ascii) : bool :=
  let n := nat_of_ascii c in
  ((9 <=? n) && (n <=? 13) || (n =? 32) || (n =? 160))%nat.

Fixpoint trimStart (s : string) : string :=
  match s with
  | EmptyString => EmptyString
  | String c rest => if isSpace c then trimStart rest else s
  end.

Fixpoint trimEnd (s : string) : string :=
  match s with
  | EmptyString => EmptyString
  | String c rest =>
      match trimEnd rest with
      | EmptyString => if isSpace c then EmptyString else String c EmptyString
      | r => String c r
      end
  end.

Definition trim (s : string) : string := trimEnd (trimStart s).

Definition stringIn (xs : list string) (x : string) : bool :=
  existsb (String.eqb x) xs.

Definition isLogical (k : string) : bool := stringIn ["AND"; "OR"; "NOT"] k.

(** The key of index [i] in [Object.entries] of an array. *)
Definition indexKey (i : nat) : string :=
  NilZero.string_of_uint (Nat.to_uint i).

Record ToolCallParams : Type := mkParams {
  tc_action : GQPAction;
  tc_node : option string;
  tc_query : option string;
  tc_filters : option QueryFilters;
  tc_options : option QueryOptions;
  tc_cursorId : option string
}.

(** The properties that [validateToolCallParams] reads from the raw
    parameter object; an absent property is [JUndefined].  [options] has
    the type [QueryOptions] that the code casts it to. *)
Record RawParams : Type := mkRaw {
  p_action : JsVal;
  p_node : JsVal;
  p_query : JsVal;
  p_filters : JsVal;
  p_options : option QueryOptions;
  p_cursorId : JsVal
}.

Module Validator.

Record ValidationConfig : Type := mkValidation {
  strictNodeNames : bool;
  nodeNamePattern : string -> bool;
  allowedFilterOperators : list string;
  maxArrayInFilter : Z;
  maxFilterDepth : Z;
  maxQueryLength : Z
}.

Record LimitsConfig : Type := mkLimits {
  maxLimit : Z;
  defaultLimit : Z;
  maxOffset : Z;
  maxIncludeDepth : Z;
  maxCursors : Z;
  cursorTTL : Z;
  maxCursorPathLength : Z;
  timeout : Z
}.

Definition DEFAULT_VALIDATION : ValidationConfig :=
  mkValidation true isIdentifier
    ["equals"; "not"; "in"; "notIn"; "lt"; "lte"; "gt"; "gte"; "contains";
     "startsWith"; "endsWith"; "mode"; "search"]
    100 5 1000.

Definition DEFAULT_LIMITS : LimitsConfig :=
  mkLimits 100 10 10000 3 100 (30 * 60 * 1000) 100 30000.

Record t : Type := mk {
  config : ValidationConfig;
  limits : LimitsConfig
}.

Definition validateNodeName (v : t) (node : JsVal) : Result string :=
  match node with
  | JUndefined | JNull => Err (createError.nodeRequired "navigate/query")
  | JStr s =>
      let trimmed := trim s in
      if String.eqb trimmed "" then
        Err (createError.nodeRequired "navigate/query")
      else if strictNodeNames (config v)
              && negb (nodeNamePattern (config v) trimmed)
      then Err (createError.invalidNode trimmed)
      else Ok trimmed
  | _ => Err (createError.validation "node" MustBeAString)
  end.

Definition validateAction (action : JsVal) : Result GQPAction :=
  match action with
  | JStr s =>
      if String.eqb s "" then
        Err (createError.validation "action" RequiredString)
      else if String.eqb s "explore" then Ok explore
      else if String.eqb s "navigate" then Ok navigate
      else if String.eqb s "query" then Ok query
      else if String.eqb s "introspect" then Ok introspect
      else Err (createError.invalidAction s)
  | _ => Err (createError.validation "action" RequiredString)
  end.

Definition validateOptions (v : t) (options : QueryOptions)
  : QueryOptions :=
  let lim :=
    match limit options with
    | Some (Finite l) =>
        if l <? 1 then defaultLimit (limits v)
        else Z.min l (maxLimit (limits v))
    | _ => defaultLimit (limits v)
    end in
  let off :=
    match offset options with
    | Some (Finite o) =>
        if o <? 0 then 0 else Z.min o (maxOffset (limits v))
    | _ => 0
    end in
  let inc :=
    match include options with
    | Some incs =>
        Some (map (truncateInclude (maxIncludeDepth (limits v))) incs)
    | None => None
    end in
  let ord :=
    match orderBy options with
    | Some ob =>
        if stringIn ["asc"; "desc"] (ob_direction ob) then Some ob
        else None
    | None => None
    end in
  mkOptions (Some (Finite lim)) (Some (Finite off)) ord inc.

Definition validateQuery (v : t) (q : JsVal) : Result (option string) :=
  match q with
  | JUndefined | JNull => Ok None
  | JStr s =>
      if Z.of_nat (String.length s) >? maxQueryLength (config v)
      then Err (createError.validation
                  "query" (ExceedsMaximumLength (maxQueryLength (config v))))
      else Ok (Some s)
  | _ => Err (createError.validation "query" MustBeAString)
  end.

(** One iteration of the loop of [validateFilters] over
    [Object.entries(filterObj)]; [nested] is the call
    [this.validateNestedFilter(key, value, depth)]. *)
Definition filterStep (v : t) (key : string) (value : JsVal)
           (nested : Result QueryFilters) (validated : QueryFilters)
  : Result QueryFilters :=
  if strictNodeNames (config v) && negb (isIdentifier key)
     && negb (isLogical key)
  then Ok validated
  else
    match value with
    | JArr items =>
        if Z.of_nat (length items) >? maxArrayInFilter (config v)
        then Err (createError.validation
                    (String.append "filters." key)
                    (ArrayExceedsMaximumLength (maxArrayInFilter (config v))))
        else Ok (JsMap.set validated key value)
    | JObj _ =>
        r <- nested ;; Ok (JsMap.set validated key (JObj r))
    | _ => Ok (JsMap.set validated key value)
    end.

(** One iteration of the loop of [validateNestedFilter];
    [recFilters d] is [this.validateFilters(value, d)],
    [recEach d] is [value.map((v) => this.validateFilters(v, d))] and
    [recNested k d] is [this.validateNestedFilter(k, value, d)]. *)
Definition nestedStep (v : t) (parentKey op : string) (value : JsVal)
           (depth : Z)
           (recFilters : Z -> Result QueryFilters)
           (recEach : Z -> Result (list JsVal))
           (recNested : string -> Z -> Result QueryFilters)
           (validated : QueryFilters) : Result QueryFilters :=
  if stringIn (allowedFilterOperators (config v)) op then
    match value with
    | JArr items =>
        if Z.of_nat (length items) >? maxArrayInFilter (config v)
        then Err (createError.validation
                    (String.append "filters."
                       (String.append parentKey (String.append "." op)))
                    (ArrayExceedsMaximumLength (maxArrayInFilter (config v))))
        else Ok (JsMap.set validated op value)
    | _ => Ok (JsMap.set validated op value)
    end
  else if isLogical op then
    match value with
    | JArr _ => r <- recEach (depth + 1) ;;
                Ok (JsMap.set validated op (JArr r))
    | _ => r <- recFilters (depth + 1) ;;
           Ok (JsMap.set validated op (JObj r))
    end
  else
    match value with
    | JArr _ | JObj _ =>
        r <- recNested (String.append parentKey (String.append "." op))
                       (depth + 1) ;;
        Ok (JsMap.set validated op (JObj r))
    | _ => Ok (JsMap.set validated op value)
    end.

Fixpoint validateFilters (v : t) (filters : JsVal) (depth : Z)
         {struct filters} : Result QueryFilters :=
  match filters with
  | JUndefined | JNull => Ok []
  | JObj props =>
      if depth >? maxFilterDepth (config v) then
        Err (createError.validation
               "filters" (ExceedsMaximumDepth (maxFilterDepth (config v))))
      else
        (fix loop (entries : list (string * JsVal))
             (validated : QueryFilters) {struct entries}
           : Result QueryFilters :=
           match entries with
           | [] => Ok validated
           | (key, value) :: rest =>
               r <- filterStep v key value
                      (validateNestedFilter v key value depth) validated ;;
               loop rest r
           end) props []
  | _ => Err (createError.validation "filters" MustBeAnObject)
  end

with validateNestedFilter (v : t) (parentKey : string) (filter : JsVal)
                          (depth : Z) {struct filter}
  : Result QueryFilters :=
  let each (value : JsVal) (d : Z) : Result (list JsVal) :=
    match value with
    | JArr items =>
        (fix mapEach (xs : list JsVal) : Result (list JsVal) :=
           match xs with
           | [] => Ok []
           | x :: rest =>
               r <- validateFilters v x d ;;
               rs <- mapEach rest ;;
               Ok (JObj r :: rs)
           end) items
    | _ => Ok []
    end in
  match filter with
  | JObj props =>
      (fix loop (entries : list (string * JsVal))
           (validated : QueryFilters) {struct entries}
         : Result QueryFilters :=
         match entries with
         | [] => Ok validated
         | (op, value) :: rest =>
             r <- nestedStep v parentKey op value depth
                    (validateFilters v value)
                    (each value)
                    (fun k d => validateNestedFilter v k value d)
                    validated ;;
             loop rest r
         end) props []
  | JArr items =>
      (fix loop (i : nat) (entries : list JsVal)
           (validated : QueryFilters) {struct entries}
         : Result QueryFilters :=
         match entries with
         | [] => Ok validated
         | value :: rest =>
             r <- nestedStep v parentKey (indexKey i) value depth
                    (validateFilters v value)
                    (each value)
                    (fun k d => validateNestedFilter v k value d)
                    validated ;;
             loop (S i) rest r
         end) O items []
  | _ => Ok []
  end.

Definition validateCursorId (cursorId : JsVal) : Result (option string) :=
  match cursorId with
  | JUndefined | JNull => Ok None
  | JStr s => Ok (Some s)
  | _ => Err (createError.validation "cursorId" MustBeAString)
  end.

Definition isUndefined (x : JsVal) : bool :=
  match x with JUndefined => true | _ => false end.

(** [validateToolCallParams(params)]; [None] is a [params] that is not an
    object. *)
Definition validateToolCallParams (v : t) (params : option RawParams)
  : Result ToolCallParams :=
  match params with
  | None => Err (createError.validation "params" MustBeAnObject)
  | Some p =>
      action <- validateAction (p_action p) ;;
      node <- match action with
              | navigate | query =>
                  n <- validateNodeName v (p_node p) ;; Ok (Some n)
              | _ =>
                  if isUndefined (p_node p) then Ok None
                  else n <- validateNodeName v (p_node p) ;; Ok (Some n)
              end ;;
      q <- (if isUndefined (p_query p) then Ok None
            else validateQuery v (p_query p)) ;;
      filters <- (if isUndefined (p_filters p) then Ok None
                  else f <- validateFilters v (p_filters p) 0 ;;
                       Ok (Some f)) ;;
      let options :=
        match p_options p with
        | Some o => Some (validateOptions v o)
        | None => None
        end in
      cid <- (if isUndefined (p_cursorId p) then Ok None
              else validateCursorId (p_cursorId p)) ;;
      Ok (mkParams action node q filters options cid)
  end.

End Validator.

(** ** Security gate (src/core/security.ts) *)

Record SecurityContext : Type := mkContext {
  userId : option string;
  orgId : option string;
  roles : option (list string);
  claims : option QueryFilters
}.

Definition actionEqb (a b : GQPAction) : bool :=
  match a, b with
  | explore, explore | navigate, navigate
  | query, query | introspect, introspect => true
  | _, _ => false
  end.

Record NodeAccessRule : Type := mkRule {
  r_roles : option (list string);
  r_actions : option (list GQPAction);
  r_check : option (SecurityContext -> Result bool)
}.

Definition RLSFunction : Type := SecurityContext -> Result QueryFilters.

Inductive IntrospectionMode : Type :=
| IntrospectionPublic
| IntrospectionAuthenticated
| IntrospectionDisabled
| IntrospectionCustom (check : SecurityContext -> bool).

(** Canonical form of a code unit under the [i] flag of a regular
    expression. *)
Definition foldCase (c : ascii) : nat :=
  let n := nat_of_ascii c in
  if ((97 <=? n) && (n <=? 122))%nat then (n - 32)%nat
  else if ((224 <=? n) && (n <=? 254) && negb (n =? 247))%nat
       then (n - 32)%nat
  else n.

(** What [.] matches: anything but a line terminator. *)
Definition isDotChar (c : ascii) : bool :=
  let n := nat_of_ascii c in negb ((n =? 10) || (n =? 13))%nat.

(** The regular expression that [matchPattern] builds from a pattern:
    each [*] becomes [.*], every other character is matched literally and
    without regard to case, anchored at both ends. *)
Fixpoint globMatch (pattern : string) : string -> bool :=
  match pattern with
  | EmptyString =>
      fun s => match s with EmptyString => true | _ => false end
  | String c pattern' =>
      if Ascii.eqb c "*"%char then
        fix star (s : string) : bool :=
          globMatch pattern' s
          || match s with
             | EmptyString => false
             | String d s' => isDotChar d && star s'
             end
      else
        fun s =>
          match s with
          | EmptyString => false
          | String d s' =>
              Nat.eqb (foldCase c) (foldCase d) && globMatch pattern' s'
          end
  end.

Fixpoint containsChar (c : ascii) (s : string) : bool :=
  match s with
  | EmptyString => false
  | String d rest => Ascii.eqb c d || containsChar c rest
  end.

Module SecurityManager.

Record SecurityConfig : Type := mkConfig {
  context : option (unit -> Result SecurityContext);
  nodeAccess : option (JsMap.t NodeAccessRule);
  rowLevelSecurity : option (JsMap.t RLSFunction);
  introspection : option IntrospectionMode;
  hiddenFields : option (list string);
  hiddenNodes : option (list string)
}.

Record t : Type := mk { config : SecurityConfig }.

(** [new SecurityManager()] *)
Definition noConfig : SecurityConfig :=
  mkConfig None None None None None None.

Definition defaultContext : SecurityContext :=
  mkContext None None None None.

Definition isSome {A : Type} (o : option A) : bool :=
  match o with Some _ => true | None => false end.

Definition isEnabled (m : t) : bool :=
  isSome (context (config m))
  || isSome (nodeAccess (config m))
  || isSome (rowLevelSecurity (config m))
  || isSome (introspection (config m)).

Definition getContext (m : t) : Result SecurityContext :=
  match context (config m) with
  | None => Ok defaultContext
  | Some provider =>
      match provider tt with
      | Ok c => Ok c
      | Err _ =>
          Err (GQPError AUTHORIZATION_ERROR
                        "Failed to resolve security context" NoReason)
      end
  end.

(** [ctx || (await this.getContext())] *)
Definition contextOr (m : t) (ctx : option SecurityContext)
  : Result SecurityContext :=
  match ctx with
  | Some c => Ok c
  | None => getContext m
  end.

(** [record?.[node] || record?.["*"]], for a node name that is not the
    name of a member inherited from [Object.prototype]. *)
Definition ruleFor {A : Type} (record : option (JsMap.t A))
           (node : string) : option A :=
  match record with
  | None => None
  | Some r =>
      match JsMap.get r node with
      | Some x => Some x
      | None => JsMap.get r "*"
      end
  end.

Definition checkNodeAccess (m : t) (node : string) (action : GQPAction)
           (ctx : option SecurityContext) : Result unit :=
  context <- contextOr m ctx ;;
  match ruleFor (nodeAccess (config m)) node with
  | None => Ok tt
  | Some rule =>
      _ <- match r_roles rule with
           | Some (r :: rs) =>
               let userRoles :=
                 match roles context with Some l => l | None => [] end in
               if existsb (fun role => stringIn userRoles role) (r :: rs)
               then Ok tt
               else Err (createError.accessDenied node)
           | _ => Ok tt
           end ;;
      _ <- match r_actions rule with
           | Some (a :: acts) =>
               if existsb (actionEqb action) (a :: acts) then Ok tt
               else Err (createError.accessDenied node)
           | _ => Ok tt
           end ;;
      match r_check rule with
      | Some check =>
          allowed <- check context ;;
          if allowed then Ok tt else Err (createError.accessDenied node)
      | None => Ok tt
      end
  end.

Definition getRLSFilters (m : t) (node : string)
           (ctx : option SecurityContext) : Result QueryFilters :=
  context <- contextOr m ctx ;;
  match ruleFor (rowLevelSecurity (config m)) node with
  | None => Ok []
  | Some rlsFn =>
      match rlsFn context with
      | Ok f => Ok f
      | Err _ =>
          Err (GQPError AUTHORIZATION_ERROR
                        (String.append
                           "Failed to compute row-level security for " node)
                        NoReason)
      end
  end.

Definition applyRLS (m : t) (node : string) (filters : QueryFilters)
           (ctx : option SecurityContext) : Result QueryFilters :=
  rlsFilters <- getRLSFilters m node ctx ;;
  match rlsFilters, filters with
  | [], _ => Ok filters
  | _, [] => Ok rlsFilters
  | _, _ => Ok [("AND", JArr [JObj filters; JObj rlsFilters])]
  end.

Definition checkIntrospectionAccess (m : t) (ctx : option SecurityContext)
  : Result unit :=
  match introspection (config m) with
  | None | Some IntrospectionPublic => Ok tt
  | Some mode =>
      context <- contextOr m ctx ;;
      match mode with
      | IntrospectionDisabled => Err createError.introspectionDisabled
      | IntrospectionAuthenticated =>
          match truthy (userId context) with
          | None =>
              Err (GQPError AUTHORIZATION_ERROR
                     "Authentication required for schema introspection"
                     NoReason)
          | Some _ => Ok tt
          end
      | IntrospectionCustom check =>
          if check context then Ok tt
          else Err createError.introspectionDisabled
      | IntrospectionPublic => Ok tt
      end
  end.

Definition matchPattern (nm pattern : string) : bool :=
  if String.eqb pattern nm then true
  else if negb (containsChar "*"%char pattern) then false
  else globMatch pattern nm.

Definition isFieldHidden (m : t) (fieldName : string) : bool :=
  let patterns :=
    match hiddenFields (config m) with Some l => l | None => [] end in
  existsb (matchPattern fieldName) patterns.

Definition isNodeHidden (m : t) (nodeName : string) : bool :=
  let hidden :=
    match hiddenNodes (config m) with Some l => l | None => [] end in
  stringIn hidden nodeName.

Definition filterHiddenFields (m : t) (node : GQPNode) : GQPNode :=
  match hiddenFields (config m) with
  | Some (_ :: _) =>
      mkNode (name node) (description node)
             (filter (fun field => negb (isFieldHidden m (f_name field)))
                     (fields node))
             (edges node) (capabilities node) (source node)
  | _ => node
  end.

End SecurityManager.

(** ** Query executor (src/core/executor.ts) *)

Record PluginContext : Type := mkPluginContext {
  pc_query : option string;
  pc_filters : QueryFilters;
  pc_options : QueryOptions
}.

Record GQPPlugin : Type := mkPlugin {
  pl_name : string;
  onPreQuery :
    option (GQPNode -> QueryFilters -> PluginContext -> Result QueryFilters);
  onPostQuery :
    option (GQPNode -> list JsVal -> PluginContext -> Result (list JsVal));
  translateFilter :
    option (GQPField -> JsVal -> PluginContext -> Result JsVal)
}.

(** What becomes of the promise returned by [adapter.execute] while the
    timer of [executeWithTimeout] runs. *)
Inductive AdapterOutcome : Type :=
| Resolves (rows : list JsVal)
| Rejects (e : Thrown)
| Pending.

Record GQPAdapter : Type := mkAdapter {
  a_name : string;
  a_execute : string -> QueryFilters -> QueryOptions -> AdapterOutcome;
  a_count : option (string -> QueryFilters -> Result Z)
}.

Record QueryResult : Type := mkResult {
  data : list JsVal;
  total : option Z;
  hasMore : bool;
  executionTimeMs : Z;
  nextActions : list string
}.

Module QueryExecutor.

Record ExecutorConfig : Type := mkConfig {
  defaultLimit : Z;
  maxLimit : Z;
  timeout : Z;
  maxIncludeDepth : option Z
}.

Definition DEFAULT_CONFIG : ExecutorConfig := mkConfig 10 100 30000 (Some 3).

Record t : Type := mk {
  adapters : JsMap.t GQPAdapter;
  plugins : list GQPPlugin;
  config : ExecutorConfig
}.

(** The limit that [normalizeOptions] computes. *)
Definition normalizedLimit (ex : t) (options : QueryOptions) : Z :=
  match limit options with
  | Some (Finite parsedLimit) =>
      if parsedLimit >? 0 then Z.min parsedLimit (maxLimit (config ex))
      else defaultLimit (config ex)
  | _ => defaultLimit (config ex)
  end.

Definition normalizeOptions (ex : t) (options : QueryOptions)
  : QueryOptions :=
  let off :=
    match offset options with
    | Some (Finite parsedOffset) =>
        if parsedOffset >=? 0 then parsedOffset else 0
    | _ => 0
    end in
  let inc :=
    match include options, maxIncludeDepth (config ex) with
    | Some incs, Some d =>
        if d =? 0 then incs else map (truncateInclude d) incs
    | Some incs, None => incs
    | None, _ => []
    end in
  mkOptions (Some (Finite (normalizedLimit ex options)))
            (Some (Finite off)) (orderBy options) (Some inc).

(** [translateFilters(node, filters, plugin, context)] for a plugin whose
    [translateFilter] hook is [hook]. *)
Fixpoint translateFilters (node : GQPNode)
         (hook : GQPField -> JsVal -> PluginContext -> Result JsVal)
         (context : PluginContext) (entries : QueryFilters)
         (translated : QueryFilters) : Result QueryFilters :=
  match entries with
  | [] => Ok translated
  | (fieldName, value) :: rest =>
      match find (fun f => String.eqb (f_name f) fieldName)
                 (fields node) with
      | Some field =>
          translatedValue <- hook field value context ;;
          match translatedValue with
          | JNull =>
              translateFilters node hook context rest
                               (JsMap.set translated fieldName value)
          | _ =>
              translateFilters node hook context rest
                               (JsMap.set translated fieldName
                                          translatedValue)
          end
      | None =>
          translateFilters node hook context rest
                           (JsMap.set translated fieldName value)
      end
  end.

(** The first loop over the plugins in [execute]. *)
Fixpoint preQueryLoop (node : GQPNode) (context : PluginContext)
         (ps : list GQPPlugin) (processedFilters : QueryFilters)
  : Result QueryFilters :=
  match ps with
  | [] => Ok processedFilters
  | plugin :: rest =>
      f1 <- match onPreQuery plugin with
            | Some hook => hook node processedFilters context
            | None => Ok processedFilters
            end ;;
      f2 <- match translateFilter plugin with
            | Some hook => translateFilters node hook context f1 []
            | None => Ok f1
            end ;;
      preQueryLoop node context rest f2
  end.

(** The second loop over the plugins in [execute]. *)
Fixpoint postQueryLoop (node : GQPNode) (context : PluginContext)
         (ps : list GQPPlugin) (results : list JsVal)
  : Result (list JsVal) :=
  match ps with
  | [] => Ok results
  | plugin :: rest =>
      r <- match onPostQuery plugin with
           | Some hook => hook node results context
           | None => Ok results
           end ;;
      postQueryLoop node context rest r
  end.

Definition executeWithTimeout (promise : AdapterOutcome)
  : Result (list JsVal) :=
  match promise with
  | Resolves rows => Ok rows
  | Rejects e => Err e
  | Pending => Err (createError.timeout "query")
  end.

Definition suggestNextActions (ex : t) (node : GQPNode)
           (results : list JsVal) : list string :=
  match results with
  | [] => ["Try a different query or filter"; "Navigate to a related node"]
  | _ :: _ =>
      map (fun edge =>
             String.append "Navigate to "
               (String.append (e_to edge) " to see related data"))
          (slice0 (edges node) 2)
      ++ (if Z.of_nat (length results) >=? defaultLimit (config ex)
          then ["Add filters to narrow down results"] else [])
  end.

(** [execute(nodeName, filters, options)]; [elapsed] is the difference of
    the two clock readings. *)
Definition execute (ex : t) (schema : GQPSchema.t) (nodeName : string)
           (filters : QueryFilters) (options : QueryOptions) (elapsed : Z)
  : Result QueryResult :=
  match GQPSchema.getNode schema nodeName with
  | None => Err (createError.nodeNotFound nodeName)
  | Some node =>
      match JsMap.get (adapters ex) (source node) with
      | None => Err (createError.adapterNotFound nodeName)
      | Some adapter =>
          let normalizedOptions := normalizeOptions ex options in
          let context := mkPluginContext None filters normalizedOptions in
          processedFilters <-
            preQueryLoop node context (plugins ex) filters ;;
          results <-
            executeWithTimeout
              (a_execute adapter nodeName processedFilters
                         normalizedOptions) ;;
          results <- postQueryLoop node context (plugins ex) results ;;
          let total :=
            match a_count adapter with
            | Some count =>
                match count nodeName processedFilters with
                | Ok n => Some n
                | Err _ => None
                end
            | None => None
            end in
          Ok (mkResult results total
                       (Z.of_nat (length results)
                        =? normalizedLimit ex options)
                       elapsed
                       (suggestNextActions ex node results))
      end
  end.

(** The loop over the plugins in [executeWithSearch]. *)
Fixpoint searchLoop (node : GQPNode) (context : PluginContext)
         (ps : list GQPPlugin) (enhancedFilters : QueryFilters)
  : Result QueryFilters :=
  match ps with
  | [] => Ok enhancedFilters
  | plugin :: rest =>
      f <- match onPreQuery plugin with
           | Some hook => hook node enhancedFilters context
           | None => Ok enhancedFilters
           end ;;
      searchLoop node context rest f
  end.

Definition executeWithSearch (ex : t) (schema : GQPSchema.t)
           (nodeName : string) (q : string) (filters : QueryFilters)
           (options : QueryOptions) (elapsed : Z) : Result QueryResult :=
  match GQPSchema.getNode schema nodeName with
  | None => Err (createError.nodeNotFound nodeName)
  | Some node =>
      let context := mkPluginContext (Some q) filters options in
      enhancedFilters <- searchLoop node context (plugins ex) filters ;;
      execute ex schema nodeName enhancedFilters options elapsed
  end.

End QueryExecutor.

(** ** Engine (src/core/engine.ts) *)

Record ExploreNode : Type := mkExploreNode {
  en_name : string;
  en_description : option string;
  en_operations : list string
}.

Record ExploreResult : Type := mkExplore {
  availableNodes : list ExploreNode;
  ex_totalNodes : Z
}.

Record NavigateField : Type := mkNavigateField {
  nf_name : string;
  nf_type : string;
  nf_description : option string;
  nf_capabilities : list string
}.

Record NavigateResult : Type := mkNavigate {
  nr_currentNode : string;
  nr_fields : list NavigateField;
  nr_relatedNodes : list (string * RelationType);
  nr_capabilities : list string;
  nr_path : list string
}.

Record IntrospectionResult : Type := mkIntrospection {
  ir_nodes : list GQPNode;
  ir_capabilities : list string;
  ir_version : string
}.

Inductive ToolCallResult : Type :=
| ExploreR (r : ExploreResult)
| NavigateR (r : NavigateResult)
| QueryR (r : QueryResult)
| IntrospectR (r : IntrospectionResult).

(** What one call reads from its environment: the clock at the cursor
    sweep, the random suffix and the clock used for a new cursor, and the
    measured execution time. *)
Record Env : Type := mkEnv {
  env_now : Z;
  env_suffix : string;
  env_stamp : Z;
  env_elapsed : Z
}.

Module GQP.

(** The engine once initialised. *)
Record t : Type := mk {
  schema : GQPSchema.t;
  executor : QueryExecutor.t;
  cursorManager : CursorManager.t;
  validator : Validator.t;
  security : SecurityManager.t;
  neighborhoodSize : option Z
}.

Definition withCursorManager (g : t) (m : CursorManager.t) : t :=
  mk (schema g) (executor g) m (validator g) (security g)
     (neighborhoodSize g).

Definition getNodeOperations (node : GQPNode) : list string :=
  ["query"; "filter"; "get_by_id"]
    ++ (if stringIn (capabilities node) "fuzzy_search"
        then ["semantic_search"] else [])
    ++ (if stringIn (capabilities node) "temporal_filter"
        then ["date_filter"] else []).

Definition getFieldCapabilities (field : GQPField) : list string :=
  flat_map (fun directive =>
              (if String.eqb directive "@search" then ["searchable"]
               else [])
                ++ (if String.eqb directive "@reasoning" then ["temporal"]
                    else []))
           (f_directives field).

Definition getAllCapabilities (s : GQPSchema.t) : list string :=
  fold_left (fun caps e => fold_left JsSet.add (capabilities (snd e)) caps)
            (GQPSchema.nodes s) [].

Definition exploreNodes (g : t) : ExploreResult :=
  let rootNodes :=
    filter (fun node =>
              negb (SecurityManager.isNodeHidden (security g) (name node)))
           (GQPSchema.getRootNodes (schema g)) in
  let size :=
    match neighborhoodSize g with
    | Some n => if n =? 0 then 5 else n
    | None => 5
    end in
  mkExplore
    (map (fun node => mkExploreNode (name node) (description node)
                                    (getNodeOperations node))
         (slice0 rootNodes size))
    (Z.of_nat (length rootNodes)).

Definition navigateNode (g : t) (nodeName : string)
           (cursorId : option string) (env : Env)
  : t * Result NavigateResult :=
  match GQPSchema.getNode (schema g) nodeName with
  | None => (g, Err (createError.nodeNotFound nodeName))
  | Some _ =>
      let '(m, c) :=
        CursorManager.getOrCreate (cursorManager g) (schema g) cursorId
                                  None (env_now env) (env_suffix env)
                                  (env_stamp env) in
      match GQPGraphCursor.navigateTo (schema g) c nodeName with
      | Err e => (withCursorManager g m, Err e)
      | Ok (c', neighborhood) =>
          let m' :=
            CursorManager.withCursors m
              (JsMap.set (CursorManager.cursors m)
                         (GQPGraphCursor.getId c') c') in
          match v_currentNode neighborhood with
          | None =>
              (withCursorManager g m',
               Err (createError.nodeNotFound nodeName))
          | Some current =>
              let node :=
                SecurityManager.filterHiddenFields (security g) current in
              (withCursorManager g m',
               Ok (mkNavigate
                     (name node)
                     (map (fun field =>
                             mkNavigateField
                               (f_name field) (f_type field)
                               (f_description field)
                               (getFieldCapabilities field))
                          (fields node))
                     (map (fun edge => (e_to edge, e_relation edge))
                          (edges node))
                     (capabilities node)
                     (v_path neighborhood)))
          end
      end
  end.

(** The private method [query(nodeName, query, filters, options,
    cursorId)]. *)
Definition queryNode (g : t) (nodeName : string) (q : option string)
           (filters : option QueryFilters) (options : option QueryOptions)
           (cursorId : option string) (env : Env)
  : t * Result QueryResult :=
  match GQPSchema.getNode (schema g) nodeName with
  | None => (g, Err (createError.nodeNotFound nodeName))
  | Some _ =>
      let '(m, positioned) :=
        match truthy cursorId with
        | Some cid =>
            match CursorManager.get (cursorManager g) cid (env_now env) with
            | (m, Some c) =>
                if match GQPGraphCursor.getCurrentNode c with
                   | Some cur => String.eqb cur nodeName
                   | None => false
                   end
                then (m, Ok tt)
                else
                  match GQPGraphCursor.navigateTo (schema g) c nodeName with
                  | Ok (c', _) =>
                      (CursorManager.withCursors m
                         (JsMap.set (CursorManager.cursors m) cid c'),
                       Ok tt)
                  | Err e => (m, Err e)
                  end
            | (m, None) => (m, Ok tt)
            end
        | None => (cursorManager g, Ok tt)
        end in
      match positioned with
      | Err e => (withCursorManager g m, Err e)
      | Ok _ =>
          let fs := match filters with Some f => f | None => [] end in
          let os :=
            match options with Some o => o | None => emptyOptions end in
          (withCursorManager g m,
           match truthy q with
           | Some text =>
               QueryExecutor.executeWithSearch
                 (executor g) (schema g) nodeName text fs os
                 (env_elapsed env)
           | None =>
               QueryExecutor.execute (executor g) (schema g) nodeName fs os
                                     (env_elapsed env)
           end)
      end
  end.

Definition introspectSchema (g : t) : IntrospectionResult :=
  mkIntrospection
    (map (SecurityManager.filterHiddenFields (security g))
         (filter (fun node =>
                    negb (SecurityManager.isNodeHidden (security g)
                                                       (name node)))
                 (GQPSchema.getAllNodes (schema g))))
    (getAllCapabilities (schema g))
    "1.0.0".

(** The [catch] of [handleToolCall], for what is thrown or awaited inside
    the [try]. *)
Definition rethrow {A : Type} (r : Result A) : Result A :=
  match r with
  | Ok a => Ok a
  | Err e => Err (wrapError e)
  end.

Definition handleToolCall (g : t) (params : option RawParams) (env : Env)
  : t * Result ToolCallResult :=
  match Validator.validateToolCallParams (validator g) params with
  | Err e => (g, Err (wrapError e))
  | Ok validated =>
      match (if SecurityManager.isEnabled (security g)
             then c <- SecurityManager.getContext (security g) ;;
                  Ok (Some c)
             else Ok None) with
      | Err e => (g, Err (wrapError e))
      | Ok ctx =>
          let node :=
            match tc_node validated with Some n => n | None => "" end in
          match tc_action validated with
          | explore => (g, Ok (ExploreR (exploreNodes g)))
          | navigate =>
              match SecurityManager.checkNodeAccess
                      (security g) node navigate ctx with
              | Err e => (g, Err (wrapError e))
              | Ok _ =>
                  let '(g', r) :=
                    navigateNode g node (tc_cursorId validated) env in
                  (g', rethrow (x <- r ;; Ok (NavigateR x)))
              end
          | query =>
              match (_ <- SecurityManager.checkNodeAccess
                            (security g) node query ctx ;;
                     SecurityManager.applyRLS
                       (security g) node
                       (match tc_filters validated with
                        | Some f => f
                        | None => []
                        end) ctx) with
              | Err e => (g, Err (wrapError e))
              | Ok filters =>
                  (* [return this.query(...)] hands out the promise of the
                     asynchronous [query] without awaiting it: a rejection
                     of that promise does not pass through the [catch]. *)
                  let '(g', r) :=
                    queryNode g node (tc_query validated) (Some filters)
                              (tc_options validated)
                              (tc_cursorId validated) env in
                  (g', x <- r ;; Ok (QueryR x))
              end
          | introspect =>
              match SecurityManager.checkIntrospectionAccess
                      (security g) ctx with
              | Err e => (g, Err (wrapError e))
              | Ok _ => (g, Ok (IntrospectR (introspectSchema g)))
              end
          end
      end
  end.

End GQP.

(** ** Schema graph: search and serialisation (src/core/schema.ts) *)

(** [String.prototype.toLowerCase] on a code unit below 256. *)
Definition lowerChar (c : ascii) : ascii :=
  let n := nat_of_ascii c in
  if ((65 <=? n) && (n <=? 90)
      || (192 <=? n) && (n <=? 222) && negb (n =? 215))%nat
  then ascii_of_nat (n + 32)
  else c.

Fixpoint toLowerCase (s : string) : string :=
  match s with
  | EmptyString => EmptyString
  | String c rest => String (lowerChar c) (toLowerCase rest)
  end.

Fixpoint startsWith (s prefix : string) : bool :=
  match prefix, s with
  | EmptyString, _ => true
  | String _ _, EmptyString => false
  | String p prefix', String c s' => Ascii.eqb p c && startsWith s' prefix'
  end.

(** [s.includes(needle)] *)
Fixpoint includesString (s needle : string) : bool :=
  startsWith s needle
  || match s with
     | EmptyString => false
     | String _ s' => includesString s' needle
     end.

Module SchemaQueries.

(** [nameMatch || descMatch] in [searchNodes]. *)
Definition matchesQuery (lowerQuery : string) (node : GQPNode) : bool :=
  includesString (toLowerCase (name node)) lowerQuery
  || match description node with
     | Some d => includesString (toLowerCase d) lowerQuery
     | None => false
     end.

(** The loop of [searchNodes] over [this.nodes.values()]. *)
Fixpoint searchScan (lowerQuery : string) (limit : Z) (ns : list GQPNode)
         (results : list GQPNode) : list GQPNode :=
  match ns with
  | [] => results
  | node :: rest =>
      if Z.of_nat (length results) >=? limit then results
      else if matchesQuery lowerQuery node
      then searchScan lowerQuery limit rest (results ++ [node])
      else searchScan lowerQuery limit rest results
  end.

Definition searchNodes (s : GQPSchema.t) (q : string) (limit : Z)
  : list GQPNode :=
  searchScan (toLowerCase q) limit (GQPSchema.getAllNodes s) [].

Record SchemaJSON : Type := mkJSON {
  j_nodes : list GQPNode;
  j_rootNodes : list string;
  j_capabilities : list string
}.

Definition toJSON (s : GQPSchema.t) : SchemaJSON :=
  mkJSON (GQPSchema.getAllNodes s) (GQPSchema.rootNodeNames s)
         (GQP.getAllCapabilities s).

(** [fromJSON(data)]; [new Set(data.rootNodes).has] is membership in the
    list. *)
Definition fromJSON (data : SchemaJSON) : GQPSchema.t :=
  fold_left (fun schema node =>
               GQPSchema.addNode schema node
                                 (stringIn (j_rootNodes data) (name node)))
            (j_nodes data) GQPSchema.empty.

End SchemaQueries.

(** ** Fixtures: the graph and the configuration of the test suite *)

(** User -> Order, Order -> User, Order -> Product, and an isolated node. *)
Definition userNode : GQPNode :=
  mkNode "User" (Some "User accounts") []
         [mkEdge "orders" "Order" hasMany] [] "test".
Definition orderNode : GQPNode :=
  mkNode "Order" (Some "Customer orders") []
         [mkEdge "user" "User" belongsTo; mkEdge "products" "Product" hasMany]
         [] "test".
Definition productNode : GQPNode :=
  mkNode "Product" (Some "Product catalog") [] [] [] "test".
Definition isolatedNode : GQPNode :=
  mkNode "Isolated" None [] [] [] "test".

Definition buildSchema (ns : list GQPNode) : GQPSchema.t :=
  fold_left (fun s n => GQPSchema.addNode s n true) ns GQPSchema.empty.

Definition testSchema : GQPSchema.t :=
  buildSchema [userNode; orderNode; productNode; isolatedNode].

(** A node with a relation to itself, as a self-referencing model gives. *)
Definition employeeNode : GQPNode :=
  mkNode "Employee" None [] [mkEdge "manager" "Employee" belongsTo] [] "test".

Definition selfSchema : GQPSchema.t := buildSchema [employeeNode].

(** An adapter that answers every query with [n] rows. *)
Definition rowsAdapter (n : nat) : GQPAdapter :=
  mkAdapter "test" (fun _ _ _ => Resolves (repeat JNull n)) None.

Definition testExecutor (n : nat) : QueryExecutor.t :=
  QueryExecutor.mk [("test", rowsAdapter n)] []
                   QueryExecutor.DEFAULT_CONFIG.

Definition defaultValidator : Validator.t :=
  Validator.mk Validator.DEFAULT_VALIDATION Validator.DEFAULT_LIMITS.

(** [noopSecurityManager] *)
Definition noopSecurityManager : SecurityManager.t :=
  SecurityManager.mk SecurityManager.noConfig.

(** A configuration that only lists hidden names, the way
    [schema.hiddenFields] and [schema.hiddenNodes] reach the manager. *)
Definition hidingManager : SecurityManager.t :=
  SecurityManager.mk
    (SecurityManager.mkConfig None None None None
                              (Some ["password"]) (Some ["Secret"])).

Definition limitOptions (n : Z) : QueryOptions :=
  mkOptions (Some (Finite n)) None None None.

(** * Specification vocabulary *)

(** ** Security gate *)

Section SecuritySpec.
Import SecurityManager.

(** What "no hidden names are listed" means for a configuration. *)
Definition listsNothing (l : option (list string)) : Prop :=
  l = None \/ l = Some [].

(** The statement that a disabled manager hides nothing and checks
    nothing, for one manager. *)
Definition disabledIsNoop (m : t) : Prop :=
  isEnabled m = false ->
  (forall node action ctx, checkNodeAccess m node action ctx = Ok tt)
  /\ (forall ctx, checkIntrospectionAccess m ctx = Ok tt)
  /\ (forall node filters ctx, applyRLS m node filters ctx = Ok filters)
  /\ (forall n, isNodeHidden m n = false)
  /\ (forall f, isFieldHidden m f = false)
  /\ (forall node, filterHiddenFields m node = node).

End SecuritySpec.

(** ** Query executor *)

Section ExecutorSpec.
Import QueryExecutor.

Definition addFilters : string := "Add filters to narrow down results".

Definition navigateHint (edge : GQPEdge) : string :=
  String.append "Navigate to "
                (String.append (e_to edge) " to see related data").

(** The statement of C8 for one successful call. *)
Definition suggestsFiltersAtLimit (ex : t) (options : QueryOptions)
           (r : QueryResult) : Prop :=
  In addFilters (nextActions r)
  <-> Z.of_nat (length (data r)) = normalizedLimit ex options.

(** No [onPostQuery] hook of the plugins changes the number of results it
    is given. *)
Definition postHooksKeepLength (node : GQPNode) (context : PluginContext)
           (ps : list GQPPlugin) : Prop :=
  forall p hook results results',
    In p ps -> onPostQuery p = Some hook ->
    hook node results context = Ok results' ->
    length results' = length results.

(** A plugin whose [onPostQuery] hook rewrites every row and keeps their
    number. *)
Definition stampingPlugin : GQPPlugin :=
  mkPlugin "stamp" None
           (Some (fun _ results _ => Ok (map (fun _ => JBool true) results)))
           None.

(** The executor of the tests with that plugin, over an adapter that
    answers with [n] rows. *)
Definition stampingExecutor (n : nat) : t :=
  mk [("test", rowsAdapter n)] [stampingPlugin] DEFAULT_CONFIG.

End ExecutorSpec.

(** ** Cursor *)

Section CursorSpec.
Import GQPGraphCursor.

(** The two halves of the cursor invariant of the data model. *)
Definition depthInvariant (c : t) : Prop :=
  match currentNode (cursor c) with
  | Some _ => depth (cursor c) = Z.of_nat (length (path (cursor c))) - 1
  | None => depth (cursor c) = -1
  end.

Definition exploredInvariant (c : t) : Prop :=
  exploredNodes (cursor c) = distinctCount (path (cursor c)).

(** The states a cursor over [schema] built with window [maxLen] can be
    in. *)
Inductive reachable (schema : GQPSchema.t) (maxLen : Z) : t -> Prop :=
| reach_new start suffix now :
    reachable schema maxLen (new schema start maxLen suffix now)
| reach_navigateTo c nodeName c' view :
    reachable schema maxLen c ->
    navigateTo schema c nodeName = Ok (c', view) ->
    reachable schema maxLen c'
| reach_goBack c :
    reachable schema maxLen c ->
    reachable schema maxLen (fst (goBack schema c))
| reach_reset c :
    reachable schema maxLen c ->
    reachable schema maxLen (reset c).

Definition run2 (schema : GQPSchema.t) (c : t) (a b : string) : t :=
  match navigateTo schema c a with
  | Ok (c1, _) =>
      match navigateTo schema c1 b with
      | Ok (c2, _) => c2
      | Err _ => c1
      end
  | Err _ => c
  end.

End CursorSpec.

(** ** Cursor pool *)

Section PoolSpec.
Import CursorManager.

(** The statement of C10 for one start node. *)
Definition createPositionsAt (m : t) (schema : GQPSchema.t) (s : string)
  : Prop :=
  forall now suffix stamp,
    let c := GQPGraphCursor.cursor
               (snd (create m schema (Some s) now suffix stamp)) in
    currentNode c = Some s /\ path c = [s] /\ depth c = 0.

(** A pool as the JS [Map] holds it: one entry per id, no empty id. *)
Definition wfPool (m : t) : Prop :=
  NoDup (JsMap.keys (cursors m)) /\ ~ In "" (JsMap.keys (cursors m)).

Definition expiredAt (m : t) (now : Z) (e : string * GQPGraphCursor.t)
  : bool :=
  now - GQPGraphCursor.getCreatedAt (snd e) >? cursorTTL m.

Definition live (m : t) (now : Z) : JsMap.t GQPGraphCursor.t :=
  filter (fun e => negb (expiredAt m now e)) (cursors m).

(** The statement of C6 on the size of the pool, for one pool. *)
Definition createKeepsBound (m : t) (schema : GQPSchema.t) : Prop :=
  forall start now suffix stamp,
    size (fst (create m schema start now suffix stamp)) <= maxCursors m.

Definition poolOfThree : t :=
  fst (create
         (fst (create
                 (fst (create (new 3 1800000 100) testSchema None 1 "a" 1))
                 testSchema None 2 "b" 2))
         testSchema None 3 "c" 3).

(** The pools that [create], [get], [delete] and [clear] produce from a
    new manager of capacity [cap], the cursors in them being moved at
    will through the references handed out. *)
Inductive poolReachable (schema : GQPSchema.t) (cap ttl len : Z)
  : t -> Prop :=
| pool_new : poolReachable schema cap ttl len (new cap ttl len)
| pool_create m start now suffix stamp :
    poolReachable schema cap ttl len m ->
    poolReachable schema cap ttl len
                  (fst (create m schema start now suffix stamp))
| pool_get m cid now :
    poolReachable schema cap ttl len m ->
    poolReachable schema cap ttl len (fst (get m cid now))
| pool_delete m cid :
    poolReachable schema cap ttl len m ->
    poolReachable schema cap ttl len (fst (delete m cid))
| pool_clear m :
    poolReachable schema cap ttl len m ->
    poolReachable schema cap ttl len (clear m)
| pool_moved m cid c c' :
    poolReachable schema cap ttl len m ->
    JsMap.get (cursors m) cid = Some c ->
    poolReachable schema cap ttl len
                  (withCursors m (JsMap.set (cursors m) cid c')).

End PoolSpec.

(** ** Validator *)

Section ValidatorSpec.
Import Validator.

(** Number of object levels of a value; arrays count, being objects. *)
Fixpoint objectLevels (x : JsVal) : nat :=
  match x with
  | JObj props =>
      S ((fix deepest (ps : list (string * JsVal)) : nat :=
            match ps with
            | [] => O
            | (_, y) :: rest => Nat.max (objectLevels y) (deepest rest)
            end) props)
  | JArr items =>
      S ((fix deepest (ys : list JsVal) : nat :=
            match ys with
            | [] => O
            | y :: rest => Nat.max (objectLevels y) (deepest rest)
            end) items)
  | _ => O
  end.

(** Nesting depth of a filters value: a flat object has depth 0. *)
Definition nestingDepth (filters : JsVal) : Z :=
  Z.of_nat (objectLevels filters) - 1.

(** [{a: {b: {c: {d: {e: {f: {g: {h: 1}}}}}}}}] *)
Definition deepFilters : JsVal :=
  JObj [("a", JObj [("b", JObj [("c", JObj [("d", JObj [("e",
    JObj [("f", JObj [("g", JObj [("h", JNum 1)])])])])])])])].

Definition deepParams : RawParams :=
  mkRaw (JStr "query") (JStr "User") JUndefined deepFilters None JUndefined.

(** [{a: {AND: x}}] *)
Definition underAnd (x : JsVal) : JsVal := JObj [("a", JObj [("AND", x)])].

Definition andChain : JsVal :=
  underAnd (underAnd (underAnd (underAnd (underAnd (underAnd
    (JObj [("h", JNum 1)])))))).

Definition isDepthError {A : Type} (r : Result A) : bool :=
  match r with
  | Err (GQPError VALIDATION_ERROR _ (ExceedsMaximumDepth _)) => true
  | _ => false
  end.

(** [value.map((x) => this.validateFilters(x, d))], the third way
    [validateNestedFilter] descends into a value. *)
Definition eachFilters (v : t) (value : JsVal) (d : Z)
  : Result (list JsVal) :=
  match value with
  | JArr items =>
      (fix mapEach (xs : list JsVal) : Result (list JsVal) :=
         match xs with
         | [] => Ok []
         | x :: rest =>
             r <- validateFilters v x d ;;
             rs <- mapEach rest ;;
             Ok (JObj r :: rs)
         end) items
  | _ => Ok []
  end.

(** A value met at recursion count [d] whose object levels stay within
    the configured maximum depth. *)
Definition withinBound (v : t) (x : JsVal) (d : Z) : Prop :=
  d + Z.of_nat (objectLevels x) <= maxFilterDepth (config v) + 1.

Definition noDepthErrorAt (v : t) (x : JsVal) : Prop :=
  forall d, withinBound v x d ->
    isDepthError (validateFilters v x d) = false
    /\ (forall pk, isDepthError (validateNestedFilter v pk x d) = false)
    /\ isDepthError (eachFilters v x d) = false.

End ValidatorSpec.

(** ** Engine *)

Section EngineSpec.
Import GQP.

(** The same raw parameters without [cursorId]. *)
Definition dropCursorId (p : RawParams) : RawParams :=
  mkRaw (p_action p) (p_node p) (p_query p) (p_filters p) (p_options p)
        JUndefined.

Definition setCursorId (v : ToolCallParams) (cid : option string)
  : ToolCallParams :=
  mkParams (tc_action v) (tc_node v) (tc_query v) (tc_filters v)
           (tc_options v) cid.

(** The pool after a "query" call that names a live cursor [c]. *)
Definition repositioned (schema : GQPSchema.t) (m : CursorManager.t)
           (cid : string) (c : GQPGraphCursor.t) (nodeName : string)
  : JsMap.t GQPGraphCursor.t :=
  match GQPGraphCursor.getCurrentNode c with
  | Some cur =>
      if String.eqb cur nodeName then CursorManager.cursors m
      else match GQPGraphCursor.navigateTo schema c nodeName with
           | Ok (c', _) => JsMap.set (CursorManager.cursors m) cid c'
           | Err _ => CursorManager.cursors m
           end
  | None =>
      match GQPGraphCursor.navigateTo schema c nodeName with
      | Ok (c', _) => JsMap.set (CursorManager.cursors m) cid c'
      | Err _ => CursorManager.cursors m
      end
  end.

Definition testEngine : t :=
  mk testSchema (testExecutor 3) (CursorManager.new 100 1800000 100)
     defaultValidator noopSecurityManager None.

Definition staleQuery : RawParams :=
  mkRaw (JStr "query") (JStr "User") JUndefined JUndefined None
        (JStr "cursor_gone").

End EngineSpec.

(** ** Schema graph: neighbours *)

Section NeighborSpec.
Import GQPSchema.

(** A schema as the JS maps hold it: a node is stored under its name, the
    edge index has one entry per source, a target set has no repetition. *)
Definition wfSchema (s : t) : Prop :=
  (forall k x, JsMap.get (nodes s) k = Some x -> name x = k)
  /\ NoDup (JsMap.keys (edgeIndex s))
  /\ (forall k ts, In (k, ts) (edgeIndex s) -> NoDup ts).

(** The schemas that [addNode] and [clear] produce. *)
Inductive schemaReachable : t -> Prop :=
| schema_new : schemaReachable empty
| schema_addNode s node isRoot :
    schemaReachable s -> schemaReachable (addNode s node isRoot)
| schema_clear s : schemaReachable s -> schemaReachable (clear s).

(** The edges of the index are the edges of every node ever added under
    the source name. *)
Definition declaredEdge (ns : list GQPNode) (x y : string) : Prop :=
  exists node e,
    In node ns /\ name node = x /\ In e (edges node) /\ e_to e = y.

(** The targets recorded for a source in an edge index. *)
Definition targetsIn (idx : JsMap.t JsSet.t) (x : string) : JsSet.t :=
  match JsMap.get idx x with
  | Some ts => ts
  | None => []
  end.

(** The registered node of a name, if any. *)
Definition lookupNode (s : t) (k : string) : list GQPNode :=
  match JsMap.get (nodes s) k with
  | Some x => [x]
  | None => []
  end.

(** The targets of the outgoing edges of [n] that are registered, in
    insertion order. *)
Definition forwardNeighbors (s : t) (n : string) : list GQPNode :=
  flat_map (lookupNode s) (targetsOf s n).

(** A registered node other than [n] with an edge to [n]. *)
Definition isReverseNeighbor (s : t) (n : string) (x : GQPNode) : Prop :=
  getNode s (name x) = Some x
  /\ In n (targetsOf s (name x))
  /\ name x <> n.

(** The second loop of [getNeighbors] without its [break]. *)
Fixpoint reverseAll (s : t) (nodeName : string)
         (entries : list (string * JsSet.t)) (acc : list GQPNode)
  : list GQPNode :=
  match entries with
  | [] => acc
  | (src, targets) :: rest =>
      if JsSet.has targets nodeName && negb (String.eqb src nodeName)
      then match JsMap.get (nodes s) src with
           | Some x =>
               if negb (includes acc x)
               then reverseAll s nodeName rest (acc ++ [x])
               else reverseAll s nodeName rest acc
           | None => reverseAll s nodeName rest acc
           end
      else reverseAll s nodeName rest acc
  end.

(** The statement of C5 on the node itself, for one call. *)
Definition neighborsExcludeSelf (s : t) (n : string) (limit : Z) : Prop :=
  ~ In n (map name (getNeighbors s n limit)).

End NeighborSpec.

(** ** Schema graph: shortest paths *)

Section FindPathSpec.
Import GQPSchema.

(** An edge of the adjacency index. *)
Definition edge (s : t) (x y : string) : Prop := In y (targetsOf s x).

(** [walk s from x p]: [p] lists the nodes of a directed path from [from]
    to [x] along edges of the adjacency index. *)
Inductive walk (s : t) (from : string) : string -> list string -> Prop :=
| walk_start : walk s from from [from]
| walk_step x y p :
    walk s from x p -> edge s x y -> walk s from y (p ++ [y]).

Definition hops (p : list string) : Z := Z.of_nat (length p) - 1.

(** [to] can be reached from [from] in at most [maxDepth] hops. *)
Definition reachableWithin (s : t) (from to : string) (maxDepth : Z)
  : Prop :=
  exists p, walk s from to p /\ hops p <= maxDepth.

(** Number of index entries whose source is not yet expanded. *)
Definition weightOf (idx : JsMap.t JsSet.t) (visited : JsSet.t) : nat :=
  fold_right (fun e acc =>
                ((if JsSet.has visited (fst e) then O else length (snd e))
                 + acc)%nat) O idx.

Definition plen (e : QueueEntry) : nat := length (q_path e).

(** Queue order: lengths never decrease and differ by at most one. *)
Definition stepUp (a b : QueueEntry) : Prop :=
  (plen a <= plen b <= S (plen a))%nat.

Definition late (maxDepth : Z) (queue : list QueueEntry) : Prop :=
  Forall (fun e => Z.of_nat (plen e) > maxDepth) queue.

(** [cover s from queue x p]: [p] is a path to [x] a prefix of which is
    waiting in the queue with a path at most as long. *)
Inductive cover (s : t) (from : string) (queue : list QueueEntry)
  : string -> list string -> Prop :=
| cover_here x p e :
    walk s from x p -> In e queue -> q_node e = x ->
    (plen e <= length p)%nat -> cover s from queue x p
| cover_later x y p :
    cover s from queue x p -> edge s x y -> cover s from queue y (p ++ [y]).

(** The invariant of the loop of [findPath]. *)
Record inv (s : t) (from to : string) (maxDepth : Z)
       (queue : list QueueEntry) (visited : JsSet.t) : Prop := mkInv {
  inv_walks : Forall (fun e => walk s from (q_node e) (q_path e)) queue;
  inv_sorted : StronglySorted stepUp queue;
  inv_noTarget : forall u, In u visited -> ~ edge s u to;
  inv_frontier :
    forall u y, In u visited -> edge s u y ->
                In y visited
                \/ (exists e, In e queue /\ q_node e = y)
                \/ late maxDepth queue;
  inv_cover :
    forall x p, walk s from x p -> Z.of_nat (length p) <= maxDepth ->
                In x visited \/ cover s from queue x p
}.

(** What the loop establishes when it ends. *)
Definition outcomeOk (s : t) (from to : string) (maxDepth : Z)
           (r : option (list string)) : Prop :=
  match r with
  | Some p =>
      walk s from to p
      /\ hops p <= maxDepth
      /\ forall p', walk s from to p' -> (length p <= length p')%nat
  | None => forall p', walk s from to p' -> maxDepth < hops p'
  end.

End FindPathSpec.

(** ** Schema graph: registry *)

Section SchemaSpec.
Import GQPSchema.

(** A schema whose node map has one entry per name and whose root names
    are all registered. *)
Definition rootsRegistered (s : t) : Prop :=
  NoDup (JsMap.keys (nodes s))
  /\ forall r, In r (rootNodeNames s) -> In r (JsMap.keys (nodes s)).

(** An edge declared by the node currently registered under [x]. *)
Definition currentEdge (s : t) (x y : string) : Prop :=
  exists node e,
    getNode s x = Some node /\ In e (edges node) /\ e_to e = y.

End SchemaSpec.

(** ** Cursor: path *)

Section CursorPathSpec.
Import GQPGraphCursor.

(** The last entry of a path, as [path[path.length - 1] || null] reads
    it. *)
Definition lastVisited (p : list string) : option string :=
  truthy (last (map Some p) None).

End CursorPathSpec.

(** ** Cursor pool: identifiers *)

Section PoolKeySpec.
Import CursorManager.

(** A pool in which every cursor is stored under its own identifier. *)
Definition idKeyed (m : t) : Prop :=
  forall k c, JsMap.get (cursors m) k = Some c -> GQPGraphCursor.getId c = k.

End PoolKeySpec.

(** ** Validator: filter keys *)

Section FilterLoopSpec.
Import Validator.

(** The loop of [validateFilters] over the entries of the filter object. *)
Definition filtersLoop (v : t) (depth : Z)
  : list (string * JsVal) -> QueryFilters -> Result QueryFilters :=
  fix loop (entries : list (string * JsVal)) (validated : QueryFilters)
      {struct entries} : Result QueryFilters :=
    match entries with
    | [] => Ok validated
    | (key, value) :: rest =>
        r <- filterStep v key value
               (validateNestedFilter v key value depth) validated ;;
        loop rest r
    end.

(** A key that the loop of [validateFilters] does not skip. *)
Definition keyAccepted (v : t) (key : string) : bool :=
  negb (strictNodeNames (config v) && negb (isIdentifier key)
        && negb (isLogical key)).

(** Every array stored at the top level of a filter object is within the
    configured length. *)
Definition arraysWithin (v : t) (fs : QueryFilters) : Prop :=
  forall k items,
    In (k, JArr items) fs ->
    Z.of_nat (length items) <= maxArrayInFilter (config v).

End FilterLoopSpec.

(** ** Security gate: patterns *)

Section PatternSpec.

(** Two strings equal up to the case folding of the [i] flag. *)
Fixpoint sameFold (a b : string) : bool :=
  match a, b with
  | EmptyString, EmptyString => true
  | String c a', String d b' =>
      Nat.eqb (foldCase c) (foldCase d) && sameFold a' b'
  | _, _ => false
  end.

End PatternSpec.

(** ** Security gate: access rules *)

Section AccessSpec.
Import SecurityManager.

(** [context.roles || []] *)
Definition userRoles (ctx : SecurityContext) : list string :=
  match roles ctx with Some l => l | None => [] end.

(** What a rule asks of a call: one of its roles when it lists any, the
    action among its actions when it lists any, and its custom check. *)
Definition permits (rule : NodeAccessRule) (action : GQPAction)
           (ctx : SecurityContext) : Prop :=
  (forall r rs, r_roles rule = Some (r :: rs) ->
                exists role, In role (r :: rs) /\ In role (userRoles ctx))
  /\ (forall a acts, r_actions rule = Some (a :: acts) ->
                     In action (a :: acts))
  /\ (forall check, r_check rule = Some check -> check ctx = Ok true).

End AccessSpec.

(** ** Query executor: a plugin and an adapter to run it against *)

Section ExecutorFixtures.

(** A plugin whose [onPreQuery] hook wraps the filters it is given. *)
Definition wrappingPlugin : GQPPlugin :=
  mkPlugin "wrap"
           (Some (fun _ filters _ => Ok [("AND", JArr [JObj filters])]))
           None None.

(** An adapter that answers with the filters it was called with. *)
Definition echoAdapter : GQPAdapter :=
  mkAdapter "test" (fun _ filters _ => Resolves [JObj filters]) None.

Definition echoExecutor : QueryExecutor.t :=
  QueryExecutor.mk [("test", echoAdapter)] [wrappingPlugin]
                   QueryExecutor.DEFAULT_CONFIG.

End ExecutorFixtures.

(** ** Engine: hidden nodes, and an adapter that rejects *)

Section HiddenNodeSpec.
Import GQP.

(** The same engine with another list of hidden nodes. *)
Definition withHiddenNodes (g : t) (l : option (list string)) : t :=
  let c := SecurityManager.config (security g) in
  mk (schema g) (executor g) (cursorManager g) (validator g)
     (SecurityManager.mk
        (SecurityManager.mkConfig
           (SecurityManager.context c) (SecurityManager.nodeAccess c)
           (SecurityManager.rowLevelSecurity c)
           (SecurityManager.introspection c)
           (SecurityManager.hiddenFields c) l))
     (neighborhoodSize g).

(** An engine whose adapter rejects every query with an error that is not
    a [GQPError]. *)
Definition rejectingEngine : t :=
  mk testSchema
     (QueryExecutor.mk
        [("test",
          mkAdapter "test" (fun _ _ _ => Rejects (Foreign "boom")) None)]
        [] QueryExecutor.DEFAULT_CONFIG)
     (CursorManager.new 100 1800000 100)
     defaultValidator noopSecurityManager None.

Definition secretNode : GQPNode :=
  mkNode "Secret" None [mkField "password" "String" false false None []]
         [] [] "test".

(** An engine whose schema has a node that the configuration hides. *)
Definition secretEngine : t :=
  mk (buildSchema [userNode; secretNode]) (testExecutor 3)
     (CursorManager.new 100 1800000 100)
     defaultValidator hidingManager None.

End HiddenNodeSpec.

(** * Properties *)

(** ** Maps and sets *)

Section JsMapFacts.
Context {V : Type}.
Implicit Types (m : JsMap.t V) (k : string) (v : V).

Lemma get_set_same m k v : JsMap.get (JsMap.set m k v) k = Some v.
Proof.
  induction m as [|[k' v'] m IH]; simpl.
  - now rewrite String.eqb_refl.
  - destruct (String.eqb k' k) eqn:E; simpl.
    + now rewrite String.eqb_refl.
    + now rewrite E.
Qed.

Lemma get_set_other m k k' v :
  k' <> k -> JsMap.get (JsMap.set m k v) k' = JsMap.get m k'.
Proof.
  intros Hne. induction m as [|[k0 v0] m IH]; simpl.
  - destruct (String.eqb_spec k k'); congruence.
  - destruct (String.eqb_spec k0 k) as [->|Hk]; simpl.
    + destruct (String.eqb_spec k k'); congruence.
    + destruct (String.eqb_spec k0 k'); congruence.
Qed.

Lemma keys_set m k v :
  JsMap.keys (JsMap.set m k v)
  = if JsMap.has m k then JsMap.keys m else JsMap.keys m ++ [k].
Proof.
  unfold JsMap.has, JsMap.keys.
  induction m as [|[k' v'] m IH]; simpl; [reflexivity|].
  destruct (String.eqb_spec k' k) as [->|Hk]; simpl; [reflexivity|].
  rewrite IH. now destruct (JsMap.get m k).
Qed.

Lemma get_In m k v : JsMap.get m k = Some v -> In (k, v) m.
Proof.
  induction m as [|[k' v'] m IH]; simpl; [discriminate|].
  destruct (String.eqb_spec k' k) as [->|Hk].
  - intros [= ->]. now left.
  - intros H. right. auto.
Qed.

Lemma get_None_keys m k : JsMap.get m k = None <-> ~ In k (JsMap.keys m).
Proof.
  unfold JsMap.keys.
  induction m as [|[k' v'] m IH]; simpl; [tauto|].
  destruct (String.eqb_spec k' k) as [->|Hk].
  - split; [discriminate | tauto].
  - rewrite IH. tauto.
Qed.

Lemma In_get_NoDup m k v :
  NoDup (JsMap.keys m) -> In (k, v) m -> JsMap.get m k = Some v.
Proof.
  unfold JsMap.keys.
  induction m as [|[k' v'] m IH]; simpl; [tauto|].
  intros Hnd [Heq|Hin]; inversion Hnd as [|? ? Hnotin Hnd']; subst.
  - injection Heq as -> ->. now rewrite String.eqb_refl.
  - destruct (String.eqb_spec k' k) as [->|Hk]; [|auto].
    exfalso. apply Hnotin. now apply (in_map fst) in Hin.
Qed.

Lemma NoDup_keys_set m k v :
  NoDup (JsMap.keys m) -> NoDup (JsMap.keys (JsMap.set m k v)).
Proof.
  intros Hnd. rewrite keys_set. unfold JsMap.has.
  destruct (JsMap.get m k) eqn:E; [assumption|].
  apply get_None_keys in E.
  apply NoDup_app; [assumption | repeat constructor; simpl; tauto |].
  intros x Hx [<-|[]]. contradiction.
Qed.

Lemma delete_incl m k : incl (JsMap.delete m k) m.
Proof. intros e He. apply filter_In in He. tauto. Qed.

Lemma get_delete_same m k : JsMap.get (JsMap.delete m k) k = None.
Proof.
  induction m as [|[k' v'] m IH]; simpl; [reflexivity|].
  destruct (String.eqb_spec k' k) as [->|Hk]; simpl; [assumption|].
  destruct (String.eqb_spec k' k); congruence.
Qed.

Lemma NoDup_keys_delete m k :
  NoDup (JsMap.keys m) -> NoDup (JsMap.keys (JsMap.delete m k)).
Proof.
  unfold JsMap.keys, JsMap.delete.
  induction m as [|[k' v'] m IH]; simpl; [auto|].
  intros Hnd. inversion Hnd as [|? ? Hnotin Hnd']; subst.
  destruct (String.eqb k' k); simpl; [auto|].
  constructor; [|auto].
  intros Hin. apply Hnotin. apply in_map_iff in Hin as [e [He Hin]].
  apply filter_In in Hin as [Hin _]. rewrite <- He. now apply in_map.
Qed.

Lemma length_delete_present m k v :
  NoDup (JsMap.keys m) -> In (k, v) m ->
  S (length (JsMap.delete m k)) = length m.
Proof.
  unfold JsMap.keys, JsMap.delete.
  induction m as [|[k' v'] m IH]; simpl; [tauto|].
  intros Hnd Hin. inversion Hnd as [|? ? Hnotin Hnd']; subst.
  destruct (String.eqb_spec k' k) as [->|Hk]; simpl.
  - f_equal. clear IH Hin Hnd Hnd'. induction m as [|[k0 v0] m IH]; simpl.
    + reflexivity.
    + simpl in Hnotin.
      destruct (String.eqb_spec k0 k) as [->|]; [tauto|].
      simpl. f_equal. apply IH. tauto.
  - f_equal. destruct Hin as [Heq|Hin]; [congruence|]. now apply IH.
Qed.

Lemma length_set_le m k v :
  (length (JsMap.set m k v) <= S (length m))%nat.
Proof.
  induction m as [|[k' v'] m IH]; simpl; [lia|].
  destruct (String.eqb k' k); simpl; lia.
Qed.
End JsMapFacts.

Lemma JsSet_has_In (s : JsSet.t) (x : string) :
  JsSet.has s x = true <-> In x s.
Proof.
  unfold JsSet.has. rewrite existsb_exists. split.
  - intros [y [Hy Heq]]. apply String.eqb_eq in Heq. now subst.
  - intros H. exists x. split; [assumption | apply String.eqb_refl].
Qed.

Lemma JsSet_has_false (s : JsSet.t) (x : string) :
  JsSet.has s x = false <-> ~ In x s.
Proof.
  rewrite <- JsSet_has_In. destruct (JsSet.has s x); split; congruence.
Qed.

Lemma stringIn_In (xs : list string) (x : string) :
  stringIn xs x = true <-> In x xs.
Proof. apply JsSet_has_In. Qed.

Lemma JsSet_add_NoDup (s : JsSet.t) (x : string) :
  NoDup s -> NoDup (JsSet.add s x).
Proof.
  intros Hnd. unfold JsSet.add. destruct (JsSet.has s x) eqn:E; [assumption|].
  apply JsSet_has_false in E.
  apply NoDup_app; [assumption | repeat constructor; simpl; tauto |].
  intros y Hy [<-|[]]. contradiction.
Qed.

(** ** Security gate *)

Section SecurityFacts.
Import SecurityManager.

Lemma isEnabled_false_inv (m : t) :
  isEnabled m = false ->
  context (config m) = None /\ nodeAccess (config m) = None
  /\ rowLevelSecurity (config m) = None /\ introspection (config m) = None.
Proof.
  unfold isEnabled.
  destruct (context (config m)), (nodeAccess (config m)),
    (rowLevelSecurity (config m)), (introspection (config m));
    simpl; intros H; try discriminate; auto.
Qed.

Lemma disabled_checks_pass (m : t) :
  isEnabled m = false ->
  (forall node action ctx, checkNodeAccess m node action ctx = Ok tt)
  /\ (forall ctx, checkIntrospectionAccess m ctx = Ok tt)
  /\ (forall node filters ctx, applyRLS m node filters ctx = Ok filters).
Proof.
  intros H. apply isEnabled_false_inv in H as (Hc & Hn & Hr & Hi).
  repeat split.
  - intros node action ctx.
    unfold checkNodeAccess, contextOr, getContext. rewrite Hc, Hn.
    now destruct ctx.
  - intros ctx. unfold checkIntrospectionAccess. now rewrite Hi.
  - intros node filters ctx.
    unfold applyRLS, getRLSFilters, contextOr, getContext. rewrite Hc, Hr.
    now destruct ctx.
Qed.

(** C4, as stated, fails: a manager configured with hidden names only is
    not enabled, yet it hides the node "Secret" and the field
    "password". *)
Lemma hiding_manager_not_noop : ~ disabledIsNoop hidingManager.
Proof.
  intros H. destruct (H eq_refl) as (_ & _ & _ & Hnode & _).
  specialize (Hnode "Secret"). discriminate.
Qed.

(** C4 (amended): [isEnabled] is true exactly when one of the context
    provider, the node-access rules, the row-level-security rules or the
    introspection policy is configured; when it is false,
    [checkNodeAccess] and [checkIntrospectionAccess] never throw and
    [applyRLS] returns the caller's filters unchanged.  The hidden-name
    checks do not depend on [isEnabled]: [isNodeHidden] reports nothing
    hidden when no hidden node is listed, and [isFieldHidden] reports
    nothing hidden, with [filterHiddenFields] returning the node
    unchanged, when no hidden field is listed. *)
Theorem security_gate_open_when_disabled (m : t) :
  (isEnabled m = true <->
     context (config m) <> None \/ nodeAccess (config m) <> None
     \/ rowLevelSecurity (config m) <> None
     \/ introspection (config m) <> None)
  /\ (isEnabled m = false ->
      (forall node action ctx, checkNodeAccess m node action ctx = Ok tt)
      /\ (forall ctx, checkIntrospectionAccess m ctx = Ok tt)
      /\ (forall node filters ctx,
             applyRLS m node filters ctx = Ok filters))
  /\ (listsNothing (hiddenNodes (config m)) ->
      forall n, isNodeHidden m n = false)
  /\ (listsNothing (hiddenFields (config m)) ->
      (forall f, isFieldHidden m f = false)
      /\ (forall node, filterHiddenFields m node = node)).
Proof.
  split; [|split; [apply disabled_checks_pass|split]].
  - unfold isEnabled.
    destruct (context (config m)), (nodeAccess (config m)),
      (rowLevelSecurity (config m)), (introspection (config m));
      simpl; split; intros H; try reflexivity; try discriminate;
      try (left; discriminate);
      try (right; left; discriminate);
      try (right; right; left; discriminate);
      try (right; right; right; discriminate).
    destruct H as [H|[H|[H|H]]]; congruence.
  - intros [H|H] n; unfold isNodeHidden; now rewrite H.
  - intros [H|H]; split; intros x;
      unfold isFieldHidden, filterHiddenFields; now rewrite H.
Qed.

Lemma security_gate_open_when_disabled_witness :
  isEnabled noopSecurityManager = false
  /\ checkNodeAccess noopSecurityManager "User" query None = Ok tt
  /\ isNodeHidden noopSecurityManager "Secret" = false
  /\ filterHiddenFields noopSecurityManager userNode = userNode.
Proof.
  destruct (security_gate_open_when_disabled noopSecurityManager)
    as (_ & Hchecks & Hnodes & Hfields).
  split; [reflexivity|].
  split; [apply Hchecks; reflexivity|].
  split; [apply Hnodes; left; reflexivity|].
  apply Hfields. left; reflexivity.
Defined.
End SecurityFacts.

(** ** Query executor *)

Section ExecutorFacts.
Import QueryExecutor.

Lemma execute_inv ex schema nodeName filters options elapsed r :
  execute ex schema nodeName filters options elapsed = Ok r ->
  exists node adapter processed rows,
    GQPSchema.getNode schema nodeName = Some node
    /\ JsMap.get (adapters ex) (source node) = Some adapter
    /\ preQueryLoop node
         (mkPluginContext None filters (normalizeOptions ex options))
         (plugins ex) filters = Ok processed
    /\ a_execute adapter nodeName processed (normalizeOptions ex options)
       = Resolves rows
    /\ postQueryLoop node
         (mkPluginContext None filters (normalizeOptions ex options))
         (plugins ex) rows = Ok (data r)
    /\ hasMore r
       = (Z.of_nat (length (data r)) =? normalizedLimit ex options)
    /\ nextActions r = suggestNextActions ex node (data r).
Proof.
  unfold execute.
  destruct (GQPSchema.getNode schema nodeName) as [node|]; [|discriminate].
  destruct (JsMap.get (adapters ex) (source node)) as [adapter|] eqn:Had;
    [|discriminate].
  destruct (preQueryLoop _ _ _ _) as [processed|] eqn:Hpre;
    [|discriminate].
  simpl.
  destruct (a_execute adapter nodeName processed _) as [rows| |] eqn:Hex;
    try discriminate.
  simpl.
  destruct (postQueryLoop _ _ _ rows) as [results|] eqn:Hpost;
    [|discriminate].
  simpl. intros [= <-]. simpl.
  exists node, adapter, processed, rows. repeat split; assumption.
Qed.

Lemma postQueryLoop_length node context ps rows out :
  postHooksKeepLength node context ps ->
  postQueryLoop node context ps rows = Ok out ->
  length out = length rows.
Proof.
  revert rows. induction ps as [|p ps IH]; intros rows Hkeep.
  - now intros [= <-].
  - cbn [postQueryLoop].
    destruct (onPostQuery p) as [hook|] eqn:Hhook.
    + destruct (hook node rows context) as [r|e] eqn:Hrun; [|discriminate].
      cbn [bind]. intros Hrest.
      rewrite (IH r) by
        (try assumption; intros q h rs rs' Hq; apply Hkeep; now right).
      apply (Hkeep p hook rows r); [now left|assumption|assumption].
    + cbn [bind]. apply IH. intros q h rs rs' Hq. apply Hkeep. now right.
Qed.

(** C7: when the adapter of the node resolves with [rows] and no
    post-query hook changes the number of results, [execute] returns a
    result with as many rows, whose [meta.hasMore] is true exactly when
    that number equals the normalized limit, and false when it is
    smaller. *)
Theorem hasMore_iff_page_full
        ex schema nodeName filters options elapsed
        node adapter processed rows out :
  GQPSchema.getNode schema nodeName = Some node ->
  JsMap.get (adapters ex) (source node) = Some adapter ->
  preQueryLoop node
    (mkPluginContext None filters (normalizeOptions ex options))
    (plugins ex) filters = Ok processed ->
  a_execute adapter nodeName processed (normalizeOptions ex options)
  = Resolves rows ->
  postQueryLoop node
    (mkPluginContext None filters (normalizeOptions ex options))
    (plugins ex) rows = Ok out ->
  postHooksKeepLength
    node (mkPluginContext None filters (normalizeOptions ex options))
    (plugins ex) ->
  exists r,
    execute ex schema nodeName filters options elapsed = Ok r
    /\ data r = out
    /\ length (data r) = length rows
    /\ limit (normalizeOptions ex options)
       = Some (Finite (normalizedLimit ex options))
    /\ (hasMore r = true <->
        Z.of_nat (length rows) = normalizedLimit ex options)
    /\ (Z.of_nat (length rows) < normalizedLimit ex options ->
        hasMore r = false).
Proof.
  intros Hnode Hadapter Hpre Hrun Hpost Hkeep.
  pose proof (postQueryLoop_length _ _ _ _ _ Hkeep Hpost) as Hlen.
  unfold execute. rewrite Hnode, Hadapter, Hpre. cbn [bind].
  rewrite Hrun. cbn [executeWithTimeout bind]. rewrite Hpost. cbn [bind].
  eexists. split; [reflexivity|]. cbn [data hasMore]. rewrite Hlen.
  split; [reflexivity|]. split; [reflexivity|]. split; [reflexivity|].
  split.
  - apply Z.eqb_eq.
  - intros Hlt. apply Z.eqb_neq. lia.
Qed.

Lemma hasMore_iff_page_full_witness :
  exists r,
    execute (stampingExecutor 10) testSchema "User" [] emptyOptions 7 = Ok r
    /\ data r = repeat (JBool true) 10
    /\ hasMore r = true.
Proof.
  destruct (hasMore_iff_page_full
              (stampingExecutor 10) testSchema "User" [] emptyOptions 7
              userNode (rowsAdapter 10) [] (repeat JNull 10)
              (repeat (JBool true) 10)
              eq_refl eq_refl eq_refl eq_refl eq_refl)
    as (r & Hrun & Hdata & _ & _ & Hmore & _).
  - intros p hook results results' [<-|[]] [= <-] [= <-].
    apply length_map.
  - exists r. split; [exact Hrun|]. split; [exact Hdata|].
    apply Hmore. reflexivity.
Defined.

(** C8, as stated, fails: with the default configuration, a query with
    [limit: 5] answered by exactly five rows carries no "add filters"
    suggestion. *)
Lemma no_filter_hint_at_small_limit :
  exists r,
    execute (testExecutor 5) testSchema "User" [] (limitOptions 5) 7 = Ok r
    /\ data r <> []
    /\ ~ suggestsFiltersAtLimit (testExecutor 5) (limitOptions 5) r.
Proof.
  eexists. split; [reflexivity|]. split; [discriminate|].
  unfold suggestsFiltersAtLimit. simpl. intros [_ H].
  specialize (H eq_refl). destruct H as [H|[]]. discriminate.
Qed.

Lemma navigateHint_not_addFilters edge : navigateHint edge <> addFilters.
Proof. unfold navigateHint, addFilters. simpl. discriminate. Qed.

(** C8 (amended): when [execute] succeeds with a non-empty result,
    [nextActions] lists a navigation hint for each of the first two
    edges of the node, and in addition the "add filters" hint exactly
    when the number of rows is at least the configured default limit. *)
Theorem nextActions_of_nonempty_result
        ex schema nodeName filters options elapsed node r :
  GQPSchema.getNode schema nodeName = Some node ->
  execute ex schema nodeName filters options elapsed = Ok r ->
  data r <> [] ->
  nextActions r
  = map navigateHint (firstn 2 (edges node))
    ++ (if Z.of_nat (length (data r)) >=? defaultLimit (config ex)
        then [addFilters] else [])
  /\ (In addFilters (nextActions r)
      <-> defaultLimit (config ex) <= Z.of_nat (length (data r))).
Proof.
  intros Hnode Hex Hne.
  apply execute_inv in Hex
    as (node' & _ & _ & _ & Hnode' & _ & _ & _ & _ & _ & Hnext).
  rewrite Hnode in Hnode'. injection Hnode' as <-.
  assert (Heq : nextActions r
                = map navigateHint (firstn 2 (edges node))
                  ++ (if Z.of_nat (length (data r))
                         >=? defaultLimit (config ex)
                      then [addFilters] else [])).
  { rewrite Hnext. unfold suggestNextActions.
    destruct (data r); [congruence|]. reflexivity. }
  split; [exact Heq|].
  rewrite Heq, in_app_iff. split.
  - intros [Hin|Hin].
    + apply in_map_iff in Hin as [e [He _]].
      now apply navigateHint_not_addFilters in He.
    + destruct (Z.geb_spec (Z.of_nat (length (data r)))
                           (defaultLimit (config ex))); [lia|].
      destruct Hin.
  - intros Hle. right.
    destruct (Z.geb_spec (Z.of_nat (length (data r)))
                         (defaultLimit (config ex))); [|lia].
    now left.
Qed.

Lemma nextActions_of_nonempty_result_witness :
  exists r,
    execute (testExecutor 20) testSchema "Order" [] (limitOptions 50) 7
    = Ok r
    /\ nextActions r
       = ["Navigate to User to see related data";
          "Navigate to Product to see related data";
          "Add filters to narrow down results"].
Proof.
  eexists. split; [reflexivity|].
  apply (nextActions_of_nonempty_result
           (testExecutor 20) testSchema "Order" [] (limitOptions 50) 7
           orderNode);
    [reflexivity | reflexivity | discriminate].
Defined.
End ExecutorFacts.

(** ** Cursor *)

Section CursorFacts.
Import GQPGraphCursor.

Lemma updateNeighbors_fields schema c :
  let c' := updateNeighbors schema c in
  id c' = id c /\ currentNode c' = currentNode c /\ path c' = path c
  /\ depth c' = depth c /\ createdAt c' = createdAt c
  /\ exploredNodes c' = exploredNodes c.
Proof. simpl. auto 10. Qed.

Lemma truthy_nonempty s : s <> "" -> truthy (Some s) = Some s.
Proof.
  intros Hs. unfold truthy. destruct (String.eqb_spec s ""); congruence.
Qed.

Lemma new_positioned schema s maxLen suffix now :
  s <> "" ->
  let c := cursor (new schema (Some s) maxLen suffix now) in
  currentNode c = Some s /\ path c = [s] /\ depth c = 0
  /\ exploredNodes c = 1 /\ createdAt c = now
  /\ id c = generateCursorId suffix.
Proof.
  intros Hs. unfold new. rewrite (truthy_nonempty s Hs). simpl. auto 10.
Qed.

Lemma new_id schema start maxLen suffix now :
  getId (new schema start maxLen suffix now) = generateCursorId suffix.
Proof. unfold new, getId. now destruct (truthy start). Qed.

Lemma new_createdAt schema start maxLen suffix now :
  getCreatedAt (new schema start maxLen suffix now) = now.
Proof. unfold new, getCreatedAt. now destruct (truthy start). Qed.

Lemma navigateTo_absent schema c nodeName :
  GQPSchema.getNode schema nodeName = None ->
  navigateTo schema c nodeName = Err (createError.nodeNotFound nodeName).
Proof. intros H. unfold navigateTo. now rewrite H. Qed.

Lemma navigateTo_registered schema c nodeName c' view :
  navigateTo schema c nodeName = Ok (c', view) ->
  GQPSchema.getNode schema nodeName <> None.
Proof.
  unfold navigateTo.
  destruct (GQPSchema.getNode schema nodeName); [discriminate|].
  discriminate.
Qed.

(** What [navigateTo] leaves behind when it succeeds. *)
Lemma navigateTo_state schema c nodeName c' view :
  navigateTo schema c nodeName = Ok (c', view) ->
  currentNode (cursor c') = Some nodeName
  /\ path (cursor c')
     = (if Z.of_nat (length (path (cursor c))) >=? maxPathLength c
        then tl (path (cursor c)) else path (cursor c)) ++ [nodeName]
  /\ depth (cursor c') = Z.of_nat (length (path (cursor c)))
  /\ exploredNodes (cursor c') = distinctCount (path (cursor c'))
  /\ maxPathLength c' = maxPathLength c.
Proof.
  unfold navigateTo.
  destruct (GQPSchema.getNode schema nodeName); [|discriminate].
  intros [= <- _]. simpl. auto.
Qed.

(** [navigateTo] re-establishes the count of distinct names, and keeps
    the depth in step with the path while the window has room. *)
Lemma navigateTo_invariants schema c nodeName c' view :
  navigateTo schema c nodeName = Ok (c', view) ->
  exploredInvariant c'
  /\ (Z.of_nat (length (path (cursor c))) < maxPathLength c ->
      depthInvariant c').
Proof.
  intros H. apply navigateTo_state in H as (Hcur & Hpath & Hdepth & Hexp & _).
  split; [exact Hexp|].
  intros Hroom. unfold depthInvariant. rewrite Hcur, Hdepth, Hpath.
  destruct (Z.geb_spec (Z.of_nat (length (path (cursor c))))
                       (maxPathLength c)); [lia|].
  rewrite length_app. simpl. lia.
Qed.

Lemma reset_invariants c : depthInvariant (reset c) /\ exploredInvariant (reset c).
Proof. split; reflexivity. Qed.

Lemma run2_reachable schema maxLen c a b :
  reachable schema maxLen c -> reachable schema maxLen (run2 schema c a b).
Proof.
  intros Hc. unfold run2.
  destruct (navigateTo schema c a) as [[c1 v1]|] eqn:E1; [|assumption].
  assert (H1 : reachable schema maxLen c1)
    by (eapply reach_navigateTo; eassumption).
  destruct (navigateTo schema c1 b) as [[c2 v2]|] eqn:E2; [|assumption].
  eapply reach_navigateTo; eassumption.
Qed.

(** C2 fails on the code.  From a fresh cursor over the test graph,
    [navigateTo "User"; navigateTo "Order"; goBack] leaves the path
    ["User"] with [exploredNodes = 2]; and with a window of two names,
    [navigateTo] of "User", "Order", "Product" leaves a path of length 2
    with [depth = 2]. *)
Theorem cursor_invariant_violated :
  (exists c,
      reachable testSchema 100 c
      /\ path (cursor c) = ["User"]
      /\ exploredNodes (cursor c) = 2
      /\ ~ exploredInvariant c)
  /\ (exists c,
         reachable testSchema 2 c
         /\ currentNode (cursor c) = Some "Product"
         /\ path (cursor c) = ["Order"; "Product"]
         /\ depth (cursor c) = 2
         /\ ~ depthInvariant c).
Proof.
  split.
  - exists (fst (goBack testSchema
                   (run2 testSchema (new testSchema None 100 "a" 0)
                         "User" "Order"))).
    split; [apply reach_goBack, run2_reachable, reach_new|].
    split; [reflexivity|]. split; [reflexivity|].
    unfold exploredInvariant. vm_compute. discriminate.
  - set (c2 := run2 testSchema (new testSchema None 2 "a" 0) "User" "Order").
    destruct (navigateTo testSchema c2 "Product") as [[c3 v]|] eqn:E;
      [|vm_compute in E; discriminate].
    exists c3.
    split; [eapply reach_navigateTo;
            [apply run2_reachable, reach_new | exact E]|].
    vm_compute in E. injection E as <- _.
    split; [reflexivity|]. split; [reflexivity|]. split; [reflexivity|].
    unfold depthInvariant. vm_compute. discriminate.
Qed.
End CursorFacts.

(** ** Cursor pool *)

Section PoolFacts.
Import CursorManager.

(** C10, as stated, fails at the empty string: [create("")] returns an
    unset cursor. *)
Lemma create_empty_name_unset :
  ~ createPositionsAt (new 100 1800000 100) testSchema "".
Proof.
  intros H. destruct (H 0 "a" 0) as (Hcur & _). discriminate.
Qed.

(** C10 (amended): for every non-empty string [s], registered or not,
    [create(s)] returns a cursor positioned on [s] with path [[s]] and
    depth 0 and registers it in the pool, whereas [navigateTo(s)] on any
    cursor throws NODE_NOT_FOUND when [s] is absent from the schema. *)
Theorem create_does_not_check_start_node
        (m : t) (schema : GQPSchema.t) (s : string)
        (now : Z) (suffix : string) (stamp : Z) :
  s <> "" ->
  let m' := fst (create m schema (Some s) now suffix stamp) in
  let c := snd (create m schema (Some s) now suffix stamp) in
  currentNode (GQPGraphCursor.cursor c) = Some s
  /\ path (GQPGraphCursor.cursor c) = [s]
  /\ depth (GQPGraphCursor.cursor c) = 0
  /\ JsMap.get (cursors m') (GQPGraphCursor.getId c) = Some c
  /\ (GQPSchema.getNode schema s = None ->
      forall c0,
        GQPGraphCursor.navigateTo schema c0 s
        = Err (GQPError NODE_NOT_FOUND s NoReason)).
Proof.
  intros Hs. unfold create. cbn zeta. cbn [fst snd].
  destruct (new_positioned schema s
              (maxPathLength
                 (if size (evictExpired m now)
                     >=? maxCursors (evictExpired m now)
                  then evictOldest (evictExpired m now)
                  else evictExpired m now))
              suffix stamp Hs)
    as (Hcur & Hpath & Hdepth & _).
  split; [exact Hcur|]. split; [exact Hpath|]. split; [exact Hdepth|].
  split.
  - unfold withCursors. cbn [cursors]. apply get_set_same.
  - intros Habs c0. now apply navigateTo_absent.
Qed.

Lemma create_does_not_check_start_node_witness :
  GQPSchema.getNode testSchema "Ghost" = None
  /\ currentNode
       (GQPGraphCursor.cursor
          (snd (create (new 100 1800000 100) testSchema (Some "Ghost")
                       0 "a" 0)))
     = Some "Ghost"
  /\ GQPGraphCursor.navigateTo
       testSchema (GQPGraphCursor.new testSchema None 100 "b" 0) "Ghost"
     = Err (GQPError NODE_NOT_FOUND "Ghost" NoReason).
Proof.
  assert (Hs : "Ghost" <> "") by discriminate.
  destruct (create_does_not_check_start_node
              (new 100 1800000 100) testSchema "Ghost" 0 "a" 0 Hs)
    as (Hcur & _ & _ & _ & Hnav).
  split; [reflexivity|]. split; [exact Hcur|].
  apply Hnav. reflexivity.
Defined.

Lemma filter_twice {A} (f g : A -> bool) (l : list A) :
  filter f (filter g l) = filter (fun x => g x && f x) l.
Proof.
  induction l as [|a l IH]; simpl; [reflexivity|].
  destruct (g a); simpl; [|assumption].
  destruct (f a); now rewrite IH.
Qed.

Lemma sweep_fold (P : string * GQPGraphCursor.t -> bool)
      (l acc : JsMap.t GQPGraphCursor.t) :
  fold_left (fun cs e => if P e then JsMap.delete cs (fst e) else cs) l acc
  = filter (fun e =>
              negb (existsb (fun e' => String.eqb (fst e) (fst e') && P e')
                            l)) acc.
Proof.
  revert acc. induction l as [|a l IH]; intros acc; simpl.
  - symmetry. apply forallb_filter_id. now apply forallb_forall.
  - rewrite IH. destruct (P a) eqn:Pa.
    + unfold JsMap.delete. rewrite filter_twice. apply filter_ext.
      intros e. rewrite andb_true_r, negb_orb.
      now rewrite (String.eqb_sym (fst e) (fst a)).
    + apply filter_ext. intros e. now rewrite andb_false_r.
Qed.

Lemma evictExpired_live (m : t) (now : Z) :
  NoDup (JsMap.keys (cursors m)) ->
  cursors (evictExpired m now) = live m now.
Proof.
  intros Hnd. unfold evictExpired, live. cbn [cursors withCursors].
  rewrite (sweep_fold (expiredAt m now)).
  apply filter_ext_in. intros e He. f_equal.
  destruct (expiredAt m now e) eqn:Pe.
  - apply existsb_exists. exists e.
    now rewrite String.eqb_refl, Pe.
  - apply not_true_is_false. intros Hex.
    apply existsb_exists in Hex as [e' [He' Hp]].
    apply andb_prop in Hp as [Hk Hp]. apply String.eqb_eq in Hk.
    assert (e' = e); [|congruence].
    destruct e as [k v], e' as [k' v']. simpl in Hk. subst k'.
    f_equal.
    pose proof (In_get_NoDup _ _ _ Hnd He) as H1.
    pose proof (In_get_NoDup _ _ _ Hnd He') as H2. congruence.
Qed.

Lemma evictExpired_config m now :
  maxCursors (evictExpired m now) = maxCursors m
  /\ cursorTTL (evictExpired m now) = cursorTTL m
  /\ maxPathLength (evictExpired m now) = maxPathLength m.
Proof. now unfold evictExpired. Qed.

Lemma NoDup_keys_filter {V} (f : string * V -> bool) (l : JsMap.t V) :
  NoDup (JsMap.keys l) -> NoDup (JsMap.keys (filter f l)).
Proof.
  unfold JsMap.keys. induction l as [|a l IH]; simpl; [auto|].
  intros Hnd. inversion Hnd as [|? ? Hnotin Hnd']; subst.
  destruct (f a); simpl; [|auto].
  constructor; [|auto].
  intros Hin. apply Hnotin. apply in_map_iff in Hin as [e [He Hin]].
  apply filter_In in Hin as [Hin _]. rewrite <- He. now apply in_map.
Qed.

(** The scan returns the first entry of least creation time. *)
Lemma oldestScan_spec entries acc :
  match oldestScan entries acc with
  | None => acc = None /\ entries = []
  | Some (i, t0) =>
      (acc = Some (i, t0)
       \/ exists c, In (i, c) entries
                    /\ t0 = GQPGraphCursor.getCreatedAt c)
      /\ (forall e, In e entries ->
                    t0 <= GQPGraphCursor.getCreatedAt (snd e))
      /\ (forall i1 t1, acc = Some (i1, t1) -> t0 <= t1)
  end.
Proof.
  revert acc. induction entries as [|[cid c] rest IH]; intros acc; simpl.
  - destruct acc as [[i t0]|]; [|auto].
    split; [now left|]. split; [tauto|].
    intros i1 t1 [= -> ->]. lia.
  - set (created := GQPGraphCursor.getCreatedAt c).
    set (acc' := if match acc with
                    | Some (_, oldestTime) => created <? oldestTime
                    | None => true
                    end
                 then Some (cid, created) else acc).
    specialize (IH acc').
    destruct (oldestScan rest acc') as [[i t0]|].
    + destruct IH as (Hsrc & Hmin & Hacc).
      assert (Hc : t0 <= created
                   /\ (forall i1 t1, acc = Some (i1, t1) -> t0 <= t1)
                   /\ (acc' = Some (i, t0) ->
                       acc = Some (i, t0)
                       \/ (i, t0) = (cid, created))).
      { subst acc'. destruct acc as [[i0 told]|].
        - destruct (Z.ltb_spec created told).
          + specialize (Hacc _ _ eq_refl).
            split; [lia|]. split.
            * intros i1 t1 [= -> ->]. lia.
            * intros [= -> ->]. now right.
          + specialize (Hacc _ _ eq_refl).
            split; [lia|]. split.
            * intros i1 t1 [= -> ->]. lia.
            * intros [= -> ->]. now left.
        - specialize (Hacc _ _ eq_refl).
          split; [lia|]. split; [discriminate|].
          intros [= -> ->]. now right. }
      destruct Hc as (Hle & Hacc0 & Hfrom).
      split; [|split; [|exact Hacc0]].
      * destruct Hsrc as [Hsrc|[c0 [Hin Ht]]].
        -- destruct (Hfrom Hsrc) as [Hold|Hnew]; [now left|].
           injection Hnew as -> ->. right. exists c. split; [now left|].
           reflexivity.
        -- right. exists c0. split; [now right | exact Ht].
      * intros e [<-|Hin]; [exact Hle | now apply Hmin].
    + destruct IH as (Hacc & _). subst acc'.
      destruct acc as [[i0 told]|]; [|discriminate].
      destruct (created <? told); discriminate.
Qed.

Lemma evictOldest_spec (m : t) :
  wfPool m -> cursors m <> [] ->
  exists oid oc,
    In (oid, oc) (cursors m)
    /\ (forall e, In e (cursors m) ->
                  GQPGraphCursor.getCreatedAt oc
                  <= GQPGraphCursor.getCreatedAt (snd e))
    /\ cursors (evictOldest m) = JsMap.delete (cursors m) oid
    /\ S (length (cursors (evictOldest m))) = length (cursors m).
Proof.
  intros [Hnd Hne] Hnonempty. unfold evictOldest.
  pose proof (oldestScan_spec (cursors m) None) as Hscan.
  destruct (oldestScan (cursors m) None) as [[oid t0]|].
  - destruct Hscan as ([Habs|[oc [Hin Ht]]] & Hmin & _); [discriminate|].
    exists oid, oc. subst t0.
    destruct (String.eqb_spec oid "") as [->|_].
    + exfalso. apply Hne. now apply (in_map fst) in Hin.
    + cbn [cursors withCursors]. repeat split; auto.
      now apply length_delete_present with (v := oc).
  - destruct Hscan as [_ Hempty]. contradiction.
Qed.

Lemma evictOldest_config m :
  maxCursors (evictOldest m) = maxCursors m
  /\ maxPathLength (evictOldest m) = maxPathLength m.
Proof.
  unfold evictOldest. destruct (oldestScan (cursors m) None) as [[i ?]|];
    [|auto]. now destruct (String.eqb i "").
Qed.

(** C6, as stated, fails for a capacity of zero: the new cursor is
    registered all the same. *)
Lemma create_exceeds_zero_capacity :
  ~ createKeepsBound (new 0 1800000 100) testSchema.
Proof.
  intros H. specialize (H None 0 "a" 0). vm_compute in H. now apply H.
Qed.

(** What [create] does to the pool: sweep, evict at most one cursor, of
    least creation time, register. *)
Lemma create_outcome
      (m : t) (schema : GQPSchema.t) (start : option string)
      (now : Z) (suffix : string) (stamp : Z) :
  wfPool m ->
  1 <= maxCursors m ->
  let m' := fst (create m schema start now suffix stamp) in
  let c := snd (create m schema start now suffix stamp) in
  exists kept,
    (if Z.of_nat (length (live m now)) >=? maxCursors m
     then exists oid oc,
         In (oid, oc) (live m now)
         /\ (forall e, In e (live m now) ->
                       GQPGraphCursor.getCreatedAt oc
                       <= GQPGraphCursor.getCreatedAt (snd e))
         /\ kept = JsMap.delete (live m now) oid
         /\ S (length kept) = length (live m now)
     else kept = live m now)
    /\ cursors m' = JsMap.set kept (GQPGraphCursor.getId c) c
    /\ maxCursors m' = maxCursors m
    /\ wfPool m'.
Proof.
  intros [Hnd Hne] Hcap. unfold create. cbn zeta. cbn [fst snd].
  pose proof (evictExpired_live m now Hnd) as Hlive.
  destruct (evictExpired_config m now) as (Hmax & _ & _).
  set (m1 := evictExpired m now) in *.
  assert (Hwf1 : wfPool m1).
  { split; rewrite Hlive; unfold live.
    - now apply NoDup_keys_filter.
    - intros Hin. apply Hne. unfold JsMap.keys in *.
      apply in_map_iff in Hin as [e [He Hin]].
      apply filter_In in Hin as [Hin _]. rewrite <- He.
      now apply in_map. }
  assert (Hcond : (size m1 >=? maxCursors m1)
                  = (Z.of_nat (length (live m now)) >=? maxCursors m))
    by (unfold size, JsMap.size; now rewrite Hlive, Hmax).
  rewrite Hcond. clear Hcond.
  set (c := fun m2 => GQPGraphCursor.new schema start (maxPathLength m2)
                                         suffix stamp).
  assert (Hfresh : forall m2, GQPGraphCursor.getId (c m2) <> "")
    by (intros m2; unfold c; rewrite new_id; discriminate).
  assert (Hfinish :
            forall m2,
              wfPool m2 -> maxCursors m2 = maxCursors m ->
              maxCursors (withCursors m2
                            (JsMap.set (cursors m2)
                               (GQPGraphCursor.getId (c m2)) (c m2)))
              = maxCursors m
              /\ wfPool (withCursors m2
                           (JsMap.set (cursors m2)
                              (GQPGraphCursor.getId (c m2)) (c m2)))).
  { intros m2 [Hnd2 Hne2] Hmax2. split; [exact Hmax2|].
    unfold wfPool, withCursors. cbn [cursors]. split.
    - now apply NoDup_keys_set.
    - rewrite keys_set. destruct (JsMap.has _ _); [assumption|].
      rewrite in_app_iff. intros [Hin|[Heq|[]]]; [contradiction|].
      now apply (Hfresh m2). }
  destruct (Z.geb_spec (Z.of_nat (length (live m now))) (maxCursors m))
    as [Hfull|Hroom].
  - assert (Hnonempty : cursors m1 <> []).
    { rewrite Hlive. destruct (live m now); [simpl in Hfull; lia|].
      discriminate. }
    destruct (evictOldest_spec m1 Hwf1 Hnonempty)
      as (oid & oc & Hin & Hmin & Hdel & Hlen).
    rewrite Hlive in Hin, Hmin, Hdel, Hlen.
    exists (cursors (evictOldest m1)). split.
    { exists oid, oc. repeat split; assumption. }
    split; [reflexivity|].
    apply Hfinish.
    + destruct Hwf1 as [Hnd1 Hne1]. rewrite Hlive in Hnd1, Hne1.
      split; rewrite Hdel.
      * now apply NoDup_keys_delete.
      * intros Hin0. apply Hne1. unfold JsMap.keys in *.
        apply in_map_iff in Hin0 as [e [He Hin0]].
        apply delete_incl in Hin0. rewrite <- He. now apply in_map.
    + destruct (evictOldest_config m1) as [-> _]. exact Hmax.
  - exists (cursors m1). split; [exact Hlive|].
    split; [reflexivity|].
    apply Hfinish; [exact Hwf1 | exact Hmax].
Qed.

Lemma live_length_le (m : t) (now : Z) :
  (length (live m now) <= length (cursors m))%nat.
Proof. apply filter_length_le. Qed.

Lemma wfPool_delete m cid :
  wfPool m -> wfPool (withCursors m (JsMap.delete (cursors m) cid)).
Proof.
  intros [Hnd Hne]. split; cbn [cursors withCursors].
  - now apply NoDup_keys_delete.
  - intros Hin. apply Hne. unfold JsMap.keys in *.
    apply in_map_iff in Hin as [e [He Hin]].
    apply delete_incl in Hin. rewrite <- He. now apply in_map.
Qed.

Lemma size_delete_le m cid :
  size (withCursors m (JsMap.delete (cursors m) cid)) <= size m.
Proof.
  unfold size, JsMap.size, JsMap.delete. cbn [cursors withCursors].
  pose proof (filter_length_le
                (fun e : string * GQPGraphCursor.t =>
                   negb (String.eqb (fst e) cid)) (cursors m)). lia.
Qed.

Lemma pool_bounded schema cap ttl len m :
  1 <= cap ->
  poolReachable schema cap ttl len m ->
  wfPool m /\ maxCursors m = cap /\ size m <= cap.
Proof.
  intros Hcap Hm. induction Hm as [|m start now suffix stamp Hm IH
                                   |m cid now Hm IH|m cid Hm IH|m Hm IH
                                   |m cid c c' Hm IH Hget].
  - split; [split; simpl; [constructor | tauto]|].
    split; [reflexivity | unfold size, JsMap.size; simpl; lia].
  - destruct IH as (Hwf & Hmax & Hsize).
    destruct (create_outcome m schema start now suffix stamp Hwf)
      as (kept & Hkept & Hcur & Hm' & Hwf'); [lia|].
    split; [exact Hwf'|]. split; [lia|].
    pose proof (live_length_le m now) as Hlive.
    pose proof (length_set_le
                  kept
                  (GQPGraphCursor.getId
                     (snd (create m schema start now suffix stamp)))
                  (snd (create m schema start now suffix stamp))) as Hset.
    unfold size, JsMap.size in *. rewrite Hcur.
    destruct (Z.geb_spec (Z.of_nat (length (live m now))) (maxCursors m))
      as [Hfull|Hroom].
    + destruct Hkept as (oid & oc & _ & _ & _ & Hlen). lia.
    + subst kept. lia.
  - destruct IH as (Hwf & Hmax & Hsize). unfold get.
    destruct (JsMap.get (cursors m) cid) as [c|]; [|auto].
    destruct (isExpired m now c); [|auto]. cbn [fst].
    split; [now apply wfPool_delete|]. split; [exact Hmax|].
    pose proof (size_delete_le m cid). lia.
  - destruct IH as (Hwf & Hmax & Hsize). unfold delete. cbn [fst].
    split; [now apply wfPool_delete|]. split; [exact Hmax|].
    pose proof (size_delete_le m cid). lia.
  - destruct IH as (Hwf & Hmax & Hsize). unfold clear.
    split; [split; simpl; [constructor | tauto]|].
    split; [exact Hmax | unfold size, JsMap.size; simpl; lia].
  - destruct IH as ((Hnd & Hne) & Hmax & Hsize).
    assert (Hkeys : JsMap.keys (JsMap.set (cursors m) cid c')
                    = JsMap.keys (cursors m)).
    { rewrite keys_set. unfold JsMap.has. now rewrite Hget. }
    split; [split; cbn [cursors withCursors]; now rewrite Hkeys|].
    split; [exact Hmax|].
    unfold size, JsMap.size in *. cbn [cursors withCursors].
    unfold JsMap.keys in Hkeys.
    rewrite <- (length_map fst (JsMap.set (cursors m) cid c')), Hkeys,
      length_map. exact Hsize.
Qed.
(** C6 (amended): on a pool of capacity at least one, [create] keeps
    exactly the cursors whose age does not exceed the TTL; if those
    still fill the pool, it removes one of them, of least creation
    time, and no other; then it registers the new cursor; and the size
    of the pool after the call does not exceed [maxCursors] when it did
    not before. *)
Theorem create_sweeps_evicts_registers
        (schema : GQPSchema.t) (cap ttl len : Z) (m : t)
        (start : option string) (now : Z) (suffix : string) (stamp : Z) :
  1 <= cap ->
  poolReachable schema cap ttl len m ->
  let m' := fst (create m schema start now suffix stamp) in
  let c := snd (create m schema start now suffix stamp) in
  exists kept,
    (if Z.of_nat (length (live m now)) >=? cap
     then exists oid oc,
         In (oid, oc) (live m now)
         /\ (forall e, In e (live m now) ->
                       GQPGraphCursor.getCreatedAt oc
                       <= GQPGraphCursor.getCreatedAt (snd e))
         /\ kept = JsMap.delete (live m now) oid
         /\ S (length kept) = length (live m now)
     else kept = live m now)
    /\ cursors m' = JsMap.set kept (GQPGraphCursor.getId c) c
    /\ JsMap.get (cursors m') (GQPGraphCursor.getId c) = Some c
    /\ size m' <= cap.
Proof.
  intros Hcap Hreach m' c.
  destruct (pool_bounded schema cap ttl len m Hcap Hreach)
    as (Hwf & Hmax & Hsize).
  destruct (create_outcome m schema start now suffix stamp Hwf)
    as (kept & Hkept & Hcur & _ & _); [lia|].
  fold m' c in Hcur. rewrite Hmax in Hkept.
  exists kept. split; [exact Hkept|]. split; [exact Hcur|].
  split; [rewrite Hcur; apply get_set_same|].
  pose proof (live_length_le m now) as Hlive.
  pose proof (length_set_le kept (GQPGraphCursor.getId c) c) as Hset.
  unfold size, JsMap.size in *. rewrite Hcur.
  destruct (Z.geb_spec (Z.of_nat (length (live m now))) cap)
    as [Hfull|Hroom].
  - destruct Hkept as (oid & oc & _ & _ & _ & Hlen). lia.
  - subst kept. lia.
Qed.

Lemma create_sweeps_evicts_registers_witness :
  size poolOfThree = 3
  /\ size (fst (create poolOfThree testSchema None 4 "d" 4)) <= 3
  /\ JsMap.keys (cursors (fst (create poolOfThree testSchema None 4 "d" 4)))
     = ["cursor_b"; "cursor_c"; "cursor_d"].
Proof.
  assert (Hcap : 1 <= 3) by lia.
  assert (Hreach : poolReachable testSchema 3 1800000 100 poolOfThree)
    by (unfold poolOfThree; repeat apply pool_create; apply pool_new).
  destruct (create_sweeps_evicts_registers
              testSchema 3 1800000 100 poolOfThree None 4 "d" 4
              Hcap Hreach)
    as (kept & _ & _ & _ & Hbound).
  split; [reflexivity|]. split; [exact Hbound | reflexivity].
Defined.

End PoolFacts.

(** ** Validator *)

Section ValidatorFacts.
Import Validator.

(** C1 fails on the code.  With the default configuration (maximum
    filter depth 5) the filters value
    [{a: {b: {c: {d: {e: {f: {g: {h: 1}}}}}}}}], of nesting depth 7, is
    accepted and returned as it is: [validateNestedFilter] counts the
    levels of nested field objects and never compares the count with
    the maximum. *)
Theorem deep_field_nesting_accepted :
  maxFilterDepth (config defaultValidator) = 5
  /\ nestingDepth deepFilters = 7
  /\ validateFilters defaultValidator deepFilters 0
     = Ok [("a", JObj [("b", JObj [("c", JObj [("d", JObj [("e",
             JObj [("f", JObj [("g", JObj [("h", JNum 1)])])])])])])])]
  /\ validateToolCallParams defaultValidator (Some deepParams)
     = Ok (mkParams query (Some "User") None
                    (Some [("a", JObj [("b", JObj [("c", JObj [("d",
                       JObj [("e", JObj [("f", JObj [("g",
                         JObj [("h", JNum 1)])])])])])])])])
                    None None).
Proof. repeat split. Qed.

(** The same counter does reject a value once a logical operator hands
    it back to [validateFilters]. *)
Lemma logical_nesting_rejected :
  validateFilters defaultValidator andChain 0
  = Err (GQPError VALIDATION_ERROR "filters" (ExceedsMaximumDepth 5))
  /\ validateFilters defaultValidator
       (JObj [("a", JObj [("b", JObj [("c", JObj [("d", JObj [("e",
          JObj [("f", JObj [("g", JObj [("AND",
            JObj [("h", JNum 1)])])])])])])])])]) 0
     = Err (GQPError VALIDATION_ERROR "filters" (ExceedsMaximumDepth 5)).
Proof. split; reflexivity. Qed.
(** Induction on a value through its items and properties. *)
Lemma JsVal_nested_ind (P : JsVal -> Prop) :
  P JUndefined -> P JNull -> (forall b, P (JBool b)) ->
  (forall z, P (JNum z)) -> (forall s, P (JStr s)) ->
  (forall items, Forall P items -> P (JArr items)) ->
  (forall props, Forall (fun p => P (snd p)) props -> P (JObj props)) ->
  forall x, P x.
Proof.
  intros Hundefined Hnull Hbool Hnum Hstr Harr Hobj.
  fix rec 1.
  intros [| |b|z|s|items|props];
    [exact Hundefined | exact Hnull | apply Hbool | apply Hnum | apply Hstr
    | | ].
  - apply Harr. revert items. fix all 1. intros [|y rest].
    + constructor.
    + constructor; [apply rec | apply all].
  - apply Hobj. revert props. fix all 1. intros [|[k y] rest].
    + constructor.
    + constructor; [apply rec | apply all].
Qed.

Lemma bind_no_depth_error {A B} (r : Result A) (k : A -> Result B) :
  isDepthError r = false ->
  (forall a, isDepthError (k a) = false) ->
  isDepthError (bind r k) = false.
Proof. intros Hr Hk. destruct r; simpl; auto. Qed.

Lemma levels_prop props k y :
  In (k, y) props -> (objectLevels y < objectLevels (JObj props))%nat.
Proof.
  simpl. induction props as [|[k0 y0] props IH]; [intros []|].
  intros [[= -> ->]|Hin]; [lia|]. specialize (IH Hin). lia.
Qed.

Lemma levels_item items y :
  In y items -> (objectLevels y < objectLevels (JArr items))%nat.
Proof.
  simpl. induction items as [|y0 items IH]; [intros []|].
  intros [->|Hin]; [lia|]. specialize (IH Hin). lia.
Qed.

Lemma filterStep_no_depth_error v key value nested validated :
  isDepthError nested = false ->
  isDepthError (filterStep v key value nested validated) = false.
Proof.
  intros Hn. unfold filterStep.
  destruct (_ && _); [reflexivity|].
  destruct value; try reflexivity.
  - destruct (_ >? _); reflexivity.
  - now apply bind_no_depth_error.
Qed.

Lemma nestedStep_no_depth_error
      v pk op value d recF recE recN validated :
  isDepthError (recF (d + 1)) = false ->
  isDepthError (recE (d + 1)) = false ->
  (forall k, isDepthError (recN k (d + 1)) = false) ->
  isDepthError (nestedStep v pk op value d recF recE recN validated) = false.
Proof.
  intros HF HE HN. unfold nestedStep.
  destruct (stringIn _ op).
  - destruct value; try reflexivity. destruct (_ >? _); reflexivity.
  - destruct (isLogical op).
    + destruct value; now apply bind_no_depth_error.
    + destruct value; try reflexivity; now apply bind_no_depth_error.
Qed.

(** No call of the validator on a value within the bound ends in a depth
    error, whichever way the value is entered. *)
Lemma no_depth_error_all v x : noDepthErrorAt v x.
Proof.
  induction x as [| | | | |items IH|props IH] using JsVal_nested_ind;
    intros d Hd; try (repeat split; reflexivity).
  - assert (Hitems : forall y, In y items -> withinBound v y (d + 1)).
    { intros y Hy. pose proof (levels_item items y Hy).
      unfold withinBound in *. lia. }
    split; [reflexivity|]. split.
    + intros pk. cbn [validateNestedFilter].
      generalize (@nil (string * JsVal)) at 1. generalize O.
      induction items as [|y items IHl]; intros i validated; [reflexivity|].
      inversion IH as [|? ? Hy Hrest]; subst.
      destruct (Hy (d + 1) (Hitems y (or_introl eq_refl))) as (HF & HN & HE).
      apply bind_no_depth_error.
      * now apply nestedStep_no_depth_error.
      * intros r. apply IHl; [assumption| |].
        -- unfold withinBound in *. simpl in *. lia.
        -- intros z Hz. apply Hitems. now right.
    + simpl. clear Hd.
      assert (Hitems' : forall y, In y items -> withinBound v y d).
      { intros y Hy. specialize (Hitems y Hy). unfold withinBound in *. lia. }
      clear Hitems.
      induction items as [|y items IHl]; [reflexivity|].
      inversion IH as [|? ? Hy Hrest]; subst.
      destruct (Hy d (Hitems' y (or_introl eq_refl))) as (HF & _).
      apply bind_no_depth_error; [assumption|]. intros r.
      apply bind_no_depth_error; [|reflexivity].
      apply IHl; [assumption|]. intros z Hz. apply Hitems'. now right.
  - assert (Hprops : forall k y, In (k, y) props -> withinBound v y (d + 1)).
    { intros k y Hy. pose proof (levels_prop props k y Hy).
      unfold withinBound in *. lia. }
    assert (Hdepth : d <= maxFilterDepth (config v)).
    { unfold withinBound in Hd. simpl in Hd. lia. }
    split; [|split; [|reflexivity]].
    + cbn [validateFilters].
      destruct (Z.gtb_spec d (maxFilterDepth (config v))); [lia|].
      generalize (@nil (string * JsVal)) at 1.
      clear Hd. induction props as [|[k y] props IHl]; intros validated;
        [reflexivity|].
      inversion IH as [|? ? Hy Hrest]; subst. simpl in Hy.
      assert (Hyd : withinBound v y d).
      { specialize (Hprops k y (or_introl eq_refl)).
        unfold withinBound in *. lia. }
      destruct (Hy d Hyd) as (_ & HN & _).
      apply bind_no_depth_error.
      * now apply filterStep_no_depth_error.
      * intros r. apply IHl; [assumption|].
        intros k' y' Hin. apply (Hprops k'). now right.
    + intros pk. cbn [validateNestedFilter].
      generalize (@nil (string * JsVal)) at 1.
      clear Hd. induction props as [|[k y] props IHl]; intros validated;
        [reflexivity|].
      inversion IH as [|? ? Hy Hrest]; subst. simpl in Hy.
      destruct (Hy (d + 1) (Hprops k y (or_introl eq_refl)))
        as (HF & HN & HE).
      apply bind_no_depth_error.
      * now apply nestedStep_no_depth_error.
      * intros r. apply IHl; [assumption|].
        intros k' y' Hin. apply (Hprops k'). now right.
Qed.

(** The half of C1 that holds: a filters value whose nesting depth is
    within the configured maximum never raises the depth error, neither
    from [validateFilters] nor from [validateToolCallParams]. *)
Lemma within_bound_no_depth_error v (p : RawParams) :
  nestingDepth (p_filters p) <= maxFilterDepth (config v) ->
  isDepthError (validateFilters v (p_filters p) 0) = false
  /\ isDepthError (validateToolCallParams v (Some p)) = false.
Proof.
  intros Hd.
  assert (Hf : isDepthError (validateFilters v (p_filters p) 0) = false).
  { apply (no_depth_error_all v (p_filters p) 0).
    unfold withinBound, nestingDepth in *. lia. }
  split; [exact Hf|].
  unfold validateToolCallParams.
  apply bind_no_depth_error.
  { unfold validateAction. destruct (p_action p); try reflexivity.
    repeat match goal with
           | |- context [if ?c then _ else _] => destruct c
           end; reflexivity. }
  intros action. apply bind_no_depth_error.
  { assert (Hn : forall n, isDepthError
                             (n0 <- validateNodeName v n ;; Ok (Some n0))
                           = false).
    { intros n. unfold validateNodeName. destruct n; try reflexivity.
      repeat match goal with
             | |- context [if ?c then _ else _] => destruct c
             end; reflexivity. }
    destruct action; try apply Hn;
      destruct (isUndefined (p_node p)); try reflexivity; apply Hn. }
  intros node. apply bind_no_depth_error.
  { destruct (isUndefined (p_query p)); [reflexivity|].
    unfold validateQuery. destruct (p_query p); try reflexivity.
    destruct (_ >? _); reflexivity. }
  intros q. apply bind_no_depth_error.
  { destruct (isUndefined (p_filters p)); [reflexivity|].
    now apply bind_no_depth_error. }
  intros fs. apply bind_no_depth_error; [|reflexivity].
  destruct (isUndefined (p_cursorId p)); [reflexivity|].
  unfold validateCursorId. now destruct (p_cursorId p).
Qed.
End ValidatorFacts.

(** ** Engine *)

Section EngineFacts.
Import GQP.

Lemma validate_cursorId (v : Validator.t) (p : RawParams) (cid : string) :
  p_cursorId p = JStr cid ->
  Validator.validateToolCallParams v (Some p)
  = match Validator.validateToolCallParams v (Some (dropCursorId p)) with
    | Ok r => Ok (setCursorId r (Some cid))
    | Err e => Err e
    end
  /\ forall r,
      Validator.validateToolCallParams v (Some (dropCursorId p)) = Ok r ->
      tc_cursorId r = None.
Proof.
  intros Hcid. unfold Validator.validateToolCallParams, dropCursorId.
  cbn [p_action p_node p_query p_filters p_options p_cursorId].
  rewrite Hcid. cbn [Validator.isUndefined Validator.validateCursorId].
  destruct (Validator.validateAction (p_action p)) as [action|];
    cbn [bind]; [|split; [reflexivity | discriminate]].
  match goal with
  | |- context [bind ?n _] => destruct n as [node|]
  end; cbn [bind]; [|split; [reflexivity | discriminate]].
  match goal with
  | |- context [bind ?n _] => destruct n as [q|]
  end; cbn [bind]; [|split; [reflexivity | discriminate]].
  match goal with
  | |- context [bind ?n _] => destruct n as [fs|]
  end; cbn [bind]; [|split; [reflexivity | discriminate]].
  split; [reflexivity|]. now intros r [= <-].
Qed.

Lemma queryNode_dead_cursor g nodeName q filters options cid env :
  snd (CursorManager.get (cursorManager g) cid (env_now env)) = None ->
  snd (queryNode g nodeName q filters options (Some cid) env)
  = snd (queryNode g nodeName q filters options None env)
  /\ incl (CursorManager.cursors
             (cursorManager
                (fst (queryNode g nodeName q filters options (Some cid)
                                env))))
          (CursorManager.cursors (cursorManager g))
  /\ cursorManager (fst (queryNode g nodeName q filters options None env))
     = cursorManager g.
Proof.
  intros Hdead. unfold queryNode.
  destruct (GQPSchema.getNode (schema g) nodeName) as [node|];
    [|repeat split; apply incl_refl].
  cbn [truthy].
  assert (Hpool : incl (CursorManager.cursors
                          (fst (CursorManager.get (cursorManager g) cid
                                                  (env_now env))))
                       (CursorManager.cursors (cursorManager g))).
  { unfold CursorManager.get.
    destruct (JsMap.get _ cid) as [c|]; [|apply incl_refl].
    destruct (CursorManager.isExpired _ _ c); [|apply incl_refl].
    apply delete_incl. }
  destruct (String.eqb cid "").
  - repeat split. apply incl_refl.
  - destruct (CursorManager.get (cursorManager g) cid (env_now env))
      as [m [c|]]; [discriminate|].
    cbn [fst snd] in *. repeat split. exact Hpool.
Qed.

(** C9: a "query" tool call whose [cursorId] is a string that names no
    live, unexpired cursor has the outcome of the same call without
    [cursorId] (so it raises no error of its own), and adds no cursor to
    the pool: every cursor of the pool after the call was in the pool
    before it (an expired entry under that id is dropped by [get]). *)
Theorem query_ignores_dead_cursor_id
        (g : t) (p : RawParams) (cid : string) (env : Env) :
  p_action p = JStr "query" ->
  p_cursorId p = JStr cid ->
  snd (CursorManager.get (cursorManager g) cid (env_now env)) = None ->
  snd (handleToolCall g (Some p) env)
  = snd (handleToolCall g (Some (dropCursorId p)) env)
  /\ incl (CursorManager.cursors
             (cursorManager (fst (handleToolCall g (Some p) env))))
          (CursorManager.cursors (cursorManager g))
  /\ cursorManager (fst (handleToolCall g (Some (dropCursorId p)) env))
     = cursorManager g.
Proof.
  intros Hact Hcid Hdead. unfold handleToolCall.
  destruct (validate_cursorId (validator g) p cid Hcid) as [-> Hnone].
  destruct (Validator.validateToolCallParams (validator g)
                                             (Some (dropCursorId p)))
    as [v|e] eqn:Hv; [|repeat split; apply incl_refl].
  specialize (Hnone v eq_refl).
  assert (Hquery : tc_action v = query).
  { revert Hv. unfold Validator.validateToolCallParams, dropCursorId.
    cbn [p_action p_node p_query p_filters p_options p_cursorId].
    rewrite Hact. cbn [Validator.validateAction String.eqb Ascii.eqb
                         Bool.eqb bind].
    repeat match goal with
           | |- context [bind ?n _] => destruct n; cbn [bind]
           end; try discriminate.
    now intros [= <-]. }
  cbn [setCursorId tc_action tc_node tc_query tc_filters tc_options
                   tc_cursorId].
  rewrite Hquery, Hnone.
  match goal with
  | |- context [if SecurityManager.isEnabled ?s then ?a else ?b] =>
      destruct (if SecurityManager.isEnabled s then a else b) as [ctx|]
  end; [|repeat split; apply incl_refl].
  match goal with
  | |- context [bind ?n _] => destruct (bind n _) as [filters|]
  end; [|repeat split; apply incl_refl].
  destruct (queryNode_dead_cursor
              g (match tc_node v with Some n => n | None => "" end)
              (tc_query v) (Some filters) (tc_options v) cid env Hdead)
    as (Hres & Hincl & Hsame).
  destruct (queryNode g _ _ _ _ (Some cid) env) as [g1 r1].
  destruct (queryNode g _ _ _ _ None env) as [g0 r0].
  cbn [fst snd] in *. subst r1. auto.
Qed.

(** By contrast, a live cursor is repositioned on the queried node
    unless it is already there. *)
Lemma queryNode_live_cursor g nodeName q filters options cid env m c :
  GQPSchema.getNode (schema g) nodeName <> None ->
  cid <> "" ->
  CursorManager.get (cursorManager g) cid (env_now env) = (m, Some c) ->
  CursorManager.cursors
    (cursorManager
       (fst (queryNode g nodeName q filters options (Some cid) env)))
  = repositioned (schema g) m cid c nodeName.
Proof.
  intros Hreg Hcid Hget. unfold queryNode, repositioned.
  destruct (GQPSchema.getNode (schema g) nodeName); [|congruence].
  rewrite (truthy_nonempty cid Hcid), Hget.
  destruct (GQPGraphCursor.getCurrentNode c) as [cur|].
  - destruct (String.eqb cur nodeName); [reflexivity|].
    now destruct (GQPGraphCursor.navigateTo (schema g) c nodeName)
      as [[c' view]|].
  - now destruct (GQPGraphCursor.navigateTo (schema g) c nodeName)
      as [[c' view]|].
Qed.

Lemma query_ignores_dead_cursor_id_witness :
  snd (handleToolCall testEngine (Some staleQuery) (mkEnv 0 "a" 0 1))
  = snd (handleToolCall testEngine (Some (dropCursorId staleQuery))
                        (mkEnv 0 "a" 0 1))
  /\ CursorManager.size
       (cursorManager
          (fst (handleToolCall testEngine (Some staleQuery)
                               (mkEnv 0 "a" 0 1)))) = 0.
Proof.
  split; [|reflexivity].
  apply (query_ignores_dead_cursor_id
           testEngine staleQuery "cursor_gone" (mkEnv 0 "a" 0 1));
    reflexivity.
Defined.
End EngineFacts.

(** ** Schema graph: neighbours *)

Section NeighborFacts.
Import GQPSchema.

Lemma In_set {V} (m : JsMap.t V) k v e :
  In e (JsMap.set m k v) -> e = (k, v) \/ In e m.
Proof.
  induction m as [|[k' v'] m IH]; simpl.
  - intros [<-|[]]. now left.
  - destruct (String.eqb k' k); simpl.
    + intros [<-|H]; auto.
    + intros [<-|H]; auto. destruct (IH H); auto.
Qed.

Lemma indexEdges_wf idx nodeName es :
  NoDup (JsMap.keys idx) ->
  (forall k ts, In (k, ts) idx -> NoDup ts) ->
  NoDup (JsMap.keys (indexEdges idx nodeName es))
  /\ (forall k ts, In (k, ts) (indexEdges idx nodeName es) -> NoDup ts).
Proof.
  revert idx. induction es as [|e es IH]; intros idx Hnd Hts; simpl.
  - auto.
  - set (idx1 := if JsMap.has idx nodeName then idx
                 else JsMap.set idx nodeName []).
    assert (H1 : NoDup (JsMap.keys idx1)
                 /\ forall k ts, In (k, ts) idx1 -> NoDup ts).
    { subst idx1. destruct (JsMap.has idx nodeName); [auto|].
      split; [now apply NoDup_keys_set|].
      intros k ts Hin. apply In_set in Hin as [[= -> ->]|Hin].
      - constructor.
      - eauto. }
    destruct H1 as [Hnd1 Hts1].
    apply IH.
    + now apply NoDup_keys_set.
    + intros k ts Hin. apply In_set in Hin as [[= -> ->]|Hin].
      * apply JsSet_add_NoDup.
        assert (Hx : NoDup (match JsMap.get idx1 nodeName with
                            | Some s => s
                            | None => []
                            end)); [|exact Hx].
        destruct (JsMap.get idx1 nodeName) as [ts0|] eqn:E;
          [|constructor].
        apply get_In in E. eauto.
      * eauto.
Qed.

Lemma wfSchema_empty : wfSchema empty.
Proof.
  repeat split; simpl; try constructor; try discriminate; tauto.
Qed.

Lemma wfSchema_addNode s node isRoot :
  wfSchema s -> wfSchema (addNode s node isRoot).
Proof.
  intros (Hname & Hnd & Hts). unfold addNode.
  destruct (indexEdges_wf (edgeIndex s) (name node) (edges node) Hnd Hts)
    as [Hnd' Hts'].
  split; [|split; assumption]. cbn [nodes].
  intros k x. destruct (String.eqb_spec k (name node)) as [->|Hk].
  - rewrite get_set_same. now intros [= <-].
  - rewrite get_set_other by assumption. apply Hname.
Qed.

Lemma wfSchema_reachable s : schemaReachable s -> wfSchema s.
Proof.
  induction 1 as [|s node isRoot _ IH|s _ _].
  - apply wfSchema_empty.
  - now apply wfSchema_addNode.
  - apply wfSchema_empty.
Qed.

Lemma wfSchema_buildSchema ns : wfSchema (buildSchema ns).
Proof.
  unfold buildSchema.
  assert (H : forall s, wfSchema s ->
                        wfSchema (fold_left (fun s n => addNode s n true)
                                            ns s)).
  { induction ns as [|n ns IH]; intros s Hs; simpl; [assumption|].
    apply IH. now apply wfSchema_addNode. }
  apply H, wfSchema_empty.
Qed.

Lemma firstn_prefix_full {A} (acc rest : list A) (L : nat) :
  length acc = L -> firstn L (acc ++ rest) = acc.
Proof.
  intros <-. rewrite firstn_app, Nat.sub_diag, firstn_all. simpl.
  apply app_nil_r.
Qed.

Lemma forwardLoop_firstn s limit ts acc :
  0 <= limit ->
  (length acc <= Z.to_nat limit)%nat ->
  forwardLoop s limit ts acc
  = firstn (Z.to_nat limit) (acc ++ flat_map (lookupNode s) ts).
Proof.
  intros Hlim. revert acc.
  induction ts as [|k ts IH]; intros acc Hlen; simpl.
  - rewrite app_nil_r. symmetry. now apply firstn_all2.
  - destruct (Z.geb_spec (Z.of_nat (length acc)) limit) as [Hfull|Hroom].
    + symmetry. apply firstn_prefix_full. lia.
    + unfold lookupNode at 1.
      destruct (JsMap.get (nodes s) k) as [x|]; simpl.
      * rewrite IH by (rewrite length_app; simpl; lia).
        now rewrite <- app_assoc.
      * now apply IH.
Qed.

Lemma reverseAll_extends s n entries acc :
  exists rev, reverseAll s n entries acc = acc ++ rev.
Proof.
  revert acc. induction entries as [|[src ts] rest IH]; intros acc; simpl.
  - exists []. now rewrite app_nil_r.
  - destruct (JsSet.has ts n && negb (String.eqb src n)); [|apply IH].
    destruct (JsMap.get (nodes s) src) as [x|]; [|apply IH].
    destruct (negb (includes acc x)); [|apply IH].
    destruct (IH (acc ++ [x])) as [rev Hrev].
    exists (x :: rev). now rewrite Hrev, <- app_assoc.
Qed.

Lemma reverseLoop_firstn s n limit entries acc :
  0 <= limit ->
  (length acc <= Z.to_nat limit)%nat ->
  reverseLoop s n limit entries acc
  = firstn (Z.to_nat limit) (reverseAll s n entries acc).
Proof.
  intros Hlim. revert acc.
  induction entries as [|[src ts] rest IH]; intros acc Hlen.
  - simpl. symmetry. now apply firstn_all2.
  - cbn [reverseLoop].
    destruct (Z.geb_spec (Z.of_nat (length acc)) limit) as [Hfull|Hroom].
    + destruct (reverseAll_extends s n ((src, ts) :: rest) acc)
        as [rev ->].
      symmetry. apply firstn_prefix_full. lia.
    + cbn [reverseAll].
      destruct (JsSet.has ts n && negb (String.eqb src n)); [|now apply IH].
      destruct (JsMap.get (nodes s) src) as [x|]; [|now apply IH].
      destruct (negb (includes acc x)); [|now apply IH].
      apply IH. rewrite length_app. simpl. lia.
Qed.

Lemma loops_without_room s n limit ts entries :
  limit < 0 ->
  forwardLoop s limit ts [] = []
  /\ reverseLoop s n limit entries [] = [].
Proof.
  intros Hneg. split.
  - destruct ts; simpl; [reflexivity|].
    destruct (Z.geb_spec 0 limit); [reflexivity | lia].
  - destruct entries as [|[src tgts] rest]; simpl; [reflexivity|].
    destruct (Z.geb_spec 0 limit); [reflexivity | lia].
Qed.

(** [getNeighbors] is the first [limit] entries of the two unbounded
    scans. *)
Lemma getNeighbors_firstn s n limit :
  getNode s n <> None ->
  getNeighbors s n limit
  = firstn (Z.to_nat limit)
           (reverseAll s n (edgeIndex s) (forwardNeighbors s n)).
Proof.
  intros Hreg. unfold getNeighbors, getNode in *.
  destruct (JsMap.get (nodes s) n); [|congruence].
  destruct (Z.ltb_spec limit 0) as [Hneg|Hpos].
  - destruct (loops_without_room s n limit (targetsOf s n) (edgeIndex s)
                                 Hneg) as [-> ->].
    unfold slice0. destruct (limit <? 0); simpl;
      replace (Z.to_nat limit) with O by lia; reflexivity.
  - unfold slice0. destruct (Z.ltb_spec limit 0); [lia|].
    rewrite forwardLoop_firstn by (simpl; lia). simpl.
    rewrite reverseLoop_firstn by (try rewrite length_firstn; lia).
    fold (forwardNeighbors s n).
    set (L := Z.to_nat limit). set (fwd := forwardNeighbors s n).
    destruct (Nat.le_gt_cases (length fwd) L) as [Hfit|Hcut].
    + rewrite (firstn_all2 (n := L) fwd) by assumption.
      now rewrite firstn_firstn, Nat.min_id.
    + destruct (reverseAll_extends s n (edgeIndex s) (firstn L fwd))
        as [rev1 ->].
      destruct (reverseAll_extends s n (edgeIndex s) fwd) as [rev2 ->].
      rewrite (firstn_prefix_full (firstn L fwd) rev1 L)
        by (rewrite length_firstn; lia).
      rewrite firstn_firstn, Nat.min_id.
      rewrite firstn_app.
      replace (L - length fwd)%nat with O by lia.
      simpl. now rewrite app_nil_r.
Qed.

Lemma JsSet_add_In ts z y : In y (JsSet.add ts z) <-> In y ts \/ y = z.
Proof.
  unfold JsSet.add. destruct (JsSet.has ts z) eqn:E.
  - apply JsSet_has_In in E. split; [tauto|]. intros [H| ->]; assumption.
  - rewrite in_app_iff. simpl. split.
    + intros [H|[<-|[]]]; auto.
    + intros [H| ->]; auto.
Qed.

Lemma indexEdges_targets idx nm es x y :
  In y (targetsIn (indexEdges idx nm es) x)
  <-> In y (targetsIn idx x)
      \/ (x = nm /\ exists e, In e es /\ e_to e = y).
Proof.
  revert idx. induction es as [|e es IH]; intros idx.
  - simpl. split; [tauto|]. intros [H|[_ [e [[] _]]]]. exact H.
  - cbn [indexEdges].
    set (idx1 := if JsMap.has idx nm then idx else JsMap.set idx nm []).
    assert (H1 : forall k, targetsIn idx1 k = targetsIn idx k).
    { intros k. subst idx1. unfold JsMap.has, targetsIn.
      destruct (JsMap.get idx nm) eqn:E; [reflexivity|].
      destruct (String.eqb_spec k nm) as [->|Hk].
      - now rewrite get_set_same, E.
      - now rewrite get_set_other. }
    assert (Hstep :
              In y (targetsIn
                      (JsMap.set idx1 nm
                                 (JsSet.add (targetsIn idx1 nm) (e_to e))) x)
              <-> In y (targetsIn idx x) \/ (x = nm /\ y = e_to e)).
    { unfold targetsIn at 1.
      destruct (String.eqb_spec x nm) as [->|Hx].
      - rewrite get_set_same, JsSet_add_In, (H1 nm). tauto.
      - rewrite get_set_other by assumption.
        fold (targetsIn idx1 x). rewrite (H1 x). tauto. }
    etransitivity; [apply IH|]. split.
    + intros [H|[-> [e0 [Hin He]]]].
      * apply Hstep in H as [H|[-> ->]]; [now left|].
        right. split; [reflexivity|]. exists e. split; [now left | reflexivity].
      * right. split; [reflexivity|]. exists e0. split; [now right | exact He].
    + intros [H|[-> [e0 [[<-|Hin] He]]]].
      * left. apply Hstep. now left.
      * left. apply Hstep. right. split; [reflexivity | now symmetry].
      * right. split; [reflexivity|]. eauto.
Qed.

Lemma targetsOf_buildSchema ns x y :
  In y (targetsOf (buildSchema ns) x) <-> declaredEdge ns x y.
Proof.
  unfold buildSchema.
  assert (H : forall s0,
             In y (targetsOf (fold_left (fun s n => addNode s n true) ns s0) x)
             <-> In y (targetsOf s0 x) \/ declaredEdge ns x y).
  { induction ns as [|n ns IH]; intros s0.
    - simpl. split; [tauto|]. intros [H|(node & e & [] & _)]. exact H.
    - cbn [fold_left]. etransitivity; [apply IH|].
      assert (Hadd : In y (targetsOf (addNode s0 n true) x)
                     <-> In y (targetsOf s0 x)
                         \/ (x = name n
                             /\ exists e, In e (edges n) /\ e_to e = y))
        by apply indexEdges_targets.
      unfold declaredEdge. split.
      + intros [H|(node & e & Hn & Hrest)].
        * apply Hadd in H as [H|[-> [e [Hin He]]]]; [now left|].
          right. exists n, e. simpl. auto.
        * right. exists node, e. simpl. tauto.
      + intros [H|(node & e & [<-|Hn] & Hname & Hin & He)].
        * left. apply Hadd. now left.
        * left. apply Hadd. right. split; [now symmetry|]. eauto.
        * right. exists node, e. auto. }
  etransitivity; [apply H|]. unfold targetsOf. simpl. tauto.
Qed.

Lemma includes_In acc x :
  includes acc x = true <-> In (name x) (map name acc).
Proof.
  unfold includes. rewrite existsb_exists, in_map_iff. split.
  - intros [m [Hm Heq]]. apply String.eqb_eq in Heq. eauto.
  - intros [m [Heq Hm]]. exists m. split; [assumption|].
    now apply String.eqb_eq.
Qed.

Lemma reverseAll_incl s n entries acc x :
  In x acc -> In x (reverseAll s n entries acc).
Proof.
  destruct (reverseAll_extends s n entries acc) as [rev ->].
  intros H. apply in_or_app. now left.
Qed.

Lemma reverseAll_In s n entries acc x :
  In x (reverseAll s n entries acc) ->
  In x acc
  \/ exists src ts,
      In (src, ts) entries /\ In n ts /\ src <> n
      /\ JsMap.get (nodes s) src = Some x.
Proof.
  revert acc. induction entries as [|[src ts] rest IH]; intros acc; simpl.
  - now left.
  - assert (Hrest : In x (reverseAll s n rest acc) ->
                    In x acc
                    \/ exists src0 ts0,
                        ((src, ts) = (src0, ts0) \/ In (src0, ts0) rest)
                        /\ In n ts0 /\ src0 <> n
                        /\ JsMap.get (nodes s) src0 = Some x).
    { intros H. destruct (IH _ H) as [|(src0 & ts0 & Hin & Hrem)];
        [now left|]. right. exists src0, ts0. tauto. }
    destruct (JsSet.has ts n && negb (String.eqb src n)) eqn:Hcond;
      [|exact Hrest].
    destruct (JsMap.get (nodes s) src) as [y|] eqn:Hy; [|exact Hrest].
    destruct (negb (includes acc y)); [|exact Hrest].
    intros H. destruct (IH _ H) as [Hacc|(src0 & ts0 & Hin & Hrem)].
    + apply in_app_or in Hacc as [Hacc|[<-|[]]]; [now left|].
      right. exists src, ts.
      apply andb_prop in Hcond as [Hhas Hne].
      apply JsSet_has_In in Hhas. apply negb_true_iff in Hne.
      apply String.eqb_neq in Hne. auto.
    + right. exists src0, ts0. tauto.
Qed.

Lemma reverseAll_NoDup s n entries acc :
  NoDup (map name acc) -> NoDup (map name (reverseAll s n entries acc)).
Proof.
  revert acc. induction entries as [|[src ts] rest IH]; intros acc Hnd;
    simpl; [assumption|].
  destruct (JsSet.has ts n && negb (String.eqb src n)); [|now apply IH].
  destruct (JsMap.get (nodes s) src) as [y|]; [|now apply IH].
  destruct (includes acc y) eqn:Hinc; simpl; [now apply IH|].
  apply IH. rewrite map_app. simpl.
  apply NoDup_app; [assumption | repeat constructor; simpl; tauto |].
  intros k Hk [<-|[]].
  apply includes_In in Hk. congruence.
Qed.

Lemma reverseAll_complete s n entries acc src ts x :
  In (src, ts) entries -> In n ts -> src <> n ->
  JsMap.get (nodes s) src = Some x ->
  In (name x) (map name (reverseAll s n entries acc)).
Proof.
  intros Hin Hn Hne Hx. revert acc.
  induction entries as [|[src0 ts0] rest IH]; intros acc;
    [destruct Hin|].
  destruct Hin as [[= -> ->]|Hin].
  - simpl. apply JsSet_has_In in Hn. apply String.eqb_neq in Hne.
    rewrite Hn, Hne, Hx. simpl.
    destruct (includes acc x) eqn:Hinc; simpl.
    + apply includes_In in Hinc. apply in_map_iff in Hinc as [y [Hy Hiny]].
      rewrite <- Hy. apply in_map. now apply reverseAll_incl.
    + apply in_map, reverseAll_incl, in_or_app. right. now left.
  - simpl.
    destruct (JsSet.has ts0 n && negb (String.eqb src0 n)); [|now apply IH].
    destruct (JsMap.get (nodes s) src0) as [y|]; [|now apply IH].
    destruct (negb (includes acc y)); now apply IH.
Qed.

Lemma targetsOf_NoDup s n : wfSchema s -> NoDup (targetsOf s n).
Proof.
  intros (_ & _ & Hts). unfold targetsOf.
  destruct (JsMap.get (edgeIndex s) n) as [ts|] eqn:E; [|constructor].
  apply get_In in E. eauto.
Qed.

Lemma forward_In s ts x :
  wfSchema s ->
  In x (flat_map (lookupNode s) ts) ->
  In (name x) ts /\ getNode s (name x) = Some x.
Proof.
  intros (Hname & _) Hin. apply in_flat_map in Hin as [k [Hk Hx]].
  unfold lookupNode in Hx.
  destruct (JsMap.get (nodes s) k) as [y|] eqn:E; [|destruct Hx].
  destruct Hx as [<-|[]]. rewrite (Hname _ _ E). auto.
Qed.

Lemma forward_NoDup s ts :
  wfSchema s -> NoDup ts -> NoDup (map name (flat_map (lookupNode s) ts)).
Proof.
  intros Hwf. induction ts as [|k ts IH]; intros Hnd; simpl;
    [constructor|].
  inversion Hnd as [|? ? Hnotin Hnd']; subst.
  rewrite map_app. unfold lookupNode at 1.
  destruct (JsMap.get (nodes s) k) as [y|] eqn:E; simpl; [|auto].
  constructor; [|auto].
  intros Hin. apply in_map_iff in Hin as [z [Hz Hin]].
  apply (forward_In s ts z Hwf) in Hin as [Hin _].
  destruct Hwf as (Hname & _). rewrite (Hname _ _ E) in Hz.
  congruence.
Qed.

Lemma NoDup_firstn {A} (k : nat) (l : list A) :
  NoDup l -> NoDup (firstn k l).
Proof.
  revert k. induction l as [|a l IH]; intros [|k] Hnd; simpl;
    try constructor.
  - inversion Hnd as [|? ? Hnotin Hnd']; subst.
    intros Hin. apply Hnotin. revert Hin. clear.
    revert k. induction l as [|b l IHl]; intros [|k]; simpl; try tauto.
    intros [->|H]; eauto.
  - inversion Hnd; subst. auto.
Qed.

Lemma NoDup_app_apart {A} (l1 l2 : list A) x :
  NoDup (l1 ++ l2) -> In x l1 -> In x l2 -> False.
Proof.
  induction l1 as [|a l1 IH]; simpl; [tauto|].
  intros Hnd. inversion Hnd as [|? ? Hnotin Hnd']; subst.
  intros [->|H1] H2; [|auto].
  apply Hnotin, in_or_app. now right.
Qed.

Lemma firstn_In {A} (k : nat) (l : list A) x : In x (firstn k l) -> In x l.
Proof.
  revert k. induction l as [|a l IH]; intros [|k]; simpl; try tauto.
  intros [->|H]; eauto.
Qed.

(** C5, as stated, fails for a node with an edge to itself: the node is
    listed among its own neighbours. *)
Lemma self_edge_lists_the_node :
  ~ neighborsExcludeSelf selfSchema "Employee" 5.
Proof. intros H. apply H. vm_compute. now left. Qed.

(** C5 (amended): for a registered node [n], [getNeighbors(n, limit)] is
    the first [limit] entries of the list made of the registered targets
    of the outgoing edges of [n], in insertion order, followed by the
    registered nodes other than [n] that have an edge to [n] and are not
    already listed; it has at most [limit] entries, all registered, no
    node twice; and [n] itself is listed only when [n] has an edge to
    itself. *)
Theorem getNeighbors_forward_then_reverse
        (s : t) (n : string) (limit : Z) :
  wfSchema s ->
  getNode s n <> None ->
  exists rev,
    getNeighbors s n limit
    = firstn (Z.to_nat limit) (forwardNeighbors s n ++ rev)
    /\ (forall x, In x rev <->
                  isReverseNeighbor s n x
                  /\ ~ In x (forwardNeighbors s n))
    /\ Z.of_nat (length (getNeighbors s n limit)) <= Z.max 0 limit
    /\ (forall x, In x (getNeighbors s n limit) ->
                  getNode s (name x) = Some x)
    /\ NoDup (map name (getNeighbors s n limit))
    /\ (In n (map name (getNeighbors s n limit)) ->
        In n (targetsOf s n)).
Proof.
  intros Hwf Hreg.
  pose proof (getNeighbors_firstn s n limit Hreg) as Hget.
  destruct (reverseAll_extends s n (edgeIndex s) (forwardNeighbors s n))
    as [rev Hrev].
  rewrite Hrev in Hget.
  pose proof (targetsOf_NoDup s n Hwf) as Hndt.
  pose proof (forward_NoDup s (targetsOf s n) Hwf Hndt) as Hndf.
  fold (forwardNeighbors s n) in Hndf.
  pose proof (reverseAll_NoDup s n (edgeIndex s) _ Hndf) as Hnd.
  rewrite Hrev in Hnd.
  assert (Hrevprop : forall x, In x rev ->
                               isReverseNeighbor s n x
                               /\ ~ In x (forwardNeighbors s n)).
  { intros x Hx.
    assert (Hnotfwd : ~ In x (forwardNeighbors s n)).
    { intros Hf. rewrite map_app in Hnd.
      apply (NoDup_app_apart _ _ (name x) Hnd); now apply in_map. }
    split; [|exact Hnotfwd].
    assert (Hin : In x (reverseAll s n (edgeIndex s)
                                   (forwardNeighbors s n)))
      by (rewrite Hrev; apply in_or_app; now right).
    apply reverseAll_In in Hin as [Hf|(src & ts & Hentry & Hn & Hne & Hx')];
      [contradiction|].
    destruct Hwf as (Hname & Hkeys & _).
    pose proof (Hname _ _ Hx') as Hnm. subst src.
    unfold isReverseNeighbor, getNode, targetsOf.
    rewrite (In_get_NoDup _ _ _ Hkeys Hentry). auto. }
  assert (Hregd : forall x, In x (forwardNeighbors s n ++ rev) ->
                            getNode s (name x) = Some x).
  { intros x Hx. apply in_app_or in Hx as [Hx|Hx].
    - now apply (forward_In s (targetsOf s n) x Hwf).
    - now apply Hrevprop. }
  exists rev. rewrite Hget.
  split; [reflexivity|]. split; [|split; [|split; [|split]]].
  - intros x. split; [apply Hrevprop|].
    intros [(Hx & Hn & Hne) Hnotfwd].
    assert (Hnm : In (name x)
                     (map name (reverseAll s n (edgeIndex s)
                                           (forwardNeighbors s n)))).
    { unfold targetsOf in Hn.
      destruct (JsMap.get (edgeIndex s) (name x)) as [ts|] eqn:E;
        [|destruct Hn].
      apply get_In in E.
      now apply (reverseAll_complete s n (edgeIndex s) _ (name x) ts x). }
    rewrite Hrev in Hnm. apply in_map_iff in Hnm as [y [Hy Hin]].
    pose proof (Hregd y Hin) as Hyreg. rewrite Hy, Hx in Hyreg.
    injection Hyreg as <-.
    apply in_app_or in Hin as [Hin|Hin]; [contradiction | assumption].
  - pose proof (firstn_le_length (Z.to_nat limit)
                                 (forwardNeighbors s n ++ rev)). lia.
  - intros x Hx. apply Hregd. now apply firstn_In in Hx.
  - rewrite <- firstn_map. now apply NoDup_firstn.
  - intros Hn. apply in_map_iff in Hn as [x [Hnm Hx]].
    apply firstn_In in Hx. apply in_app_or in Hx as [Hx|Hx].
    + apply (forward_In s (targetsOf s n) x Hwf) in Hx as [Hx _].
      now rewrite Hnm in Hx.
    + apply Hrevprop in Hx as [(_ & _ & Hne) _]. contradiction.
Qed.

Lemma getNeighbors_forward_then_reverse_witness :
  map name (getNeighbors testSchema "Order" 5) = ["User"; "Product"]
  /\ length (getNeighbors testSchema "Order" 1) = 1%nat
  /\ NoDup (map name (getNeighbors testSchema "Product" 5)).
Proof.
  assert (Hwf : wfSchema testSchema) by apply wfSchema_buildSchema.
  assert (Hreg : getNode testSchema "Product" <> None)
    by (vm_compute; discriminate).
  destruct (getNeighbors_forward_then_reverse testSchema "Product" 5
                                              Hwf Hreg)
    as (rev & _ & _ & _ & _ & Hnd & _).
  split; [reflexivity|]. split; [reflexivity | exact Hnd].
Defined.
End NeighborFacts.

(** ** Schema graph: shortest paths *)

Section FindPathFacts.
Import GQPSchema.

Variable s : t.

Local Abbreviation edge := (edge s).

Lemma expand_spec to p nbrs queue :
  match expand to p nbrs queue with
  | inl newPath => In to nbrs /\ newPath = p ++ [to]
  | inr queue' =>
      ~ In to nbrs
      /\ queue' = queue ++ map (fun w => mkEntry w (p ++ [w])) nbrs
  end.
Proof.
  revert queue. induction nbrs as [|w nbrs IH]; intros queue; simpl.
  - split; [tauto | now rewrite app_nil_r].
  - destruct (String.eqb_spec w to) as [->|Hne].
    + split; [now left | reflexivity].
    + specialize (IH (queue ++ [mkEntry w (p ++ [w])])).
      destruct (expand to p nbrs _) as [newPath|queue'].
      * destruct IH as [Hin ->]. split; [now right | reflexivity].
      * destruct IH as [Hnotin ->]. split; [tauto|].
        now rewrite <- app_assoc.
Qed.

(** *** Termination: the edges not yet expanded bound the iterations *)

Lemma has_snoc visited x k :
  JsSet.has (visited ++ [x]) k = JsSet.has visited k || String.eqb k x.
Proof.
  unfold JsSet.has. rewrite existsb_app. simpl. now rewrite orb_false_r.
Qed.

Lemma weightOf_mono idx visited x :
  (weightOf idx (visited ++ [x]) <= weightOf idx visited)%nat.
Proof.
  induction idx as [|[k ts] idx IH]; simpl; [lia|].
  rewrite has_snoc. destruct (JsSet.has visited k); simpl; [lia|].
  destruct (String.eqb k x); lia.
Qed.

Lemma weightOf_visit idx visited x :
  JsSet.has visited x = false ->
  (weightOf idx (visited ++ [x])
   + length (match JsMap.get idx x with Some ts => ts | None => [] end)
   <= weightOf idx visited)%nat.
Proof.
  intros Hx. induction idx as [|[k ts] idx IH]; simpl; [lia|].
  rewrite has_snoc. destruct (String.eqb_spec k x) as [->|Hk].
  - rewrite Hx. simpl. pose proof (weightOf_mono idx visited x). lia.
  - rewrite orb_false_r. destruct (JsSet.has visited k); lia.
Qed.

Lemma weightOf_nil idx : weightOf idx [] = fold_right
  (fun e acc => (length (snd e) + acc)%nat) O idx.
Proof. induction idx as [|[k ts] idx IH]; simpl; congruence. Qed.

(** *** Invariants of the search *)

Variables (from to : string) (maxDepth : Z).

Local Abbreviation walk := (walk s).
Local Abbreviation late := (late maxDepth).
Local Abbreviation cover := (cover s from).
Local Abbreviation inv := (inv s from to maxDepth).
Local Abbreviation outcomeOk := (outcomeOk s from to maxDepth).
Local Abbreviation inv_walks := (inv_walks s from to maxDepth).
Local Abbreviation inv_sorted := (inv_sorted s from to maxDepth).
Local Abbreviation inv_noTarget := (inv_noTarget s from to maxDepth).
Local Abbreviation inv_cover := (inv_cover s from to maxDepth).

Lemma cover_walk queue x p : cover queue x p -> walk from x p.
Proof.
  induction 1 as [x p e Hw _ _ _|x y p _ IH He]; [assumption|].
  now apply walk_step with x.
Qed.

Lemma cover_entry queue x p :
  cover queue x p -> exists e, In e queue /\ (plen e <= length p)%nat.
Proof.
  induction 1 as [x p e _ Hin _ Hlen|x y p _ IH _]; [eauto|].
  destruct IH as [e [Hin Hlen]]. exists e. split; [assumption|].
  rewrite length_app. simpl. lia.
Qed.

Lemma cover_incl queue queue' x p :
  incl queue queue' -> cover queue x p -> cover queue' x p.
Proof.
  intros Hincl. induction 1 as [x p e Hw Hin Hn Hlen|x y p _ IH He].
  - apply cover_here with e; auto.
  - now apply cover_later with x.
Qed.

Lemma sorted_head_min h queue e :
  StronglySorted stepUp (h :: queue) -> In e (h :: queue) ->
  (plen h <= plen e <= S (plen h))%nat.
Proof.
  intros Hs [<-|Hin]; [lia|].
  apply StronglySorted_inv in Hs as [_ Hall].
  rewrite Forall_forall in Hall. now apply Hall.
Qed.

Lemma sorted_app (l1 l2 : list QueueEntry) :
  StronglySorted stepUp l1 -> StronglySorted stepUp l2 ->
  (forall a b, In a l1 -> In b l2 -> stepUp a b) ->
  StronglySorted stepUp (l1 ++ l2).
Proof.
  intros H1 H2 Hcross. induction H1 as [|a l1 Hs IH Hall]; simpl;
    [assumption|].
  constructor.
  - apply IH. intros x y Hx Hy. apply Hcross; [now right | assumption].
  - apply Forall_app. split; [assumption|].
    apply Forall_forall. intros b Hb. apply Hcross; [now left | assumption].
Qed.

Lemma sorted_level (l : list QueueEntry) (k : nat) :
  Forall (fun e => plen e = k) l -> StronglySorted stepUp l.
Proof.
  induction 1 as [|a l Ha Hall IH]; constructor; [assumption|].
  apply Forall_forall. intros b Hb. rewrite Forall_forall in Hall.
  unfold stepUp. rewrite Ha, (Hall b Hb). lia.
Qed.

(** Dropping a queue entry whose path is longer than [maxDepth]. *)
Lemma inv_drop_long h queue visited :
  inv (h :: queue) visited ->
  Z.of_nat (plen h) > maxDepth ->
  inv queue visited.
Proof.
  intros [Hw Hs Hnt Hf Hc] Hlong.
  assert (Hlate : late queue).
  { apply Forall_forall. intros e He.
    pose proof (sorted_head_min h queue e Hs (or_intror He)). lia. }
  constructor.
  - now inversion Hw.
  - now apply StronglySorted_inv in Hs.
  - assumption.
  - intros u y _ _. right. now right.
  - intros x p Hwalk Hlen. destruct (Hc x p Hwalk Hlen) as [Hv|Hcov];
      [now left|]. right. clear Hwalk.
    induction Hcov as [x p e Hwalk [<-|Hin] Hn Hle|x y p Hcov IH He].
    + unfold plen in *. lia.
    + now apply cover_here with e.
    + apply cover_later with x; [|assumption].
      apply IH. rewrite length_app in Hlen. simpl in Hlen. lia.
Qed.

(** Dropping a queue entry whose node was expanded before. *)
Lemma inv_drop_visited h queue visited :
  inv (h :: queue) visited ->
  In (q_node h) visited ->
  inv queue visited.
Proof.
  intros [Hw Hs Hnt Hf Hc] Hseen.
  assert (Hlate : late (h :: queue) -> late queue)
    by (intros Hl; now inversion Hl).
  constructor.
  - now inversion Hw.
  - now apply StronglySorted_inv in Hs.
  - assumption.
  - intros u y Hu He.
    destruct (Hf u y Hu He) as [Hv|[[e [[<-|Hin] Hn]]|Hl]]; auto.
    + left. now rewrite <- Hn.
    + right. left. eauto.
  - intros x p Hwalk Hlen. destruct (Hc x p Hwalk Hlen) as [Hv|Hcov];
      [now left|]. clear Hwalk.
    assert (Hgoal : (In x visited /\ (plen h <= length p)%nat)
                    \/ cover queue x p); [|tauto].
    induction Hcov as [x p e Hwalk [<-|Hin] Hn Hle|x y p Hcov IH He].
    + left. now rewrite <- Hn.
    + right. now apply cover_here with e.
    + assert (Hlen' : Z.of_nat (length p) <= maxDepth)
        by (rewrite length_app in Hlen; simpl in Hlen; lia).
      destruct (IH Hlen') as [[Hv Hle]|Hcov'].
      * rewrite length_app. simpl.
        destruct (Hf x y Hv He) as [Hy|[[e [[<-|Hin] Hn]]|Hl]].
        -- left. split; [assumption | lia].
        -- left. split; [now rewrite <- Hn | lia].
        -- right. apply cover_here with e; auto.
           ++ apply walk_step with x; [|assumption].
              now apply cover_walk with (h :: queue).
           ++ pose proof (sorted_head_min h queue e Hs (or_intror Hin)).
              rewrite length_app. simpl. lia.
        -- exfalso. inversion Hl as [|? ? Hh _]; subst. lia.
      * right. now apply cover_later with x.
Qed.

(** Expanding the head of the queue when the target is not among its
    neighbours. *)
Lemma inv_expand h queue visited :
  inv (h :: queue) visited ->
  Z.of_nat (plen h) <= maxDepth ->
  ~ In (q_node h) visited ->
  ~ edge (q_node h) to ->
  inv (queue ++ map (fun w => mkEntry w (q_path h ++ [w]))
                    (targetsOf s (q_node h)))
      (visited ++ [q_node h]).
Proof.
  intros [Hw Hs Hnt Hf Hc] Hshort Hnew Hnoto.
  set (news := map (fun w => mkEntry w (q_path h ++ [w]))
                   (targetsOf s (q_node h))).
  assert (Hnews : forall y, edge (q_node h) y ->
                            In (mkEntry y (q_path h ++ [y])) news).
  { intros y Hy. unfold news.
    now apply (in_map (fun w => mkEntry w (q_path h ++ [w]))). }
  assert (Hhead : walk from (q_node h) (q_path h)) by now inversion Hw.
  constructor.
  - apply Forall_app. split; [now inversion Hw|].
    apply Forall_forall. intros e He. unfold news in He.
    apply in_map_iff in He as [w [<- Hin]]. simpl.
    now apply walk_step with (q_node h).
  - apply sorted_app.
    + now apply StronglySorted_inv in Hs.
    + apply sorted_level with (S (plen h)).
      apply Forall_forall. intros e He. unfold news in He.
      apply in_map_iff in He as [w [<- Hin]]. unfold plen. simpl.
      rewrite length_app. simpl. lia.
    + intros a b Ha Hb. unfold news in Hb.
      apply in_map_iff in Hb as [w [<- Hin]].
      pose proof (sorted_head_min h queue a Hs (or_intror Ha)).
      unfold stepUp, plen in *. simpl. rewrite length_app. simpl. lia.
  - intros u Hu. apply in_app_or in Hu as [Hu|[<-|[]]]; auto.
  - intros u y Hu He. apply in_app_or in Hu as [Hu|[<-|[]]].
    + destruct (Hf u y Hu He) as [Hv|[[e [[<-|Hin] Hn]]|Hl]].
      * left. apply in_or_app. now left.
      * left. apply in_or_app. right. left. assumption.
      * right. left. exists e. split; [|assumption].
        apply in_or_app. now left.
      * exfalso. inversion Hl as [|? ? Hh _]; subst. lia.
    + right. left. exists (mkEntry y (q_path h ++ [y])).
      split; [|reflexivity]. apply in_or_app. right. now apply Hnews.
  - intros x p Hwalk Hlen. destruct (Hc x p Hwalk Hlen) as [Hv|Hcov].
    { left. apply in_or_app. now left. }
    clear Hwalk Hlen.
    assert (Hgoal : (x = q_node h /\ (plen h <= length p)%nat)
                    \/ cover (queue ++ news) x p).
    { induction Hcov as [x p e Hwalk [<-|Hin] Hn Hle|x y p Hcov IH He].
      - left. auto.
      - right. apply cover_here with e; auto.
        apply in_or_app. now left.
      - destruct IH as [[-> Hle]|Hcov'].
        + right. apply cover_here with (mkEntry y (q_path h ++ [y])).
          * apply walk_step with (q_node h); [|assumption].
            now apply cover_walk with (h :: queue).
          * apply in_or_app. right. now apply Hnews.
          * reflexivity.
          * unfold plen in *. simpl. rewrite !length_app. simpl. lia.
        + right. now apply cover_later with x. }
    destruct Hgoal as [[-> _]|Hcov']; [|now right].
    left. apply in_or_app. right. now left.
Qed.

Lemma inv_start : inv [mkEntry from [from]] [].
Proof.
  constructor.
  - repeat constructor.
  - repeat constructor.
  - intros u [].
  - intros u y [].
  - intros x p Hwalk _. right.
    induction Hwalk as [|x y p Hwalk IH He].
    + apply cover_here with (mkEntry from [from]).
      * apply walk_start.
      * now left.
      * reflexivity.
      * unfold plen. simpl. lia.
    + now apply cover_later with x.
Qed.

Lemma walk_to_target_inv p' :
  from <> to -> walk from to p' ->
  exists u p0, p' = p0 ++ [to] /\ walk from u p0 /\ edge u to.
Proof.
  intros Hne Hwalk. inversion Hwalk as [|u y p0 Hw He]; subst.
  - congruence.
  - eauto.
Qed.

Lemma bfsLoop_correct fuel queue visited :
  from <> to ->
  inv queue visited ->
  (length queue + weightOf (edgeIndex s) visited <= fuel)%nat ->
  exists r,
    bfsLoop fuel s to maxDepth queue visited = Some r /\ outcomeOk r.
Proof.
  intros Hne. revert queue visited.
  induction fuel as [|fuel IH]; intros queue visited Hinv Hfuel.
  - destruct queue as [|h queue]; [|simpl in Hfuel; lia].
    exists None. split; [reflexivity|].
    intros p' Hwalk.
    destruct (walk_to_target_inv p' Hne Hwalk) as (u & p0 & -> & Hw & He).
    unfold hops. rewrite length_app. simpl.
    destruct (Z_le_gt_dec (Z.of_nat (length p0)) maxDepth) as [Hle|Hgt];
      [|lia].
    destruct (inv_cover _ _ Hinv u p0 Hw Hle) as [Hv|Hcov].
    + exfalso. now apply (inv_noTarget _ _ Hinv u).
    + apply cover_entry in Hcov as [e [[] _]].
  - destruct queue as [|h queue].
    + exists None. split; [reflexivity|].
      intros p' Hwalk.
      destruct (walk_to_target_inv p' Hne Hwalk)
        as (u & p0 & -> & Hw & He).
      unfold hops. rewrite length_app. simpl.
      destruct (Z_le_gt_dec (Z.of_nat (length p0)) maxDepth) as [Hle|Hgt];
        [|lia].
      destruct (inv_cover _ _ Hinv u p0 Hw Hle) as [Hv|Hcov].
      * exfalso. now apply (inv_noTarget _ _ Hinv u).
      * apply cover_entry in Hcov as [e [[] _]].
    + cbn [bfsLoop]. simpl in Hfuel.
      destruct (Z.gtb_spec (Z.of_nat (length (q_path h))) maxDepth)
        as [Hlong|Hshort].
      { apply IH; [|lia]. apply inv_drop_long with h; [assumption|].
        unfold plen. lia. }
      destruct (JsSet.has visited (q_node h)) eqn:Hseen.
      { apply IH; [|lia]. apply inv_drop_visited with h; [assumption|].
        now apply JsSet_has_In. }
      pose proof (expand_spec to (q_path h) (targetsOf s (q_node h)) queue)
        as Hexp.
      destruct (expand to (q_path h) (targetsOf s (q_node h)) queue)
        as [newPath|queue'].
      * destruct Hexp as [Hto ->]. exists (Some (q_path h ++ [to])).
        split; [reflexivity|].
        assert (Hhead : walk from (q_node h) (q_path h)).
        { pose proof (inv_walks _ _ Hinv) as Hw. now inversion Hw. }
        split; [now apply walk_step with (q_node h)|].
        split; [unfold hops; rewrite length_app; simpl; lia|].
        intros p' Hwalk.
        destruct (walk_to_target_inv p' Hne Hwalk)
          as (u & p0 & -> & Hw & He).
        rewrite !length_app. simpl.
        destruct (Nat.le_gt_cases (length (q_path h)) (length p0))
          as [Hle|Hlt]; [lia|]. exfalso.
        assert (Hdepth : Z.of_nat (length p0) <= maxDepth) by lia.
        destruct (inv_cover _ _ Hinv u p0 Hw Hdepth) as [Hv|Hcov].
        -- now apply (inv_noTarget _ _ Hinv u).
        -- apply cover_entry in Hcov as [e [Hin Hlen]].
           pose proof (sorted_head_min h queue e (inv_sorted _ _ Hinv) Hin).
           unfold plen in *. lia.
      * destruct Hexp as [Hnoto ->].
        apply JsSet_has_false in Hseen as Hnew.
        apply IH.
        -- now apply inv_expand.
        -- rewrite length_app, length_map.
           assert (Hweight :
                     (weightOf (edgeIndex s) (visited ++ [q_node h])
                      + length (targetsOf s (q_node h))
                      <= weightOf (edgeIndex s) visited)%nat)
             by now apply weightOf_visit.
           lia.
Qed.
End FindPathFacts.

Section FindPathTheorem.
Import GQPSchema.

Lemma walk_endpoints s from x p :
  walk s from x p -> hd_error p = Some from /\ last p from = x.
Proof.
  induction 1 as [|x y p Hw [Hhd Hlast] He]; [now split|].
  split.
  - destruct p; [discriminate | assumption].
  - apply last_last.
Qed.

(** Consecutive nodes of a walk are linked by an edge of the index. *)
Lemma walk_linked s from x p :
  walk s from x p ->
  forall l a b r, p = l ++ a :: b :: r -> edge s a b.
Proof.
  induction 1 as [|x y p Hw IH He]; intros l a b r Heq.
  - destruct l as [|? [|? ?]]; discriminate.
  - induction r as [|z r' _] using rev_ind.
    + replace (l ++ [a; b]) with ((l ++ [a]) ++ [b]) in Heq
        by now rewrite <- app_assoc.
      apply app_inj_tail in Heq as [-> ->].
      destruct (walk_endpoints _ _ _ _ Hw) as [_ Hlast].
      rewrite last_last in Hlast. now subst.
    + replace (l ++ a :: b :: r' ++ [z])
        with ((l ++ a :: b :: r') ++ [z]) in Heq
        by now rewrite <- app_assoc.
      apply app_inj_tail in Heq as [-> _]. now apply (IH l a b r').
Qed.

(** C3: [findPath(from, to, maxDepth)] returns [[from]] when the two
    names are equal; otherwise it returns null when an endpoint is not
    registered or when [to] cannot be reached from [from] within
    [maxDepth] hops along the edges of the adjacency index; otherwise it
    returns a directed path from [from] to [to] of at most [maxDepth]
    hops, and no directed path from [from] to [to] has fewer hops. *)
Theorem findPath_shortest (s : t) (from to : string) (maxDepth : Z) :
  (from = to -> findPath s from to maxDepth = Some [from])
  /\ (from <> to ->
      getNode s from = None \/ getNode s to = None
      \/ ~ reachableWithin s from to maxDepth ->
      findPath s from to maxDepth = None)
  /\ (from <> to ->
      getNode s from <> None -> getNode s to <> None ->
      reachableWithin s from to maxDepth ->
      exists p,
        findPath s from to maxDepth = Some p
        /\ walk s from to p
        /\ hops p <= maxDepth
        /\ forall p', walk s from to p' -> hops p <= hops p').
Proof.
  unfold findPath, getNode, JsMap.has.
  destruct (String.eqb_spec from to) as [->|Hne].
  - split; [reflexivity|]. split; intros H; now contradiction H.
  - split; [intros H; contradiction|].
    assert (Hfuel : (length [mkEntry from [from]]
                     + weightOf (edgeIndex s) []
                     <= S (edgeCount s))%nat).
    { rewrite weightOf_nil. unfold edgeCount. simpl. lia. }
    destruct (bfsLoop_correct s from to maxDepth (S (edgeCount s))
                              [mkEntry from [from]] [] Hne
                              (inv_start s from to maxDepth) Hfuel)
      as (r & Hloop & Hok).
    split.
    + intros _ [Hfrom|[Hto|Hunreach]].
      * now rewrite Hfrom.
      * rewrite Hto. now destruct (JsMap.get (nodes s) from).
      * destruct (JsMap.get (nodes s) from); [|reflexivity].
        destruct (JsMap.get (nodes s) to); [|reflexivity].
        cbn [negb orb]. rewrite Hloop.
        destruct r as [p|]; [|reflexivity].
        exfalso. apply Hunreach. exists p.
        destruct Hok as (Hwalk & Hhops & _). auto.
    + intros _ Hfrom Hto [p0 [Hw0 Hh0]].
      destruct (JsMap.get (nodes s) from); [|congruence].
      destruct (JsMap.get (nodes s) to); [|congruence].
      cbn [negb orb]. rewrite Hloop.
      destruct r as [p|].
      * exists p. destruct Hok as (Hwalk & Hhops & Hmin).
        split; [reflexivity|]. split; [assumption|].
        split; [assumption|].
        intros p' Hp'. specialize (Hmin p' Hp'). unfold hops. lia.
      * exfalso. specialize (Hok p0 Hw0). lia.
Qed.

Lemma findPath_shortest_witness :
  findPath testSchema "User" "Product" 4
  = Some ["User"; "Order"; "Product"]
  /\ findPath testSchema "User" "Isolated" 4 = None
  /\ exists p,
      findPath testSchema "User" "Product" 4 = Some p
      /\ forall p', walk testSchema "User" "Product" p' ->
                    hops p <= hops p'.
Proof.
  destruct (findPath_shortest testSchema "User" "Product" 4)
    as (_ & _ & Hfound).
  assert (Hne : "User" <> "Product") by discriminate.
  assert (Hfrom : getNode testSchema "User" <> None)
    by (vm_compute; discriminate).
  assert (Hto : getNode testSchema "Product" <> None)
    by (vm_compute; discriminate).
  assert (Hreach : reachableWithin testSchema "User" "Product" 4).
  { exists ["User"; "Order"; "Product"]. split; [|vm_compute; discriminate].
    apply (walk_step testSchema "User" "Order" "Product" ["User"; "Order"]).
    - apply (walk_step testSchema "User" "User" "Order" ["User"]).
      + apply walk_start.
      + vm_compute. now left.
    - vm_compute. right. now left. }
  destruct (Hfound Hne Hfrom Hto Hreach) as (p & Hp & _ & _ & Hmin).
  split; [reflexivity|]. split; [reflexivity|].
  exists p. split; assumption.
Defined.
End FindPathTheorem.

(** ** Schema graph: registry, roots and capabilities *)

Section SchemaFacts.
Import GQPSchema SchemaQueries.

Lemma length_set {V} (m : JsMap.t V) k v :
  length (JsMap.set m k v)
  = if JsMap.has m k then length m else S (length m).
Proof.
  unfold JsMap.has.
  induction m as [|[k' v'] m IH]; simpl; [reflexivity|].
  destruct (String.eqb k' k); simpl; [reflexivity|].
  rewrite IH. now destruct (JsMap.get m k).
Qed.

(** X1. [addNode] stores the node under its name, replacing a node of the
    same name without changing the count; it adds the name to the roots
    exactly when [isRoot] holds; and it only ever adds targets to the
    adjacency index, so the edges of a replaced node stay indexed. *)
Theorem addNode_registers_node_and_edges
        (s : t) (node : GQPNode) (isRoot : bool) :
  (forall nm,
      getNode (addNode s node isRoot) nm
      = if String.eqb (name node) nm then Some node else getNode s nm)
  /\ getNodeCount (addNode s node isRoot)
     = (if JsMap.has (nodes s) (name node) then getNodeCount s
        else getNodeCount s + 1)
  /\ (forall r, In r (rootNodeNames (addNode s node isRoot))
                <-> In r (rootNodeNames s)
                    \/ (isRoot = true /\ r = name node))
  /\ (forall x y,
         In y (targetsOf (addNode s node isRoot) x)
         <-> In y (targetsOf s x)
             \/ (x = name node /\ exists e, In e (edges node) /\ e_to e = y)).
Proof.
  split; [|split; [|split]].
  - intros nm. unfold getNode, addNode. cbn [nodes].
    destruct (String.eqb_spec (name node) nm) as [<-|Hne].
    + apply get_set_same.
    + apply get_set_other. congruence.
  - unfold getNodeCount, addNode, JsMap.size. cbn [nodes].
    rewrite length_set. destruct (JsMap.has (nodes s) (name node)); lia.
  - intros r. unfold addNode. cbn [rootNodeNames].
    destruct isRoot.
    + rewrite JsSet_add_In. intuition.
    + intuition discriminate.
  - intros x y. apply indexEdges_targets.
Qed.

Lemma rootsRegistered_reachable s : schemaReachable s -> rootsRegistered s.
Proof.
  induction 1 as [|s node isRoot _ [Hnd Hroots]|s _ _].
  - split; [constructor|]. intros r [].
  - split; cbn [addNode nodes rootNodeNames].
    + now apply NoDup_keys_set.
    + intros r Hr. rewrite keys_set.
      assert (Hold : In r (rootNodeNames s) ->
                     In r (if JsMap.has (nodes s) (name node)
                           then JsMap.keys (nodes s)
                           else JsMap.keys (nodes s) ++ [name node])).
      { intros H. apply Hroots in H.
        destruct (JsMap.has (nodes s) (name node)); [assumption|].
        apply in_or_app. now left. }
      destruct isRoot; [|now apply Hold].
      apply JsSet_add_In in Hr as [Hr| ->]; [now apply Hold|].
      unfold JsMap.has.
      destruct (JsMap.get (nodes s) (name node)) eqn:Hg.
      * apply get_In in Hg. apply (in_map fst) in Hg. exact Hg.
      * apply in_or_app. right. now left.
  - split; [constructor|]. intros r [].
Qed.

(** X2. In a schema built by [addNode] and [clear], every root name is
    registered: [getRootNodes] returns one node per root name, in the
    order the roots were added, each stored under its own name. *)
Theorem getRootNodes_lists_every_root (s : t) :
  schemaReachable s ->
  map name (getRootNodes s) = rootNodeNames s
  /\ forall n, In n (getRootNodes s) -> getNode s (name n) = Some n.
Proof.
  intros Hs.
  destruct (wfSchema_reachable s Hs) as (Hname & _).
  destruct (rootsRegistered_reachable s Hs) as (_ & Hroots).
  unfold getRootNodes, getNode. split.
  - induction (rootNodeNames s) as [|r rs IH]; [reflexivity|].
    cbn [flat_map]. rewrite map_app, IH by (intros; apply Hroots; now right).
    destruct (JsMap.get (nodes s) r) as [x|] eqn:Hg.
    + simpl. now rewrite (Hname r x Hg).
    + exfalso. apply get_None_keys in Hg. apply Hg, Hroots. now left.
  - intros n Hn. apply in_flat_map in Hn as (r & _ & Hn).
    destruct (JsMap.get (nodes s) r) as [x|] eqn:Hg; [|contradiction].
    destruct Hn as [<-|[]]. now rewrite (Hname r x Hg).
Qed.

Lemma getRootNodes_lists_every_root_witness :
  map name (getRootNodes testSchema) = ["User"; "Order"; "Product"; "Isolated"].
Proof.
  assert (H : schemaReachable testSchema).
  { unfold testSchema, buildSchema. simpl. repeat constructor. }
  exact (proj1 (getRootNodes_lists_every_root testSchema H)).
Defined.

Lemma fold_add_NoDup xs acc : NoDup acc -> NoDup (fold_left JsSet.add xs acc).
Proof.
  revert acc. induction xs as [|x xs IH]; intros acc H; [assumption|].
  simpl. apply IH. now apply JsSet_add_NoDup.
Qed.

Lemma fold_add_In xs acc c :
  In c (fold_left JsSet.add xs acc) <-> In c acc \/ In c xs.
Proof.
  revert acc. induction xs as [|x xs IH]; intros acc; simpl; [tauto|].
  rewrite IH, JsSet_add_In. intuition congruence.
Qed.

(** X3. [getAllCapabilities] lists without repetition exactly the
    capabilities that some registered node declares. *)
Theorem getAllCapabilities_is_distinct_union (s : t) :
  NoDup (GQP.getAllCapabilities s)
  /\ forall c,
      In c (GQP.getAllCapabilities s)
      <-> exists node, In node (getAllNodes s) /\ In c (capabilities node).
Proof.
  unfold GQP.getAllCapabilities, getAllNodes.
  assert (H : forall (l : JsMap.t GQPNode) acc,
             NoDup acc ->
             NoDup (fold_left
                      (fun caps e =>
                         fold_left JsSet.add (capabilities (snd e)) caps)
                      l acc)
             /\ forall c,
                 In c (fold_left
                         (fun caps e =>
                            fold_left JsSet.add (capabilities (snd e)) caps)
                         l acc)
                 <-> In c acc
                     \/ exists node,
                         In node (map snd l) /\ In c (capabilities node)).
  { induction l as [|e l IH]; intros acc Hacc.
    - simpl. split; [assumption|]. intros c. split; [tauto|].
      intros [H|(node & [] & _)]. exact H.
    - cbn [fold_left map].
      destruct (IH (fold_left JsSet.add (capabilities (snd e)) acc)
                   (fold_add_NoDup _ _ Hacc)) as [Hnd Hin].
      split; [assumption|]. intros c. rewrite Hin, fold_add_In.
      split.
      + intros [[H|H]|(node & Hn & Hc)]; [now left| |].
        * right. exists (snd e). split; [now left|assumption].
        * right. exists node. split; [now right|assumption].
      + intros [H|(node & [<-|Hn] & Hc)]; [tauto|tauto|].
        right. exists node. tauto. }
  destruct (H (nodes s) [] (NoDup_nil _)) as [Hnd Hin].
  split; [assumption|]. intros c. rewrite Hin. simpl. tauto.
Qed.

End SchemaFacts.

(** ** Schema graph: search *)

Section SearchFacts.
Import GQPSchema SchemaQueries.

Lemma startsWith_refl s : startsWith s s = true.
Proof.
  induction s as [|c s IH]; [reflexivity|].
  simpl. now rewrite Ascii.eqb_refl.
Qed.

Lemma includesString_refl s : includesString s s = true.
Proof. destruct s; simpl; [reflexivity|]. now rewrite Ascii.eqb_refl, startsWith_refl. Qed.

Lemma includesString_empty s : includesString s "" = true.
Proof. now destruct s. Qed.

Lemma searchScan_firstn lq limit ns acc :
  0 <= limit ->
  (length acc <= Z.to_nat limit)%nat ->
  searchScan lq limit ns acc
  = firstn (Z.to_nat limit) (acc ++ filter (matchesQuery lq) ns).
Proof.
  intros Hl. revert acc.
  induction ns as [|n ns IH]; intros acc Hacc.
  - simpl. rewrite app_nil_r. symmetry. now apply firstn_all2.
  - cbn [searchScan filter].
    destruct (Z.geb_spec (Z.of_nat (length acc)) limit) as [Hfull|Hroom].
    + symmetry. apply firstn_prefix_full. lia.
    + destruct (matchesQuery lq n).
      * rewrite IH by (rewrite length_app; simpl; lia).
        now rewrite <- app_assoc.
      * now apply IH.
Qed.

Lemma searchNodes_firstn (s : t) (q : string) (limit : Z) :
  searchNodes s q limit
  = firstn (Z.to_nat limit)
           (filter (matchesQuery (toLowerCase q)) (getAllNodes s)).
Proof.
  unfold searchNodes.
  destruct (Z.leb_spec 0 limit) as [Hl|Hl].
  - now rewrite searchScan_firstn by (simpl; lia).
  - replace (Z.to_nat limit) with O by lia.
    destruct (getAllNodes s) as [|n ns]; [reflexivity|].
    cbn [searchScan length Z.of_nat].
    destruct (Z.geb_spec 0 limit); [reflexivity|lia].
Qed.

(** X4. [searchNodes] returns, in registration order, the first [limit]
    nodes whose lower-cased name or description contains the lower-cased
    query (nothing for a limit of zero or less); the empty query matches
    every node; and a query equal to a node name up to case finds that
    node when the limit covers the schema. *)
Theorem searchNodes_first_matches (s : t) (q : string) (limit : Z) :
  searchNodes s q limit
  = firstn (Z.to_nat limit)
           (filter (matchesQuery (toLowerCase q)) (getAllNodes s))
  /\ searchNodes s "" limit = firstn (Z.to_nat limit) (getAllNodes s)
  /\ (forall node,
         In node (getAllNodes s) ->
         toLowerCase q = toLowerCase (name node) ->
         getNodeCount s <= limit ->
         In node (searchNodes s q limit)).
Proof.
  split; [apply searchNodes_firstn|]. split.
  - rewrite searchNodes_firstn. f_equal.
    apply forallb_filter_id. apply forallb_forall. intros n _.
    unfold matchesQuery. simpl. now rewrite includesString_empty.
  - intros node Hin Hq Hlimit.
    rewrite searchNodes_firstn, firstn_all2.
    + apply filter_In. split; [assumption|].
      unfold matchesQuery. now rewrite Hq, includesString_refl.
    + pose proof (filter_length_le (matchesQuery (toLowerCase q))
                                   (getAllNodes s)) as Hle.
      unfold getNodeCount, JsMap.size, getAllNodes in *.
      rewrite length_map in *. lia.
Qed.

End SearchFacts.

(** ** Schema graph: serialisation *)

Section SerialisationFacts.
Import GQPSchema SchemaQueries.

Lemma set_fresh {V} (m : JsMap.t V) k v :
  ~ In k (JsMap.keys m) -> JsMap.set m k v = m ++ [(k, v)].
Proof.
  induction m as [|[k' v'] m IH]; intros Hk; [reflexivity|].
  simpl in *. destruct (String.eqb_spec k' k) as [->|Hne]; [tauto|].
  rewrite IH by tauto. reflexivity.
Qed.

Lemma addAll_nodes (f : GQPNode -> bool) (l : JsMap.t GQPNode) (s0 : t) :
  NoDup (JsMap.keys (nodes s0) ++ JsMap.keys l) ->
  (forall k x, In (k, x) l -> name x = k) ->
  nodes (fold_left (fun sc n => addNode sc n (f n)) (map snd l) s0)
  = nodes s0 ++ l.
Proof.
  revert s0. induction l as [|[k x] l IH]; intros s0 Hnd Hname.
  - simpl. now rewrite app_nil_r.
  - cbn [map fold_left snd]. rewrite IH.
    + cbn [addNode nodes]. rewrite (Hname k x) by now left.
      rewrite set_fresh.
      * now rewrite <- app_assoc.
      * intros Hin. apply NoDup_remove_2 in Hnd. apply Hnd.
        apply in_or_app. now left.
    + cbn [addNode nodes]. rewrite (Hname k x) by now left.
      rewrite keys_set.
      assert (Hk : ~ In k (JsMap.keys (nodes s0))).
      { intros Hin. apply NoDup_remove_2 in Hnd. apply Hnd.
        apply in_or_app. now left. }
      unfold JsMap.has.
      destruct (JsMap.get (nodes s0) k) eqn:Hg.
      * exfalso. apply Hk. apply get_In in Hg.
        apply (in_map fst) in Hg. exact Hg.
      * rewrite <- app_assoc. exact Hnd.
    + intros k' x' Hin. apply Hname. now right.
Qed.

Lemma addAll_roots (f : GQPNode -> bool) (ns : list GQPNode) (s0 : t) r :
  In r (rootNodeNames (fold_left (fun sc n => addNode sc n (f n)) ns s0))
  <-> In r (rootNodeNames s0)
      \/ exists n, In n ns /\ name n = r /\ f n = true.
Proof.
  revert s0. induction ns as [|n ns IH]; intros s0.
  - simpl. split; [tauto|]. intros [H|(n & [] & _)]. exact H.
  - cbn [fold_left]. rewrite IH. cbn [addNode rootNodeNames].
    split.
    + intros [H|(n' & Hin & Hn)].
      * destruct (f n) eqn:Hf; [|now left].
        apply JsSet_add_In in H as [H| ->]; [now left|].
        right. exists n. simpl. auto.
      * right. exists n'. simpl. tauto.
    + intros [H|(n' & [<-|Hin] & Hn & Hf)].
      * left. destruct (f n); [|assumption]. apply JsSet_add_In. now left.
      * left. rewrite Hf. apply JsSet_add_In. now right.
      * right. exists n'. auto.
Qed.

Lemma addAll_targets (f : GQPNode -> bool) (ns : list GQPNode) (s0 : t) x y :
  In y (targetsOf (fold_left (fun sc n => addNode sc n (f n)) ns s0) x)
  <-> In y (targetsOf s0 x) \/ declaredEdge ns x y.
Proof.
  revert s0. induction ns as [|n ns IH]; intros s0.
  - simpl. split; [tauto|]. intros [H|(node & e & [] & _)]. exact H.
  - cbn [fold_left]. rewrite IH.
    assert (Hadd : In y (targetsOf (addNode s0 n (f n)) x)
                   <-> In y (targetsOf s0 x)
                       \/ (x = name n
                           /\ exists e, In e (edges n) /\ e_to e = y))
      by apply indexEdges_targets.
    unfold declaredEdge. split.
    + intros [H|(node & e & Hn & Hrest)].
      * apply Hadd in H as [H|[-> [e [Hin He]]]]; [now left|].
        right. exists n, e. simpl. auto.
      * right. exists node, e. simpl. tauto.
    + intros [H|(node & e & [<-|Hn] & Hname & Hin & He)].
      * left. apply Hadd. now left.
      * left. apply Hadd. right. split; [now symmetry|]. eauto.
      * right. exists node, e. auto.
Qed.

Lemma declaredEdge_current s x y :
  wfSchema s -> NoDup (JsMap.keys (nodes s)) ->
  declaredEdge (getAllNodes s) x y <-> currentEdge s x y.
Proof.
  intros (Hname & _) Hnd. unfold declaredEdge, currentEdge, getAllNodes, getNode.
  split.
  - intros (node & e & Hin & Hx & He & Hy).
    apply in_map_iff in Hin as ([k n] & Hsnd & Hin). simpl in Hsnd. subst n.
    pose proof (In_get_NoDup _ _ _ Hnd Hin) as Hg.
    pose proof (Hname _ _ Hg) as Hk. exists node, e.
    split; [|tauto]. congruence.
  - intros (node & e & Hg & He & Hy). exists node, e.
    split; [|split; [now apply Hname|tauto]].
    apply get_In in Hg. apply (in_map snd) in Hg. exact Hg.
Qed.

(** X5. Serialising a schema built by [addNode] and [clear] and reading
    it back gives the same node map and the same set of roots, and an
    adjacency index rebuilt from the edges of the nodes registered now:
    targets left behind by replaced nodes are gone. *)
Theorem fromJSON_toJSON_rebuilds (s : t) :
  schemaReachable s ->
  nodes (fromJSON (toJSON s)) = nodes s
  /\ (forall r, In r (rootNodeNames (fromJSON (toJSON s)))
                <-> In r (rootNodeNames s))
  /\ (forall x y, In y (targetsOf (fromJSON (toJSON s)) x)
                  <-> currentEdge s x y).
Proof.
  intros Hs.
  pose proof (wfSchema_reachable s Hs) as Hwf.
  destruct (rootsRegistered_reachable s Hs) as (Hnd & Hroots).
  unfold fromJSON, toJSON. cbn [j_nodes j_rootNodes].
  split; [|split].
  - unfold getAllNodes. rewrite addAll_nodes; [reflexivity|exact Hnd|].
    intros k x Hin. apply Hwf. now apply In_get_NoDup.
  - intros r. rewrite addAll_roots. split.
    + intros [[]|(n & _ & <- & Hf)]. now apply stringIn_In.
    + intros Hr. right. pose proof (Hroots r Hr) as Hk.
      destruct (JsMap.get (nodes s) r) as [x|] eqn:Hg.
      * exists x. split; [|split].
        -- apply get_In in Hg. apply (in_map snd) in Hg. exact Hg.
        -- now apply Hwf.
        -- apply stringIn_In. destruct Hwf as (Hname & _).
           now rewrite (Hname r x Hg).
      * apply get_None_keys in Hg. contradiction.
  - intros x y. rewrite addAll_targets. rewrite declaredEdge_current by assumption.
    split; [intros [[]|H]; exact H|now right].
Qed.

Lemma fromJSON_toJSON_rebuilds_witness :
  nodes (fromJSON (toJSON testSchema)) = nodes testSchema.
Proof.
  assert (H : schemaReachable testSchema).
  { unfold testSchema, buildSchema. simpl. repeat constructor. }
  exact (proj1 (fromJSON_toJSON_rebuilds testSchema H)).
Defined.

End SerialisationFacts.

(** ** Cursor: reachability *)

Section ReachFacts.
Import GQPSchema GQPGraphCursor.

Lemma findPath_outcome (s : GQPSchema.t) (from to : string) (maxDepth : Z) :
  from <> to ->
  getNode s from <> None -> getNode s to <> None ->
  outcomeOk s from to maxDepth (findPath s from to maxDepth).
Proof.
  intros Hne Hfrom Hto. unfold findPath, getNode, JsMap.has in *.
  destruct (String.eqb_spec from to) as [|_]; [contradiction|].
  destruct (JsMap.get (nodes s) from); [|congruence].
  destruct (JsMap.get (nodes s) to); [|congruence].
  cbn [negb orb].
  assert (Hfuel : (length [mkEntry from [from]]
                   + weightOf (edgeIndex s) []
                   <= S (edgeCount s))%nat).
  { rewrite weightOf_nil. unfold edgeCount. simpl. lia. }
  destruct (bfsLoop_correct s from to maxDepth (S (edgeCount s))
                            [mkEntry from [from]] [] Hne
                            (inv_start s from to maxDepth) Hfuel)
    as (r & Hloop & Hok).
  now rewrite Hloop.
Qed.

(** X7. [canReach] answers true for a cursor without a position, and for
    a positioned cursor exactly when the target is the current node or
    both are registered and a walk of at most [maxDepth] hops leads from
    the current node to the target. *)
Theorem canReach_iff_path_within
        (schema : GQPSchema.t) (c : GQPGraphCursor.t) (nodeName : string)
        (maxDepth : Z) :
  canReach schema c nodeName maxDepth = true
  <-> match truthy (currentNode (cursor c)) with
      | None => True
      | Some cur =>
          cur = nodeName
          \/ (getNode schema cur <> None
              /\ getNode schema nodeName <> None
              /\ reachableWithin schema cur nodeName maxDepth)
      end.
Proof.
  unfold canReach.
  destruct (truthy (currentNode (cursor c))) as [cur|]; [|tauto].
  destruct (String.eqb_spec cur nodeName) as [->|Hne].
  - unfold findPath. rewrite String.eqb_refl. tauto.
  - destruct (getNode schema cur) as [n1|] eqn:H1.
    + destruct (getNode schema nodeName) as [n2|] eqn:H2.
      * assert (Hok : outcomeOk schema cur nodeName maxDepth
                                (findPath schema cur nodeName maxDepth)).
        { apply findPath_outcome; congruence. }
        destruct (findPath schema cur nodeName maxDepth) as [p|].
        -- split; [|reflexivity]. intros _. right.
           destruct Hok as (Hw & Hh & _).
           repeat split; try discriminate. now exists p.
        -- split; [discriminate|].
           intros [Heq|(_ & _ & p & Hw & Hh)]; [contradiction|].
           specialize (Hok p Hw). lia.
      * unfold findPath, JsMap.has. unfold getNode in *.
        destruct (String.eqb_spec cur nodeName); [contradiction|].
        rewrite H1, H2. simpl. split; [discriminate|].
        intros [Heq|(_ & Hn & _)]; [contradiction|congruence].
    + unfold findPath, JsMap.has. unfold getNode in *.
      destruct (String.eqb_spec cur nodeName); [contradiction|].
      rewrite H1. simpl. split; [discriminate|].
      intros [Heq|(Hn & _)]; [contradiction|congruence].
Qed.

End ReachFacts.

(** ** Schema graph: declared edges *)

Section EdgeFacts.
Import GQPSchema.

Lemma edges_indexed s :
  schemaReachable s ->
  forall k node e,
    getNode s k = Some node -> In e (edges node) ->
    In (e_to e) (targetsOf s k).
Proof.
  induction 1 as [|s n isRoot _ IH|s _ _]; intros k node e Hnode He.
  - discriminate.
  - apply indexEdges_targets.
    unfold getNode, addNode in Hnode. cbn [nodes] in Hnode.
    destruct (String.eqb_spec (name n) k) as [<-|Hne].
    + rewrite get_set_same in Hnode. injection Hnode as <-.
      right. split; [reflexivity|]. eauto.
    + rewrite get_set_other in Hnode by congruence.
      left. now apply (IH k node e).
  - discriminate.
Qed.

(** X6. In a schema built by [addNode] and [clear], an edge that
    [getEdge] reports leads to the requested target and is in the adjacency
    index; [findPath] then answers with the two-node path whenever the
    endpoints differ, the target is registered and one hop is allowed. *)
Theorem getEdge_is_a_one_hop_path
        (s : t) (from to : string) (e : GQPEdge) (maxDepth : Z) :
  schemaReachable s ->
  getEdge s from to = Some e ->
  e_to e = to
  /\ In to (targetsOf s from)
  /\ (from <> to -> getNode s to <> None -> 1 <= maxDepth ->
      findPath s from to maxDepth = Some [from; to]).
Proof.
  intros Hs Hedge. unfold getEdge in Hedge.
  destruct (JsMap.get (nodes s) from) as [node|] eqn:Hnode; [|discriminate].
  apply find_some in Hedge as (Hin & Hto).
  apply String.eqb_eq in Hto.
  assert (Hidx : In to (targetsOf s from)).
  { rewrite <- Hto. now apply (edges_indexed s Hs from node e). }
  split; [assumption|]. split; [assumption|].
  intros Hne Hreg Hdepth.
  assert (Hwalk : walk s from to [from; to]).
  { apply (walk_step s from from to [from]); [constructor|exact Hidx]. }
  assert (Hfrom : getNode s from <> None) by (unfold getNode; congruence).
  pose proof (findPath_outcome s from to maxDepth Hne Hfrom Hreg) as Hok.
  destruct (findPath s from to maxDepth) as [p|].
  - destruct Hok as (Hp & _ & Hmin).
    specialize (Hmin _ Hwalk). apply walk_endpoints in Hp as (Hhd & Hlast).
    destruct p as [|a [|b [|c p]]]; simpl in *; try lia.
    + discriminate.
    + injection Hhd as ->. congruence.
    + injection Hhd as ->. now subst b.
  - specialize (Hok _ Hwalk). unfold hops in Hok. simpl in Hok. lia.
Qed.

Lemma getEdge_is_a_one_hop_path_witness :
  findPath testSchema "Order" "Product" 4 = Some ["Order"; "Product"].
Proof.
  refine (proj2 (proj2 (getEdge_is_a_one_hop_path
                          testSchema "Order" "Product"
                          (mkEdge "products" "Product" hasMany) 4 _ _))
                _ _ _).
  - unfold testSchema, buildSchema. simpl. repeat constructor.
  - reflexivity.
  - discriminate.
  - discriminate.
  - lia.
Defined.

End EdgeFacts.

(** ** Cursor: path, suggestions and views *)

Section CursorPathFacts.
Import GQPGraphCursor.

Lemma truthy_idem o : truthy (truthy o) = truthy o.
Proof.
  destruct o as [s|]; [|reflexivity]. simpl.
  destruct (String.eqb s "") eqn:E; [reflexivity|]. simpl. now rewrite E.
Qed.

Lemma last_snoc_some (p : list string) (n : string) :
  last (map Some (p ++ [n])) None = Some n.
Proof. rewrite map_app. simpl. apply last_last. Qed.

Lemma new_shape schema start maxLen suffix now :
  let c := new schema start maxLen suffix now in
  maxPathLength c = maxLen
  /\ currentNode (cursor c) = truthy start
  /\ path (cursor c)
     = match truthy start with Some s => [s] | None => [] end.
Proof.
  unfold new. destruct (truthy start); simpl; auto.
Qed.

(** X8. With a window of at least one entry, every state a cursor can
    reach keeps its path within the window, and its current node is the
    last entry of its path. *)
Theorem cursor_path_within_window
        (schema : GQPSchema.t) (maxLen : Z) (c : t) :
  1 <= maxLen ->
  reachable schema maxLen c ->
  Z.of_nat (length (path (cursor c))) <= maxLen
  /\ truthy (currentNode (cursor c)) = lastVisited (path (cursor c))
  /\ maxPathLength c = maxLen.
Proof.
  intros Hmax Hreach. unfold lastVisited.
  induction Hreach as [start suffix now|c nodeName c' view _ IH Hnav
                       |c _ IH|c _ IH].
  - destruct (new_shape schema start maxLen suffix now) as (Hm & Hc & Hp).
    rewrite Hm, Hc, Hp, truthy_idem.
    destruct start as [s|]; simpl; [|repeat split; lia].
    destruct (String.eqb s "") eqn:E; simpl; [repeat split; lia|].
    rewrite E. repeat split; lia.
  - destruct IH as (Hlen & _ & Hm).
    destruct (navigateTo_state schema c nodeName c' view Hnav)
      as (Hcur & Hpath & _ & _ & Hm').
    rewrite Hcur, Hpath, Hm', Hm, last_snoc_some.
    repeat split; try reflexivity.
    rewrite length_app. simpl.
    destruct (Z.geb_spec (Z.of_nat (length (path (cursor c)))) maxLen).
    + destruct (path (cursor c)); simpl in *; lia.
    + lia.
  - destruct IH as (Hlen & Hlast & Hm). unfold goBack.
    destruct (Z.leb_spec (Z.of_nat (length (path (cursor c)))) 1);
      cbn [fst]; [auto|].
    cbn [cursor maxPathLength].
    destruct (updateNeighbors_fields
                schema
                (mkCursor (id (cursor c))
                          (truthy (last (map Some (removelast (path (cursor c))))
                                        None))
                          (neighbors (cursor c))
                          (removelast (path (cursor c)))
                          (Z.max 0 (depth (cursor c) - 1))
                          (createdAt (cursor c)) (totalNodes (cursor c))
                          (exploredNodes (cursor c))))
      as (_ & Hc & Hp & _).
    rewrite Hc, Hp. cbn [currentNode path]. rewrite truthy_idem.
    repeat split; try assumption.
    destruct (path (cursor c)) as [|x p] using rev_ind; [simpl in *; lia|].
    rewrite removelast_last. rewrite length_app in *. simpl in *. lia.
  - destruct IH as (_ & _ & Hm). simpl. repeat split; [lia|assumption].
Qed.

Lemma cursor_path_within_window_witness :
  Z.of_nat (length (path (cursor (run2 testSchema
                                       (new testSchema (Some "User") 2 "a" 0)
                                       "Order" "Product")))) <= 2.
Proof.
  apply (cursor_path_within_window
           testSchema 2
           (run2 testSchema (new testSchema (Some "User") 2 "a" 0)
                 "Order" "Product")).
  - lia.
  - apply run2_reachable. constructor.
Defined.

(** X9. While the window has room, [goBack] after a successful
    [navigateTo] restores the path, the position and the depth the cursor
    had; from a cursor without a position [navigateTo] cannot be undone:
    [goBack] returns null and leaves the cursor where it is. *)
Theorem goBack_undoes_navigateTo
        (schema : GQPSchema.t) (c : t) (nodeName : string)
        (c1 : t) (view : NeighborhoodView) :
  navigateTo schema c nodeName = Ok (c1, view) ->
  Z.of_nat (length (path (cursor c))) < maxPathLength c ->
  (path (cursor c) <> [] ->
   path (cursor (fst (goBack schema c1))) = path (cursor c)
   /\ currentNode (cursor (fst (goBack schema c1)))
      = lastVisited (path (cursor c))
   /\ depth (cursor (fst (goBack schema c1)))
      = Z.of_nat (length (path (cursor c))) - 1
   /\ snd (goBack schema c1) <> None)
  /\ (path (cursor c) = [] -> goBack schema c1 = (c1, None)).
Proof.
  intros Hnav Hroom.
  destruct (navigateTo_state schema c nodeName c1 view Hnav)
    as (Hcur & Hpath & Hdepth & _ & _).
  destruct (Z.geb_spec (Z.of_nat (length (path (cursor c))))
                       (maxPathLength c)); [lia|].
  unfold goBack. rewrite Hpath, length_app. cbn [length].
  split.
  - intros Hne.
    destruct (Z.leb_spec (Z.of_nat (length (path (cursor c)) + 1)) 1).
    + destruct (path (cursor c)); [contradiction|simpl in *; lia].
    + cbn [fst snd cursor].
      match goal with
      | |- context [updateNeighbors schema ?x] =>
          destruct (updateNeighbors_fields schema x)
            as (_ & Hc & Hp & Hd & _)
      end.
      rewrite Hc, Hp, Hd. cbn [currentNode path depth].
      rewrite removelast_last, Hdepth. unfold lastVisited.
      repeat split; try discriminate.
      destruct (path (cursor c)); [contradiction|]. simpl length. lia.
  - intros Hnil. rewrite Hnil. reflexivity.
Qed.

Lemma goBack_undoes_navigateTo_witness :
  exists c1 view,
    navigateTo testSchema (new testSchema (Some "User") 100 "a" 0) "Order"
    = Ok (c1, view)
    /\ path (cursor (fst (goBack testSchema c1))) = ["User"].
Proof.
  destruct (navigateTo testSchema (new testSchema (Some "User") 100 "a" 0)
                       "Order") as [[c1 view]|e] eqn:Hnav;
    [|vm_compute in Hnav; discriminate Hnav].
  exists c1, view. split; [reflexivity|].
  refine (proj1 (proj1 (goBack_undoes_navigateTo
                          testSchema _ "Order" c1 view Hnav _) _)).
  - vm_compute. reflexivity.
  - discriminate.
Defined.

Lemma slice0_In {A} (l : list A) (n : Z) x : In x (slice0 l n) -> In x l.
Proof. unfold slice0. destruct (n <? 0); apply firstn_In. Qed.

Lemma slice0_length {A} (l : list A) (n : Z) :
  0 <= n -> Z.of_nat (length (slice0 l n)) <= n.
Proof.
  intros Hn. unfold slice0. destruct (Z.ltb_spec n 0); [lia|].
  rewrite length_firstn. lia.
Qed.

(** X10. For a positioned cursor [getSuggestedNodes] returns at most
    [limit] names, each the name of one of the first ten neighbours of the
    current node, none of them on the path. *)
Theorem getSuggestedNodes_are_unvisited_neighbors
        (schema : GQPSchema.t) (c : t) (limit : Z) (cur : string) :
  truthy (currentNode (cursor c)) = Some cur ->
  0 <= limit ->
  (forall x, In x (getSuggestedNodes schema c limit) ->
             ~ In x (path (cursor c))
             /\ In x (map name (GQPSchema.getNeighbors schema cur 10)))
  /\ Z.of_nat (length (getSuggestedNodes schema c limit)) <= limit.
Proof.
  intros Hcur Hlimit. unfold getSuggestedNodes. rewrite Hcur. split.
  - intros x Hx. apply in_map_iff in Hx as (n & <- & Hn).
    apply slice0_In, filter_In in Hn as (Hn & Hvis).
    split.
    + apply JsSet_has_false. now apply negb_true_iff.
    + now apply in_map.
  - rewrite length_map. now apply slice0_length.
Qed.

Lemma getSuggestedNodes_are_unvisited_neighbors_witness :
  getSuggestedNodes testSchema
    (run2 testSchema (new testSchema (Some "User") 100 "a" 0)
          "Order" "Order") 3
  = ["Product"]
  /\ Z.of_nat (length (getSuggestedNodes testSchema
                         (run2 testSchema
                               (new testSchema (Some "User") 100 "a" 0)
                               "Order" "Order") 3)) <= 3.
Proof.
  split; [reflexivity|].
  apply (getSuggestedNodes_are_unvisited_neighbors
           testSchema
           (run2 testSchema (new testSchema (Some "User") 100 "a" 0)
                 "Order" "Order") 3 "Order").
  - reflexivity.
  - lia.
Defined.

Lemma getNeighbors_registered s n limit x :
  wfSchema s ->
  In x (GQPSchema.getNeighbors s n limit) ->
  GQPSchema.getNode s (name x) = Some x.
Proof.
  intros Hwf Hx.
  destruct (GQPSchema.getNode s n) eqn:Hn.
  - rewrite getNeighbors_firstn in Hx by congruence.
    apply firstn_In, reverseAll_In in Hx
      as [Hx|(src & ts & _ & _ & _ & Hg)].
    + now apply forward_In in Hx.
    + destruct Hwf as (Hname & _). unfold GQPSchema.getNode.
      now rewrite (Hname src x Hg).
  - unfold GQPSchema.getNeighbors, GQPSchema.getNode in *.
    rewrite Hn in Hx. contradiction.
Qed.

Lemma getRootNodes_registered s x :
  wfSchema s ->
  In x (GQPSchema.getRootNodes s) ->
  GQPSchema.getNode s (name x) = Some x.
Proof.
  intros (Hname & _) Hx. unfold GQPSchema.getRootNodes in Hx.
  apply in_flat_map in Hx as (r & _ & Hx).
  destruct (JsMap.get (GQPSchema.nodes s) r) as [y|] eqn:Hg; [|contradiction].
  destruct Hx as [<-|[]]. unfold GQPSchema.getNode.
  now rewrite (Hname r y Hg).
Qed.

(** X11. Every neighbour that [getNeighborhood] lists, in the root view
    as in the view of a node, is a registered node: [navigateTo] accepts
    its name and positions the cursor there. *)
Theorem listed_neighbors_are_navigable
        (schema : GQPSchema.t) (c : t) (size : Z) (nv : NeighborView) :
  wfSchema schema ->
  In nv (v_neighbors (getNeighborhood schema c size)) ->
  exists c' view,
    navigateTo schema c (nv_name nv) = Ok (c', view)
    /\ currentNode (cursor c') = Some (nv_name nv).
Proof.
  intros Hwf Hnv.
  assert (Hreg : GQPSchema.getNode schema (nv_name nv) <> None).
  { unfold getNeighborhood in Hnv.
    destruct (match truthy (currentNode (cursor c)) with
              | Some nm => GQPSchema.getNode schema nm
              | None => None
              end) as [node|].
    - destruct (currentNode (cursor c)) as [nm|].
      + cbn [v_neighbors] in Hnv. apply in_map_iff in Hnv as (x & <- & Hx).
        cbn [nv_name]. now rewrite (getNeighbors_registered _ _ _ _ Hwf Hx).
      + cbn [v_neighbors] in Hnv. apply in_map_iff in Hnv as (x & <- & Hx).
        apply slice0_In in Hx. cbn [nv_name].
        now rewrite (getRootNodes_registered _ _ Hwf Hx).
    - cbn [v_neighbors] in Hnv. apply in_map_iff in Hnv as (x & <- & Hx).
      apply slice0_In in Hx. cbn [nv_name].
      now rewrite (getRootNodes_registered _ _ Hwf Hx). }
  destruct (navigateTo schema c (nv_name nv)) as [[c' view]|e] eqn:Hnav.
  - exists c', view. split; [reflexivity|].
    now destruct (navigateTo_state _ _ _ _ _ Hnav).
  - exfalso. unfold navigateTo in Hnav.
    destruct (GQPSchema.getNode schema (nv_name nv)); [discriminate|].
    now apply Hreg.
Qed.

Lemma listed_neighbors_are_navigable_witness :
  exists c' view,
    navigateTo testSchema (new testSchema (Some "User") 100 "a" 0) "Order"
    = Ok (c', view)
    /\ currentNode (cursor c') = Some "Order".
Proof.
  apply (listed_neighbors_are_navigable
           testSchema (new testSchema (Some "User") 100 "a" 0) 5
           (mkNeighborView "Order" (Some "Customer orders") hasMany 1)).
  - apply wfSchema_buildSchema.
  - simpl. left. reflexivity.
Defined.

End CursorPathFacts.

(** ** Cursor pool: lookup and removal *)

Section PoolLookupFacts.
Import CursorManager.

Lemma get_delete_other {V} (m : JsMap.t V) k k' :
  k' <> k -> JsMap.get (JsMap.delete m k) k' = JsMap.get m k'.
Proof.
  intros Hne. unfold JsMap.delete.
  induction m as [|[k0 v0] m IH]; [reflexivity|].
  simpl. destruct (String.eqb_spec k0 k) as [->|Hk]; simpl.
  - destruct (String.eqb_spec k k'); [congruence|assumption].
  - now rewrite IH.
Qed.

Lemma get_outcome (m : t) (cid : string) (now : Z) :
  (forall c, snd (get m cid now) = Some c
             <-> JsMap.get (cursors m) cid = Some c
                 /\ now - GQPGraphCursor.getCreatedAt c <= cursorTTL m)
  /\ (snd (get m cid now) <> None -> fst (get m cid now) = m)
  /\ maxPathLength (fst (get m cid now)) = maxPathLength m.
Proof.
  unfold get, isExpired.
  destruct (JsMap.get (cursors m) cid) as [c0|] eqn:Hg.
  - destruct (Z.gtb_spec (now - GQPGraphCursor.getCreatedAt c0)
                         (cursorTTL m)) as [Hexp|Hlive]; cbn [fst snd].
    + split; [|split; [|reflexivity]].
      * intros c. split; [discriminate|]. intros [[= <-] H]. lia.
      * intros H. now contradiction H.
    + split; [|split; reflexivity].
      intros c. split.
      * intros [= <-]. split; [reflexivity|lia].
      * now intros [H _].
  - cbn [fst snd]. split; [|split; reflexivity].
    intros c. split; [discriminate|]. now intros [H _].
Qed.

(** X12. [get] returns the cursor stored under the identifier exactly when
    its age is at most the time to live (an age equal to it is still
    live); an expired cursor is removed, a live one leaves the pool
    untouched, and no other identifier is affected. *)
Theorem get_expires_lazily (m : t) (cid : string) (now : Z) :
  (forall c, snd (get m cid now) = Some c
             <-> JsMap.get (cursors m) cid = Some c
                 /\ now - GQPGraphCursor.getCreatedAt c <= cursorTTL m)
  /\ (snd (get m cid now) = None ->
      JsMap.get (cursors (fst (get m cid now))) cid = None)
  /\ (snd (get m cid now) <> None -> fst (get m cid now) = m)
  /\ (forall k, k <> cid ->
                JsMap.get (cursors (fst (get m cid now))) k
                = JsMap.get (cursors m) k).
Proof.
  destruct (get_outcome m cid now) as (Hsome & Hsame & _).
  split; [assumption|]. split; [|split; [assumption|]].
  - unfold get.
    destruct (JsMap.get (cursors m) cid) as [c0|] eqn:Hg;
      [|intros _; exact Hg].
    destruct (isExpired m now c0); [|discriminate].
    intros _. apply get_delete_same.
  - intros k Hk. unfold get.
    destruct (JsMap.get (cursors m) cid) as [c0|]; [|reflexivity].
    destruct (isExpired m now c0); [|reflexivity].
    now apply get_delete_other.
Qed.

Lemma has_get {V} (m : JsMap.t V) k :
  JsMap.has m k = true <-> JsMap.get m k <> None.
Proof.
  unfold JsMap.has. destruct (JsMap.get m k); split; congruence.
Qed.

Lemma delete_absent {V} (m : JsMap.t V) k :
  JsMap.get m k = None -> JsMap.delete m k = m.
Proof.
  unfold JsMap.delete. induction m as [|[k0 v0] m IH]; [reflexivity|].
  simpl. destruct (String.eqb_spec k0 k); [discriminate|].
  intros H. simpl. now rewrite IH.
Qed.

(** X13. [delete] answers true exactly when the identifier was present;
    afterwards [get] finds nothing under it, every other identifier is
    untouched and the pool is smaller by one exactly when it answered
    true. *)
Theorem delete_removes_only_that_cursor (m : t) (cid : string) :
  wfPool m ->
  (snd (delete m cid) = true <-> JsMap.get (cursors m) cid <> None)
  /\ (forall now, snd (get (fst (delete m cid)) cid now) = None)
  /\ (forall k, k <> cid ->
                JsMap.get (cursors (fst (delete m cid))) k
                = JsMap.get (cursors m) k)
  /\ size (fst (delete m cid))
     = size m - (if snd (delete m cid) then 1 else 0).
Proof.
  intros (Hnd & _). unfold delete. cbn [fst snd].
  split; [apply has_get|]. split; [|split].
  - intros now. unfold get. cbn [cursors withCursors].
    now rewrite get_delete_same.
  - intros k Hk. now apply get_delete_other.
  - unfold size, JsMap.size, JsMap.has. cbn [cursors withCursors].
    destruct (JsMap.get (cursors m) cid) as [c|] eqn:Hg.
    + apply get_In in Hg.
      pose proof (length_delete_present _ _ _ Hnd Hg). lia.
    + rewrite delete_absent by assumption. lia.
Qed.

Lemma delete_removes_only_that_cursor_witness :
  snd (delete poolOfThree "cursor_b") = true
  /\ size (fst (delete poolOfThree "cursor_b")) = 2.
Proof.
  assert (Hwf : wfPool poolOfThree).
  { split; simpl.
    - repeat constructor; simpl; intuition discriminate.
    - intuition discriminate. }
  destruct (delete_removes_only_that_cursor poolOfThree "cursor_b" Hwf)
    as (_ & _ & _ & Hsize).
  split; [reflexivity|exact Hsize].
Defined.

Lemma create_registers m schema start now suffix stamp :
  JsMap.get (cursors (fst (create m schema start now suffix stamp)))
            (GQPGraphCursor.getId (snd (create m schema start now suffix stamp)))
  = Some (snd (create m schema start now suffix stamp))
  /\ snd (create m schema start now suffix stamp)
     = GQPGraphCursor.new schema start (maxPathLength m) suffix stamp.
Proof.
  unfold create. cbn [fst snd cursors withCursors].
  split; [apply get_set_same|].
  destruct (evictExpired_config m now) as (_ & _ & Hlen).
  destruct (size (evictExpired m now) >=? maxCursors (evictExpired m now)).
  - destruct (evictOldest_config (evictExpired m now)) as (_ & ->).
    now rewrite Hlen.
  - now rewrite Hlen.
Qed.

Lemma idKeyed_Forall (m : t) :
  Forall (fun e => GQPGraphCursor.getId (snd e) = fst e) (cursors m) ->
  idKeyed m.
Proof.
  intros H k c Hg. apply get_In in Hg.
  rewrite Forall_forall in H. exact (H (k, c) Hg).
Qed.

(** X14. In a pool that stores every cursor under its own identifier,
    the cursor that [getOrCreate] hands out is registered under its
    identifier; a live cursor is returned as it is, the pool unchanged and
    the start node ignored; otherwise the cursor is a new one. *)
Theorem getOrCreate_hands_out_registered_cursor
        (m : t) (schema : GQPSchema.t) (cid start : option string)
        (now : Z) (suffix : string) (stamp : Z) :
  idKeyed m ->
  JsMap.get
    (cursors (fst (getOrCreate m schema cid start now suffix stamp)))
    (GQPGraphCursor.getId
       (snd (getOrCreate m schema cid start now suffix stamp)))
  = Some (snd (getOrCreate m schema cid start now suffix stamp))
  /\ (forall i c,
         truthy cid = Some i -> snd (get m i now) = Some c ->
         getOrCreate m schema cid start now suffix stamp = (m, c))
  /\ ((forall i, truthy cid = Some i -> snd (get m i now) = None) ->
      snd (getOrCreate m schema cid start now suffix stamp)
      = GQPGraphCursor.new schema start (maxPathLength m) suffix stamp).
Proof.
  intros Hkeyed. unfold getOrCreate.
  destruct (truthy cid) as [i|].
  - destruct (get_outcome m i now) as (Hsome & Hsame & Hlen).
    destruct (get m i now) as [m' [existing|]] eqn:Hget; cbn [fst snd] in *.
    + destruct (proj1 (Hsome existing) eq_refl) as (Hg & _).
      rewrite (Hsame ltac:(discriminate)) in *.
      rewrite (Hkeyed i existing Hg).
      split; [assumption|]. split.
      * intros i' c [= <-]. rewrite Hget. cbn [snd]. now intros [= <-].
      * intros H. specialize (H i eq_refl). rewrite Hget in H.
        discriminate.
    + destruct (create_registers m' schema start now suffix stamp)
        as (Hreg & Hnew).
      split; [assumption|]. split.
      * intros i' c [= <-]. rewrite Hget. discriminate.
      * intros _. now rewrite Hnew, Hlen.
  - destruct (create_registers m schema start now suffix stamp)
      as (Hreg & Hnew).
    split; [assumption|]. split; [discriminate|]. now intros _.
Qed.

Lemma getOrCreate_hands_out_registered_cursor_witness :
  getOrCreate poolOfThree testSchema (Some "cursor_b") (Some "User")
              10 "z" 10
  = (poolOfThree, GQPGraphCursor.new testSchema None 100 "b" 2).
Proof.
  refine (proj1 (proj2 (getOrCreate_hands_out_registered_cursor
                          poolOfThree testSchema (Some "cursor_b")
                          (Some "User") 10 "z" 10 _))
                "cursor_b" _ eq_refl eq_refl).
  apply idKeyed_Forall. vm_compute. repeat constructor.
Defined.

Lemma create_leaves_one_without_capacity
      (schema : GQPSchema.t) (m : t)
      (start : option string) (now : Z) (suffix : string) (stamp : Z) :
  wfPool m -> maxCursors m <= 0 -> size m <= 1 ->
  wfPool (fst (create m schema start now suffix stamp))
  /\ maxCursors (fst (create m schema start now suffix stamp))
     = maxCursors m
  /\ size (fst (create m schema start now suffix stamp)) = 1.
Proof.
  intros [Hnd Hne] Hmax Hone.
  unfold create. cbn zeta. cbn [fst].
  pose proof (evictExpired_live m now Hnd) as Hlive.
  pose proof (live_length_le m now) as Hle.
  destruct (evictExpired_config m now) as (Hmax1 & _ & _).
  set (m1 := evictExpired m now) in *.
  assert (Hwf1 : wfPool m1).
  { split; rewrite Hlive; unfold live.
    - now apply NoDup_keys_filter.
    - intros Hin. apply Hne. unfold JsMap.keys in *.
      apply in_map_iff in Hin as [e [He Hin]].
      apply filter_In in Hin as [Hin _]. rewrite <- He.
      now apply in_map. }
  assert (Hfull : (size m1 >=? maxCursors m1) = true).
  { apply Z.geb_le. unfold size, JsMap.size. lia. }
  rewrite Hfull.
  destruct (evictOldest_config m1) as (Hmax2 & _).
  assert (Hcount : (length (cursors m1) <= 1)%nat).
  { rewrite Hlive. unfold size, JsMap.size in Hone. lia. }
  assert (Hgone : cursors (evictOldest m1) = []).
  { destruct (cursors m1) as [|e rest] eqn:Hcur.
    - unfold evictOldest. rewrite Hcur. cbn [oldestScan]. exact Hcur.
    - destruct (evictOldest_spec m1 Hwf1)
        as (oid & oc & _ & _ & _ & Hlen); [rewrite Hcur; discriminate|].
      rewrite Hcur in Hlen. simpl in Hlen, Hcount.
      destruct (cursors (evictOldest m1)); [reflexivity|].
      simpl in Hlen. lia. }
  rewrite Hgone. cbn [JsMap.set].
  split; [|split].
  - split; cbn [cursors withCursors JsMap.keys map fst].
    + repeat constructor. intros [].
    + intros [Heq|[]]. rewrite new_id in Heq. discriminate.
  - cbn [maxCursors withCursors]. lia.
  - reflexivity.
Qed.

(** The closing sentence of the amended C6, for every pool that a manager
    without capacity can reach: the new cursor is registered and is the
    only one. *)
Lemma create_without_capacity
      (schema : GQPSchema.t) (cap ttl len : Z) (m : t)
      (start : option string) (now : Z) (suffix : string) (stamp : Z) :
  cap <= 0 ->
  poolReachable schema cap ttl len m ->
  JsMap.get (cursors (fst (create m schema start now suffix stamp)))
            (GQPGraphCursor.getId
               (snd (create m schema start now suffix stamp)))
  = Some (snd (create m schema start now suffix stamp))
  /\ size (fst (create m schema start now suffix stamp)) = 1.
Proof.
  intros Hcap Hreach.
  split; [apply create_registers|].
  assert (Hinv : wfPool m /\ maxCursors m = cap /\ size m <= 1).
  { induction Hreach as [|m start0 now0 suffix0 stamp0 Hm IH
                         |m cid now0 Hm IH|m cid Hm IH|m Hm IH
                         |m cid c c' Hm IH Hget].
    - split; [split; simpl; [constructor | tauto]|].
      split; [reflexivity | unfold size, JsMap.size; simpl; lia].
    - destruct IH as (Hwf & Hmax & Hsize).
      destruct (create_leaves_one_without_capacity
                  schema m start0 now0 suffix0 stamp0 Hwf)
        as (Hwf' & Hmax' & Hsize'); [lia|exact Hsize|].
      split; [exact Hwf'|]. split; lia.
    - destruct IH as (Hwf & Hmax & Hsize). unfold get.
      destruct (JsMap.get (cursors m) cid) as [c|]; [|auto].
      destruct (isExpired m now0 c); [|auto]. cbn [fst].
      split; [now apply wfPool_delete|]. split; [exact Hmax|].
      pose proof (size_delete_le m cid). lia.
    - destruct IH as (Hwf & Hmax & Hsize). unfold delete. cbn [fst].
      split; [now apply wfPool_delete|]. split; [exact Hmax|].
      pose proof (size_delete_le m cid). lia.
    - destruct IH as (Hwf & Hmax & Hsize). unfold clear.
      split; [split; simpl; [constructor | tauto]|].
      split; [exact Hmax | unfold size, JsMap.size; simpl; lia].
    - destruct IH as ((Hnd & Hne) & Hmax & Hsize).
      assert (Hkeys : JsMap.keys (JsMap.set (cursors m) cid c')
                      = JsMap.keys (cursors m)).
      { rewrite keys_set. unfold JsMap.has. now rewrite Hget. }
      split; [split; cbn [cursors withCursors]; now rewrite Hkeys|].
      split; [exact Hmax|].
      unfold size, JsMap.size in *. cbn [cursors withCursors].
      unfold JsMap.keys in Hkeys.
      rewrite <- (length_map fst (JsMap.set (cursors m) cid c')), Hkeys,
        length_map. exact Hsize. }
  destruct Hinv as (Hwf & Hmax & Hsize).
  now destruct (create_leaves_one_without_capacity
                  schema m start now suffix stamp Hwf ltac:(lia) Hsize)
    as (_ & _ & H).
Qed.

End PoolLookupFacts.

(** ** Include paths *)

Section IncludeFacts.

Lemma append_assoc3 (a b c : string) :
  String.append (String.append a b) c = String.append a (String.append b c).
Proof. induction a as [|x a IH]; simpl; [reflexivity|]. now rewrite IH. Qed.

Lemma splitOn_nonempty sep s : splitOn sep s <> [].
Proof.
  destruct s as [|c s]; simpl; [discriminate|].
  destruct (Ascii.eqb c sep); [discriminate|].
  destruct (splitOn sep s); discriminate.
Qed.

Lemma splitOn_single sep a :
  containsChar sep a = false -> splitOn sep a = [a].
Proof.
  induction a as [|c a IH]; simpl; [reflexivity|].
  rewrite Ascii.eqb_sym. destruct (Ascii.eqb c sep); simpl; [discriminate|].
  intros H. now rewrite IH.
Qed.

Lemma splitOn_app sep a b :
  containsChar sep a = false ->
  splitOn sep (String.append a (String sep b)) = a :: splitOn sep b.
Proof.
  induction a as [|c a IH]; simpl.
  - intros _. now rewrite Ascii.eqb_refl.
  - rewrite Ascii.eqb_sym. destruct (Ascii.eqb c sep); simpl; [discriminate|].
    intros H. now rewrite IH.
Qed.

Lemma splitOn_parts sep s p :
  In p (splitOn sep s) -> containsChar sep p = false.
Proof.
  revert p. induction s as [|c s IH]; simpl; intros p.
  - intros [<-|[]]. reflexivity.
  - destruct (Ascii.eqb c sep) eqn:E.
    + intros [<-|H]; [reflexivity|now apply IH].
    + destruct (splitOn sep s) as [|h t] eqn:Hs.
      * intros [<-|[]]. simpl. now rewrite Ascii.eqb_sym, E.
      * intros [<-|H].
        -- simpl. rewrite Ascii.eqb_sym, E. simpl. apply IH. now left.
        -- apply IH. now right.
Qed.

(** [join] as a right fold. *)
Lemma join_cons sep p rest :
  join sep (p :: rest)
  = String.append p
      (fold_right (fun q r => String.append sep (String.append q r))
                  EmptyString rest).
Proof.
  unfold join. revert p.
  induction rest as [|q rest IH]; intros p; simpl.
  - clear. induction p as [|c p IH]; simpl; [reflexivity|]. now rewrite <- IH.
  - rewrite IH. now rewrite !append_assoc3.
Qed.

Lemma dot_append (x : string) : String.append "." x = String "."%char x.
Proof. reflexivity. Qed.

Lemma append_empty (p : string) : String.append p "" = p.
Proof. induction p as [|c p IH]; simpl; [reflexivity|]. now rewrite IH. Qed.

Lemma splitOn_join (parts : list string) :
  parts <> [] ->
  (forall p, In p parts -> containsChar "."%char p = false) ->
  splitOn "."%char (join "." parts) = parts.
Proof.
  destruct parts as [|p rest]; [congruence|]. intros _.
  revert p. induction rest as [|q rest IH]; intros p Hparts.
  - rewrite join_cons. cbn [fold_right]. rewrite append_empty.
    apply splitOn_single. apply Hparts. now left.
  - rewrite join_cons. cbn [fold_right]. rewrite <- join_cons.
    rewrite dot_append, splitOn_app by (apply Hparts; now left).
    f_equal. apply IH. intros p' Hp'. apply Hparts. now right.
Qed.

Lemma join_splitOn (s : string) : join "." (splitOn "."%char s) = s.
Proof.
  induction s as [|c s IH]; [reflexivity|].
  cbn [splitOn].
  destruct (splitOn "."%char s) as [|h t] eqn:Hs;
    [now apply splitOn_nonempty in Hs|].
  rewrite join_cons in IH.
  destruct (Ascii.eqb_spec c "."%char) as [->|Hne].
  - rewrite join_cons. cbn [fold_right].
    change (String.append "" ?x) with x. now rewrite dot_append, IH.
  - rewrite join_cons.
    change (String.append (String c h) ?x) with (String c (String.append h x)).
    now rewrite IH.
Qed.

Lemma truncateInclude_segments (d : Z) (inc : string) :
  1 <= d ->
  splitOn "."%char (truncateInclude d inc)
  = firstn (Z.to_nat d) (splitOn "."%char inc).
Proof.
  intros Hd. unfold truncateInclude, slice0.
  destruct (Z.gtb_spec (Z.of_nat (length (splitOn "."%char inc))) d)
    as [Hlong|Hshort].
  - destruct (Z.ltb_spec d 0); [lia|].
    apply splitOn_join.
    + destruct (splitOn "."%char inc) eqn:Hs;
        [now apply splitOn_nonempty in Hs|].
      destruct (Z.to_nat d) eqn:Hn; [lia|]. discriminate.
    + intros p Hp. apply firstn_In in Hp. now apply splitOn_parts in Hp.
  - symmetry. apply firstn_all2. lia.
Qed.

Lemma truncateInclude_idem d inc :
  1 <= d -> truncateInclude d (truncateInclude d inc) = truncateInclude d inc.
Proof.
  intros Hd. unfold truncateInclude at 1.
  rewrite truncateInclude_segments by assumption.
  destruct (Z.gtb_spec
              (Z.of_nat (length (firstn (Z.to_nat d)
                                        (splitOn "."%char inc)))) d);
    [|reflexivity].
  rewrite length_firstn in *. lia.
Qed.

(** X15. For a depth of at least one, cutting an include path keeps
    exactly its first [d] dot-separated segments, joined by dots, and
    cutting twice is cutting once. *)
Theorem truncateInclude_keeps_leading_segments (d : Z) (inc : string) :
  1 <= d ->
  splitOn "."%char (truncateInclude d inc)
  = firstn (Z.to_nat d) (splitOn "."%char inc)
  /\ truncateInclude d inc
     = join "." (firstn (Z.to_nat d) (splitOn "."%char inc))
  /\ truncateInclude d (truncateInclude d inc) = truncateInclude d inc.
Proof.
  intros Hd. split; [now apply truncateInclude_segments|]. split.
  - rewrite <- truncateInclude_segments by assumption. now rewrite join_splitOn.
  - now apply truncateInclude_idem.
Qed.

Lemma truncateInclude_keeps_leading_segments_witness :
  truncateInclude 3 "orders.items.product.vendor" = "orders.items.product"
  /\ splitOn "."%char (truncateInclude 3 "orders.items.product.vendor")
     = ["orders"; "items"; "product"].
Proof.
  split; [reflexivity|].
  apply (truncateInclude_keeps_leading_segments
           3 "orders.items.product.vendor").
  lia.
Defined.

End IncludeFacts.

(** ** Validator: options *)

Section OptionsFacts.
Import Validator.

(** X16. With limits such that [1 <= defaultLimit <= maxLimit] and
    [0 <= maxOffset], [validateOptions] always returns a limit between 1
    and [maxLimit] and an offset between 0 and [maxOffset], whatever was
    asked for; it keeps an [orderBy] only when its direction is asc or
    desc; and validating its result again changes nothing. *)
Theorem validateOptions_within_limits (v : t) (o : QueryOptions) :
  1 <= defaultLimit (limits v) <= maxLimit (limits v) ->
  0 <= maxOffset (limits v) ->
  (exists l off,
      limit (validateOptions v o) = Some (Finite l)
      /\ 1 <= l <= maxLimit (limits v)
      /\ offset (validateOptions v o) = Some (Finite off)
      /\ 0 <= off <= maxOffset (limits v))
  /\ (forall ob, orderBy (validateOptions v o) = Some ob ->
                 orderBy o = Some ob
                 /\ (ob_direction ob = "asc" \/ ob_direction ob = "desc"))
  /\ (1 <= maxIncludeDepth (limits v) ->
      validateOptions v (validateOptions v o) = validateOptions v o).
Proof.
  intros Hlim Hoff. split; [|split].
  - unfold validateOptions. cbn [limit offset].
    eexists. eexists. split; [reflexivity|]. split; [|split; [reflexivity|]].
    + destruct (limit o) as [[l| | |]|]; try lia.
      destruct (Z.ltb_spec l 1); lia.
    + destruct (offset o) as [[x| | |]|]; try lia.
      destruct (Z.ltb_spec x 0); lia.
  - intros ob. unfold validateOptions. cbn [orderBy].
    destruct (orderBy o) as [ob0|]; [|discriminate].
    destruct (stringIn ["asc"; "desc"] (ob_direction ob0)) eqn:Hdir;
      [|discriminate].
    intros [= <-]. split; [reflexivity|].
    apply stringIn_In in Hdir. simpl in Hdir. intuition.
  - intros Hinc. unfold validateOptions.
    cbn [limit offset orderBy include]. f_equal.
    + do 2 f_equal.
      destruct (limit o) as [[l| | |]|];
        repeat match goal with
               | |- context [?a <? ?b] => destruct (Z.ltb_spec a b)
               end; lia.
    + do 2 f_equal.
      destruct (offset o) as [[x| | |]|];
        repeat match goal with
               | |- context [?a <? ?b] => destruct (Z.ltb_spec a b)
               end; lia.
    + destruct (orderBy o) as [ob0|]; [|reflexivity].
      destruct (stringIn ["asc"; "desc"] (ob_direction ob0)) eqn:Hdir;
        [now rewrite Hdir|reflexivity].
    + destruct (include o) as [incs|]; [|reflexivity].
      f_equal. rewrite map_map. apply map_ext. intros inc.
      now apply truncateInclude_idem.
Qed.

Lemma validateOptions_within_limits_witness :
  limit (validateOptions defaultValidator (limitOptions 5000))
  = Some (Finite 100)
  /\ exists l off,
      limit (validateOptions defaultValidator (limitOptions 5000))
      = Some (Finite l)
      /\ 1 <= l <= 100
      /\ offset (validateOptions defaultValidator (limitOptions 5000))
         = Some (Finite off)
      /\ 0 <= off <= 10000.
Proof.
  split; [reflexivity|].
  apply (validateOptions_within_limits defaultValidator (limitOptions 5000)).
  - simpl. lia.
  - simpl. lia.
Defined.

End OptionsFacts.

(** ** Validator: node names *)

Section NodeNameFacts.
Import Validator.

Lemma trimEnd_cons c s :
  trimEnd (String c s)
  = match trimEnd s with
    | EmptyString => if isSpace c then EmptyString else String c EmptyString
    | String d r => String c (String d r)
    end.
Proof. reflexivity. Qed.

Lemma trimEnd_idem s : trimEnd (trimEnd s) = trimEnd s.
Proof.
  induction s as [|c s IH]; [reflexivity|].
  rewrite trimEnd_cons. destruct (trimEnd s) as [|d r] eqn:Hs.
  - destruct (isSpace c) eqn:Hc; [reflexivity|].
    rewrite trimEnd_cons. cbn [trimEnd]. now rewrite Hc.
  - rewrite trimEnd_cons, IH. reflexivity.
Qed.

Lemma trimEnd_head c s :
  isSpace c = false -> exists r, trimEnd (String c s) = String c r.
Proof.
  intros Hc. rewrite trimEnd_cons. destruct (trimEnd s); [rewrite Hc|]; eauto.
Qed.

Lemma trimStart_head s :
  trimStart s = "" \/ exists c r, trimStart s = String c r /\ isSpace c = false.
Proof.
  induction s as [|c s IH]; [now left|].
  cbn [trimStart]. destruct (isSpace c) eqn:Hc; [assumption|].
  right. eauto.
Qed.

Lemma trim_idem s : trim (trim s) = trim s.
Proof.
  unfold trim.
  destruct (trimStart_head s) as [->|(c & r & -> & Hc)]; [reflexivity|].
  destruct (trimEnd_head c r Hc) as (r' & Hr).
  rewrite Hr. cbn [trimStart]. rewrite Hc, <- Hr. apply trimEnd_idem.
Qed.

(** X17. A node name that [validateNodeName] accepts is the trimmed
    input, is not empty, matches the configured pattern in strict mode, and
    is accepted unchanged when validated again (the pattern being a
    predicate on strings, as a regular expression without the g or y flag
    is). *)
Theorem validateNodeName_normalises (v : t) (x : JsVal) (r : string) :
  validateNodeName v x = Ok r ->
  (exists s, x = JStr s /\ r = trim s)
  /\ r <> ""
  /\ (strictNodeNames (config v) = true ->
      nodeNamePattern (config v) r = true)
  /\ validateNodeName v (JStr r) = Ok r.
Proof.
  unfold validateNodeName.
  destruct x as [| | | |s| |]; try discriminate.
  destruct (String.eqb_spec (trim s) "") as [|Hne]; [discriminate|].
  destruct (strictNodeNames (config v) && negb (nodeNamePattern (config v) (trim s)))
    eqn:Hstrict; [discriminate|].
  intros [= <-]. rewrite trim_idem.
  split; [eauto|]. split; [assumption|]. split.
  - intros Hs. rewrite Hs in Hstrict. simpl in Hstrict.
    now apply negb_false_iff in Hstrict.
  - destruct (String.eqb_spec (trim s) ""); [contradiction|].
    now rewrite Hstrict.
Qed.

Lemma validateNodeName_normalises_witness :
  validateNodeName defaultValidator (JStr "  User ") = Ok "User"
  /\ validateNodeName defaultValidator (JStr "User") = Ok "User".
Proof.
  split; [reflexivity|].
  apply (validateNodeName_normalises defaultValidator (JStr "  User ") "User").
  reflexivity.
Defined.

End NodeNameFacts.

(** ** Validator: filter keys *)

Section FilterKeyFacts.
Import Validator.

Lemma validateFilters_object v props d :
  validateFilters v (JObj props) d
  = if d >? maxFilterDepth (config v)
    then Err (createError.validation
                "filters" (ExceedsMaximumDepth (maxFilterDepth (config v))))
    else filtersLoop v d props [].
Proof. reflexivity. Qed.

Lemma filterStep_keys v key value nested validated r :
  filterStep v key value nested validated = Ok r ->
  NoDup (JsMap.keys validated) -> arraysWithin v validated ->
  NoDup (JsMap.keys r)
  /\ (forall k, In k (JsMap.keys r)
                <-> In k (JsMap.keys validated)
                    \/ (k = key /\ keyAccepted v key = true))
  /\ arraysWithin v r.
Proof.
  unfold filterStep, keyAccepted.
  destruct (strictNodeNames (config v) && negb (isIdentifier key)
            && negb (isLogical key)).
  - intros [= <-] Hnd Harr. split; [assumption|]. split; [|assumption].
    intros k. simpl. intuition discriminate.
  - assert (Hset : forall value',
               (forall items, value' = JArr items ->
                              Z.of_nat (length items)
                              <= maxArrayInFilter (config v)) ->
               NoDup (JsMap.keys validated) -> arraysWithin v validated ->
               NoDup (JsMap.keys (JsMap.set validated key value'))
               /\ (forall k, In k (JsMap.keys (JsMap.set validated key value'))
                             <-> In k (JsMap.keys validated)
                                 \/ (k = key /\ negb false = true))
               /\ arraysWithin v (JsMap.set validated key value')).
    { intros value' Hval Hnd Harr. split; [now apply NoDup_keys_set|]. split.
      - intros k. rewrite keys_set. unfold JsMap.has.
        destruct (JsMap.get validated key) eqn:Hg.
        + apply get_In in Hg. apply (in_map fst) in Hg. simpl in Hg.
          split; [tauto|]. intros [H|[-> _]]; assumption.
        + rewrite in_app_iff. simpl. intuition.
      - intros k items Hin. apply In_set in Hin as [[= -> Hv]|Hin].
        + now apply Hval.
        + now apply (Harr k). }
    destruct value as [| | | | |items|props];
      try (intros [= <-]; apply Hset; discriminate).
    + destruct (Z.gtb_spec (Z.of_nat (length items))
                           (maxArrayInFilter (config v))); [discriminate|].
      intros [= <-]. apply Hset. now intros items' [= <-].
    + destruct nested as [n|e]; [|discriminate]. simpl.
      intros [= <-]. apply Hset. discriminate.
Qed.

Lemma filtersLoop_keys v d props validated out :
  filtersLoop v d props validated = Ok out ->
  NoDup (JsMap.keys validated) -> arraysWithin v validated ->
  NoDup (JsMap.keys out)
  /\ (forall k, In k (JsMap.keys out)
                <-> In k (JsMap.keys validated)
                    \/ (In k (map fst props) /\ keyAccepted v k = true))
  /\ arraysWithin v out.
Proof.
  revert validated. induction props as [|[key value] props IH];
    intros validated.
  - intros [= <-] Hnd Harr. split; [assumption|]. split; [|assumption].
    intros k. simpl. tauto.
  - cbn [filtersLoop].
    destruct (filterStep v key value (validateNestedFilter v key value d)
                         validated) as [r|e] eqn:Hstep; [|discriminate].
    cbn [bind]. intros Hloop Hnd Harr.
    destruct (filterStep_keys _ _ _ _ _ _ Hstep Hnd Harr)
      as (Hnd1 & Hk1 & Harr1).
    destruct (IH r Hloop Hnd1 Harr1) as (Hnd2 & Hk2 & Harr2).
    split; [assumption|]. split; [|assumption].
    intros k. rewrite Hk2, Hk1. simpl. split.
    + intros [[H|[-> H]]|[H1 H2]]; auto.
    + intros [H|[[<-|H1] H2]]; auto.
Qed.

(** X18. When [validateFilters] accepts a filter object (none of whose
    keys is [__proto__], which JavaScript assignment does not store), the
    depth is within the maximum, the keys of the result are exactly the
    keys of the input that are not skipped (in strict mode: identifiers and
    AND, OR, NOT), and every array stored at the top level is within the
    configured length. *)
Theorem validateFilters_keeps_accepted_keys
        (v : t) (props : list (string * JsVal)) (d : Z) (out : QueryFilters) :
  ~ In "__proto__" (map fst props) ->
  validateFilters v (JObj props) d = Ok out ->
  d <= maxFilterDepth (config v)
  /\ NoDup (JsMap.keys out)
  /\ (forall k, In k (JsMap.keys out)
                <-> In k (map fst props) /\ keyAccepted v k = true)
  /\ arraysWithin v out.
Proof.
  intros _. rewrite validateFilters_object.
  destruct (Z.gtb_spec d (maxFilterDepth (config v))); [discriminate|].
  intros Hloop. split; [lia|].
  destruct (filtersLoop_keys v d props [] out Hloop (NoDup_nil _))
    as (Hnd & Hk & Harr).
  - intros k items [].
  - split; [assumption|]. split; [|assumption].
    intros k. rewrite Hk. simpl. tauto.
Qed.

Lemma validateFilters_keeps_accepted_keys_witness :
  validateFilters defaultValidator
    (JObj [("name", JStr "x"); ("__proto__.polluted", JBool true);
           ("$where", JStr "1"); ("AND", JArr [])]) 0
  = Ok [("name", JStr "x"); ("AND", JArr [])]
  /\ NoDup (JsMap.keys [("name", JStr "x"); ("AND", JArr [])]).
Proof.
  split; [reflexivity|].
  apply (validateFilters_keeps_accepted_keys
           defaultValidator
           [("name", JStr "x"); ("__proto__.polluted", JBool true);
            ("$where", JStr "1"); ("AND", JArr [])] 0).
  - simpl. intuition discriminate.
  - reflexivity.
Defined.

End FilterKeyFacts.

(** ** Validator: tool-call parameters *)

Section ParamsFacts.
Import Validator.

(** X19. Parameters that [validateToolCallParams] accepts carry a
    valid action; a node whenever the action is navigate or query, and
    then the validated node name; a query string within the configured
    length; and options that went through [validateOptions]. *)
Theorem validated_params_carry_required_node
        (v : t) (p : RawParams) (r : ToolCallParams) :
  validateToolCallParams v (Some p) = Ok r ->
  validateAction (p_action p) = Ok (tc_action r)
  /\ (tc_action r = navigate \/ tc_action r = query -> tc_node r <> None)
  /\ (forall n, tc_node r = Some n ->
                validateNodeName v (p_node p) = Ok n)
  /\ (forall q, tc_query r = Some q ->
                p_query p = JStr q
                /\ Z.of_nat (String.length q) <= maxQueryLength (config v))
  /\ (forall o, tc_options r = Some o ->
                exists o0, p_options p = Some o0 /\ o = validateOptions v o0).
Proof.
  unfold validateToolCallParams.
  destruct (validateAction (p_action p)) as [action|e]; [|discriminate].
  cbn [bind].
  destruct (match action with
            | navigate | query =>
                n <- validateNodeName v (p_node p) ;; Ok (Some n)
            | _ =>
                if isUndefined (p_node p) then Ok None
                else n <- validateNodeName v (p_node p) ;; Ok (Some n)
            end) as [node|e] eqn:Hnode; [|discriminate].
  cbn [bind].
  destruct (if isUndefined (p_query p) then Ok None
            else validateQuery v (p_query p)) as [q|e] eqn:Hq; [|discriminate].
  cbn [bind].
  destruct (if isUndefined (p_filters p) then Ok None
            else f <- validateFilters v (p_filters p) 0 ;; Ok (Some f))
    as [filters|e]; [|discriminate].
  cbn [bind].
  destruct (if isUndefined (p_cursorId p) then Ok None
            else validateCursorId (p_cursorId p)) as [cid|e]; [|discriminate].
  cbn [bind]. intros [= <-]. cbn [tc_action tc_node tc_query tc_options].
  split; [reflexivity|].
  assert (Hn : forall n, node = Some n ->
                         validateNodeName v (p_node p) = Ok n).
  { intros n ->.
    destruct action;
      try (destruct (isUndefined (p_node p)); [discriminate|]);
      destruct (validateNodeName v (p_node p)); simpl in Hnode; congruence. }
  split; [|split; [exact Hn|split]].
  - intros Hact Hnone. subst node.
    destruct Hact as [->| ->];
      destruct (validateNodeName v (p_node p)); discriminate.
  - intros q0 ->. 
    destruct (isUndefined (p_query p)); [discriminate|].
    unfold validateQuery in Hq.
    destruct (p_query p) as [| | | |s| |]; try discriminate.
    destruct (Z.gtb_spec (Z.of_nat (String.length s))
                         (maxQueryLength (config v))); [discriminate|].
    injection Hq as <-. split; [reflexivity|lia].
  - intros o Ho. destruct (p_options p) as [o0|]; [|discriminate].
    injection Ho as <-. eauto.
Qed.

Lemma validated_params_carry_required_node_witness :
  validateToolCallParams
    defaultValidator
    (Some (mkRaw (JStr "navigate") JUndefined JUndefined JUndefined None
                 JUndefined))
  = Err (GQPError NODE_REQUIRED "navigate/query" NoReason)
  /\ validateAction (p_action staleQuery) = Ok query.
Proof.
  split; [reflexivity|].
  apply (validated_params_carry_required_node
           defaultValidator staleQuery
           (mkParams query (Some "User") None None None
                     (Some "cursor_gone"))).
  reflexivity.
Defined.

End ParamsFacts.

(** ** Security gate: hidden fields and patterns *)

Section HidingFacts.
Import SecurityManager.

(** X20. [filterHiddenFields] keeps, in order, exactly the fields whose
    name matches no hidden pattern, leaves name, edges, capabilities and
    source alone, and applying it twice is applying it once. *)
Theorem filterHiddenFields_drops_exactly_hidden (m : t) (node : GQPNode) :
  fields (filterHiddenFields m node)
  = filter (fun f => negb (isFieldHidden m (f_name f))) (fields node)
  /\ (forall f, In f (fields (filterHiddenFields m node)) ->
                isFieldHidden m (f_name f) = false)
  /\ (name (filterHiddenFields m node) = name node
      /\ edges (filterHiddenFields m node) = edges node
      /\ capabilities (filterHiddenFields m node) = capabilities node
      /\ source (filterHiddenFields m node) = source node)
  /\ filterHiddenFields m (filterHiddenFields m node)
     = filterHiddenFields m node.
Proof.
  assert (Hfields :
            fields (filterHiddenFields m node)
            = filter (fun f => negb (isFieldHidden m (f_name f)))
                     (fields node)).
  { unfold filterHiddenFields.
    destruct (hiddenFields (config m)) as [[|h hs]|] eqn:Hh;
      [| reflexivity |];
      symmetry; apply forallb_filter_id, forallb_forall; intros f _;
      unfold isFieldHidden; now rewrite Hh. }
  split; [exact Hfields|]. split; [|split].
  - intros f Hf. rewrite Hfields in Hf. apply filter_In in Hf as [_ Hf].
    now apply negb_true_iff.
  - unfold filterHiddenFields.
    destruct (hiddenFields (config m)) as [[|h hs]|]; repeat split.
  - unfold filterHiddenFields.
    destruct (hiddenFields (config m)) as [[|h hs]|] eqn:Hh;
      try reflexivity.
    cbn [name description fields edges capabilities source]. f_equal.
    rewrite filter_twice. apply filter_ext. intros f.
    now destruct (isFieldHidden m (f_name f)).
Qed.

Lemma containsChar_app c a b :
  containsChar c (String.append a b) = containsChar c a || containsChar c b.
Proof.
  induction a as [|d a IH]; simpl; [reflexivity|].
  now rewrite IH, orb_assoc.
Qed.

Lemma glob_star (s : string) : globMatch "*" s = allChars isDotChar s.
Proof.
  cbn [globMatch]. rewrite Ascii.eqb_refl.
  induction s as [|d s IH]; [reflexivity|].
  cbn [allChars]. rewrite <- IH. reflexivity.
Qed.

Lemma glob_prefix (pre s : string) :
  containsChar "*"%char pre = false ->
  globMatch (String.append pre "*") s = true
  <-> exists a b,
      s = String.append a b /\ sameFold pre a = true
      /\ allChars isDotChar b = true.
Proof.
  revert s. induction pre as [|c pre IH]; intros s Hpre.
  - change (String.append "" "*") with "*". rewrite glob_star. split.
    + intros H. exists "", s. auto.
    + intros (a & b & -> & Ha & Hb). destruct a; [assumption|discriminate].
  - cbn [containsChar] in Hpre. apply orb_false_iff in Hpre as [Hc Hpre].
    change (String.append (String c pre) "*")
      with (String c (String.append pre "*")).
    cbn [globMatch]. rewrite Ascii.eqb_sym, Hc.
    destruct s as [|d s].
    + split; [discriminate|].
      intros (a & b & Hs & Ha & _). destruct a; discriminate.
    + rewrite andb_true_iff, (IH s Hpre). split.
      * intros (Hcd & a & b & -> & Ha & Hb).
        exists (String d a), b. simpl. rewrite Hcd, Ha. auto.
      * intros (a & b & Hs & Ha & Hb).
        destruct a as [|d' a]; [discriminate|].
        simpl in Hs, Ha. injection Hs as <- ->.
        apply andb_true_iff in Ha as [Hcd Ha].
        split; [assumption|]. exists a, b. auto.
Qed.

Lemma sameFold_refl a : sameFold a a = true.
Proof. induction a as [|c a IH]; simpl; [reflexivity|]. now rewrite Nat.eqb_refl. Qed.

(** X21. A pattern without [*] matches only the identical name, case
    included; the same pattern followed by [*] matches every name that
    starts with it up to case and goes on without a line break. *)
Theorem matchPattern_literal_or_prefix (nm pre : string) :
  containsChar "*"%char pre = false ->
  matchPattern nm pre = String.eqb pre nm
  /\ (matchPattern nm (String.append pre "*") = true
      <-> exists a b,
          nm = String.append a b /\ sameFold pre a = true
          /\ allChars isDotChar b = true).
Proof.
  intros Hpre. unfold matchPattern. split.
  - rewrite Hpre. now destruct (String.eqb pre nm).
  - rewrite containsChar_app, Hpre. simpl.
    destruct (String.eqb_spec (String.append pre "*") nm) as [<-|_].
    + split; [|reflexivity]. intros _. exists pre, "*".
      rewrite sameFold_refl. auto.
    + now apply glob_prefix.
Qed.

Lemma matchPattern_literal_or_prefix_witness :
  matchPattern "Password" "password" = false
  /\ matchPattern "PASSWORD_hash" "password*" = true.
Proof.
  destruct (matchPattern_literal_or_prefix "Password" "password" eq_refl)
    as [Hlit _].
  split; [exact Hlit|reflexivity].
Defined.

End HidingFacts.

(** ** Security gate: access rules *)

Section AccessFacts.
Import SecurityManager.

Lemma actionEqb_eq a b : actionEqb a b = true <-> a = b.
Proof. destruct a, b; simpl; split; congruence. Qed.

(** X22. When the access rules have an entry for the node itself, that
    entry alone decides: the call is allowed exactly when the context has
    one of the listed roles (if any are listed), the action is among the
    listed actions (if any) and the custom check (if any) answers true; a
    refusal is ACCESS_DENIED unless the custom check itself threw. *)
Theorem checkNodeAccess_own_rule_decides
        (m : t) (rules : JsMap.t NodeAccessRule) (node : string)
        (rule : NodeAccessRule) (action : GQPAction)
        (ctx : SecurityContext) :
  nodeAccess (config m) = Some rules ->
  JsMap.get rules node = Some rule ->
  (checkNodeAccess m node action (Some ctx) = Ok tt
   <-> permits rule action ctx)
  /\ (forall e, checkNodeAccess m node action (Some ctx) = Err e ->
                e = createError.accessDenied node
                \/ exists check, r_check rule = Some check
                                 /\ check ctx = Err e).
Proof.
  intros Hrules Hrule. unfold checkNodeAccess, contextOr, ruleFor, permits.
  rewrite Hrules, Hrule. cbn [bind]. fold (userRoles ctx).
  destruct (r_roles rule) as [[|r rs]|] eqn:Hroles;
    destruct (r_actions rule) as [[|a acts]|] eqn:Hacts;
    destruct (r_check rule) as [check|] eqn:Hcheck;
    repeat match goal with
      | |- context [existsb ?f ?l] =>
          let E := fresh "E" in destruct (existsb f l) eqn:E
      end;
    cbn [bind];
    try (destruct (check ctx) as [[|]|e0] eqn:Hc; cbn [bind]);
    (split;
     [ split;
       [ try discriminate; intros _; repeat split;
         try discriminate;
         try (intros ? ? [= <- <-]);
         try (intros ? [= <-]; assumption);
         try (apply existsb_exists in E as (role & Hin & Hrole);
              exists role; split; [exact Hin|now apply stringIn_In]);
         try (apply existsb_exists in E0 as (x & Hin & Hx);
              apply actionEqb_eq in Hx; now subst x);
         try (apply existsb_exists in E as (x & Hin & Hx);
              apply actionEqb_eq in Hx; now subst x)
       | try reflexivity; intros (Hr & Ha & Hk); exfalso;
         try (specialize (Hk _ eq_refl); congruence);
         try (destruct (Hr _ _ eq_refl) as (role & Hin & Hrole);
              assert (existsb (fun role => stringIn (userRoles ctx) role)
                              (r :: rs) = true)
                by (apply existsb_exists; exists role;
                    split; [exact Hin|now apply stringIn_In]);
              congruence);
         try (specialize (Ha _ _ eq_refl);
              assert (existsb (actionEqb action) (a :: acts) = true)
                by (apply existsb_exists; exists action;
                    split; [exact Ha|now apply actionEqb_eq]);
              congruence) ]
     | intros e; try discriminate; intros [= <-];
       try (now left); right; eexists; split; eauto ]).
Qed.

Lemma checkNodeAccess_own_rule_decides_witness :
  checkNodeAccess
    (mk (mkConfig None
           (Some [("User", mkRule (Some ["admin"]) None None);
                  ("*", mkRule None None None)])
           None None None None))
    "User" query (Some (mkContext None None (Some ["guest"]) None))
  = Err (GQPError ACCESS_DENIED "User" NoReason)
  /\ (checkNodeAccess
        (mk (mkConfig None
               (Some [("User", mkRule (Some ["admin"]) None None);
                      ("*", mkRule None None None)])
               None None None None))
        "User" query (Some (mkContext None None (Some ["admin"]) None))
      = Ok tt
      <-> permits (mkRule (Some ["admin"]) None None) query
                  (mkContext None None (Some ["admin"]) None)).
Proof.
  split; [reflexivity|].
  apply (checkNodeAccess_own_rule_decides
           (mk (mkConfig None
                  (Some [("User", mkRule (Some ["admin"]) None None);
                         ("*", mkRule None None None)])
                  None None None None))
           [("User", mkRule (Some ["admin"]) None None);
            ("*", mkRule None None None)]
           "User" (mkRule (Some ["admin"]) None None) query
           (mkContext None None (Some ["admin"]) None));
    reflexivity.
Defined.

End AccessFacts.

(** ** Query executor: options and hooks *)

Section ExecutorHookFacts.
Import QueryExecutor.



Lemma translateFilters_acc node hook ctx entries acc out :
  translateFilters node hook ctx entries acc = Ok out ->
  NoDup (JsMap.keys acc ++ JsMap.keys entries) ->
  JsMap.keys out = JsMap.keys acc ++ JsMap.keys entries
  /\ forall k x, In (k, x) out ->
       In (k, x) acc
       \/ exists x0, In (k, x0) entries
            /\ (x = x0
                \/ exists field,
                    find (fun f => String.eqb (f_name f) k) (fields node)
                    = Some field
                    /\ hook field x0 ctx = Ok x /\ x <> JNull).
Proof.
  revert acc. induction entries as [|[k0 x0] entries IH]; intros acc.
  - intros [= <-] _. simpl. rewrite app_nil_r. split; [reflexivity|]. auto.
  - intros Hrun Hnd.
    assert (Hfresh : ~ In k0 (JsMap.keys acc)).
    { intros Hin. apply NoDup_remove_2 in Hnd. apply Hnd.
      apply in_or_app. now left. }
    assert (Hstep : forall x1,
               translateFilters node hook ctx entries
                                (JsMap.set acc k0 x1) = Ok out ->
               JsMap.keys out = JsMap.keys acc ++ JsMap.keys ((k0, x0) :: entries)
               /\ forall k x, In (k, x) out ->
                    In (k, x) acc
                    \/ (k = k0 /\ x = x1)
                    \/ exists x', In (k, x') entries
                         /\ (x = x'
                             \/ exists field,
                                 find (fun f => String.eqb (f_name f) k)
                                      (fields node) = Some field
                                 /\ hook field x' ctx = Ok x /\ x <> JNull)).
    { intros x1 Hrest. rewrite set_fresh in Hrest by assumption.
      destruct (IH _ Hrest) as (Hkeys & Hvals).
      - unfold JsMap.keys in *. rewrite map_app. simpl.
        rewrite <- app_assoc. exact Hnd.
      - split.
        + rewrite Hkeys. unfold JsMap.keys. rewrite map_app. simpl.
          now rewrite <- app_assoc.
        + intros k x Hin. apply Hvals in Hin as [Hin|Hin]; [|auto].
          apply in_app_or in Hin as [Hin|[[= <- <-]|[]]]; auto. }
    cbn [translateFilters] in Hrun.
    destruct (find (fun f => String.eqb (f_name f) k0) (fields node))
      as [field|] eqn:Hfind.
    + destruct (hook field x0 ctx) as [x1|e] eqn:Hhook; [|discriminate].
      cbn [bind] in Hrun.
      assert (Hcases :
                (x1 = JNull
                 /\ translateFilters node hook ctx entries
                                     (JsMap.set acc k0 x0) = Ok out)
                \/ (x1 <> JNull
                    /\ translateFilters node hook ctx entries
                                        (JsMap.set acc k0 x1) = Ok out)).
      { destruct x1; try (right; split; [discriminate|exact Hrun]).
        left. split; [reflexivity|exact Hrun]. }
      destruct Hcases as [[-> Hrest]|[Hnn Hrest]];
        destruct (Hstep _ Hrest) as (Hkeys & Hvals);
        (split; [exact Hkeys|]);
        intros k x Hin;
        apply Hvals in Hin as [Hin|[[-> ->]|(x' & Hin & Hx)]];
        try (now left); right.
      * exists x0. split; [now left|now left].
      * exists x'. split; [now right|exact Hx].
      * exists x0. split; [now left|]. right. exists field. auto.
      * exists x'. split; [now right|exact Hx].
    + destruct (Hstep _ Hrun) as (Hkeys & Hvals).
      split; [exact Hkeys|].
      intros k x Hin.
      apply Hvals in Hin as [Hin|[[-> ->]|(x' & Hin & Hx)]];
        [now left| |]; right.
      * exists x0. split; [now left|now left].
      * exists x'. split; [now right|exact Hx].
Qed.

(** X24. [translateFilters] returns the keys of the filters it was
    given, in the same order (the key [__proto__], which JavaScript
    assignment does not store, aside); each value is the original one or
    the non-null translation of the hook for a field of that name. *)
Theorem translateFilters_keeps_every_key
        (node : GQPNode)
        (hook : GQPField -> JsVal -> PluginContext -> Result JsVal)
        (ctx : PluginContext) (entries out : QueryFilters) :
  NoDup (JsMap.keys entries) ->
  ~ In "__proto__" (JsMap.keys entries) ->
  translateFilters node hook ctx entries [] = Ok out ->
  JsMap.keys out = JsMap.keys entries
  /\ forall k x, In (k, x) out ->
       exists x0, In (k, x0) entries
         /\ (x = x0
             \/ exists field,
                 find (fun f => String.eqb (f_name f) k) (fields node)
                 = Some field
                 /\ hook field x0 ctx = Ok x /\ x <> JNull).
Proof.
  intros Hnd _ Hrun.
  destruct (translateFilters_acc node hook ctx entries [] out Hrun Hnd)
    as (Hkeys & Hvals).
  split; [exact Hkeys|].
  intros k x Hin. now destruct (Hvals k x Hin) as [[]|H].
Qed.

Lemma translateFilters_keeps_every_key_witness :
  translateFilters
    (mkNode "User" None [mkField "age" "Int" false false None []] [] []
            "test")
    (fun _ x _ => match x with JNum z => Ok (JNum (z + 1)) | _ => Ok JNull end)
    (mkPluginContext None [] emptyOptions)
    [("age", JNum 41); ("name", JStr "x")] []
  = Ok [("age", JNum 42); ("name", JStr "x")]
  /\ JsMap.keys [("age", JNum 42); ("name", JStr "x")]
     = JsMap.keys [("age", JNum 41); ("name", JStr "x")].
Proof.
  split; [reflexivity|].
  apply (translateFilters_keeps_every_key
           (mkNode "User" None [mkField "age" "Int" false false None []]
                   [] [] "test")
           (fun _ x _ =>
              match x with JNum z => Ok (JNum (z + 1)) | _ => Ok JNull end)
           (mkPluginContext None [] emptyOptions)
           [("age", JNum 41); ("name", JStr "x")]).
  - simpl. repeat constructor; simpl; intuition discriminate.
  - simpl. intuition discriminate.
  - reflexivity.
Defined.

Lemma preQueryLoop_without_translation node ctx ps f :
  (forall p, In p ps -> translateFilter p = None) ->
  preQueryLoop node ctx ps f = searchLoop node ctx ps f.
Proof.
  revert f. induction ps as [|p ps IH]; intros f Hps; [reflexivity|].
  cbn [preQueryLoop searchLoop].
  rewrite (Hps p) by now left.
  destruct (match onPreQuery p with
            | Some hook => hook node f ctx
            | None => Ok f
            end) as [f1|e]; [|reflexivity].
  cbn [bind]. apply IH. intros q Hq. apply Hps. now right.
Qed.

(** X25. A successful [executeWithSearch] runs the [onPreQuery] hooks
    over the caller's filters and hands the result to [execute], which runs
    the same hooks again before the adapter is called: the adapter sees the
    filters after two passes. *)
Theorem executeWithSearch_runs_pre_hooks_twice
        (ex : t) (schema : GQPSchema.t) (nodeName q : string)
        (filters : QueryFilters) (options : QueryOptions) (elapsed : Z)
        (r : QueryResult) :
  executeWithSearch ex schema nodeName q filters options elapsed = Ok r ->
  exists node adapter enhanced processed rows,
    GQPSchema.getNode schema nodeName = Some node
    /\ JsMap.get (adapters ex) (source node) = Some adapter
    /\ searchLoop node (mkPluginContext (Some q) filters options)
                  (plugins ex) filters = Ok enhanced
    /\ preQueryLoop node
         (mkPluginContext None enhanced (normalizeOptions ex options))
         (plugins ex) enhanced = Ok processed
    /\ ((forall p, In p (plugins ex) -> translateFilter p = None) ->
        searchLoop node
          (mkPluginContext None enhanced (normalizeOptions ex options))
          (plugins ex) enhanced = Ok processed)
    /\ a_execute adapter nodeName processed (normalizeOptions ex options)
       = Resolves rows.
Proof.
  unfold executeWithSearch.
  destruct (GQPSchema.getNode schema nodeName) as [node|] eqn:Hnode;
    [|discriminate].
  destruct (searchLoop node (mkPluginContext (Some q) filters options)
                       (plugins ex) filters) as [enhanced|e] eqn:Hsearch;
    [|discriminate].
  cbn [bind]. intros Hexec.
  destruct (execute_inv _ _ _ _ _ _ _ Hexec)
    as (node' & adapter & processed & rows & Hnode' & Had & Hpre & Hrun & _).
  rewrite Hnode in Hnode'. injection Hnode' as <-.
  exists node, adapter, enhanced, processed, rows.
  repeat split; try assumption.
  intros Hps. now rewrite <- preQueryLoop_without_translation.
Qed.

Lemma executeWithSearch_runs_pre_hooks_twice_witness :
  exists r,
    executeWithSearch echoExecutor testSchema "User" "ann" [] emptyOptions 1
    = Ok r
    /\ data r = [JObj [("AND", JArr [JObj [("AND", JArr [JObj []])]])]]
    /\ exists node adapter enhanced processed rows,
        GQPSchema.getNode testSchema "User" = Some node
        /\ JsMap.get (adapters echoExecutor) (source node) = Some adapter
        /\ searchLoop node (mkPluginContext (Some "ann") [] emptyOptions)
                      (plugins echoExecutor) [] = Ok enhanced
        /\ preQueryLoop node
             (mkPluginContext None enhanced
                              (normalizeOptions echoExecutor emptyOptions))
             (plugins echoExecutor) enhanced = Ok processed
        /\ ((forall p, In p (plugins echoExecutor) ->
                       translateFilter p = None) ->
            searchLoop node
              (mkPluginContext None enhanced
                               (normalizeOptions echoExecutor emptyOptions))
              (plugins echoExecutor) enhanced = Ok processed)
        /\ a_execute adapter "User" processed
                     (normalizeOptions echoExecutor emptyOptions)
           = Resolves rows.
Proof.
  eexists. split; [reflexivity|]. split; [reflexivity|].
  exact (executeWithSearch_runs_pre_hooks_twice
           echoExecutor testSchema "User" "ann" [] emptyOptions 1 _ eq_refl).
Defined.

End ExecutorHookFacts.

(** ** Engine: tool calls *)

Section EngineCallFacts.
Import GQP.

Lemma wrapError_isGQPError e : isGQPError (wrapError e) = true.
Proof. now destruct e. Qed.

Lemma rethrow_isGQPError {A} (r : Result A) e :
  rethrow r = Err e -> isGQPError e = true.
Proof.
  destruct r; [discriminate|]. intros [= <-]. apply wrapError_isGQPError.
Qed.

Lemma navigateTo_error schema c nodeName e :
  GQPGraphCursor.navigateTo schema c nodeName = Err e ->
  isGQPError e = true.
Proof.
  unfold GQPGraphCursor.navigateTo.
  destruct (GQPSchema.getNode schema nodeName); [discriminate|].
  now intros [= <-].
Qed.

Lemma queryNode_error g nodeName q filters options cid env e :
  snd (queryNode g nodeName q filters options cid env) = Err e ->
  isGQPError e = true
  \/ QueryExecutor.execute
       (executor g) (schema g) nodeName
       (match filters with Some f => f | None => [] end)
       (match options with Some o => o | None => emptyOptions end)
       (env_elapsed env) = Err e
  \/ exists text,
      truthy q = Some text
      /\ QueryExecutor.executeWithSearch
           (executor g) (schema g) nodeName text
           (match filters with Some f => f | None => [] end)
           (match options with Some o => o | None => emptyOptions end)
           (env_elapsed env) = Err e.
Proof.
  unfold queryNode.
  destruct (GQPSchema.getNode (schema g) nodeName);
    [|intros [= <-]; now left].
  assert (Hpos :
            forall m e0,
              match truthy cid with
              | Some cid0 =>
                  match CursorManager.get (cursorManager g) cid0
                                          (env_now env) with
                  | (m, Some c) =>
                      if match GQPGraphCursor.getCurrentNode c with
                         | Some cur => String.eqb cur nodeName
                         | None => false
                         end
                      then (m, Ok tt)
                      else
                        match GQPGraphCursor.navigateTo (schema g) c
                                                        nodeName with
                        | Ok (c', _) =>
                            (CursorManager.withCursors m
                               (JsMap.set (CursorManager.cursors m) cid0 c'),
                             Ok tt)
                        | Err e => (m, Err e)
                        end
                  | (m, None) => (m, Ok tt)
                  end
              | None => (cursorManager g, Ok tt)
              end = (m, Err e0) ->
              isGQPError e0 = true).
  { intros m e0. destruct (truthy cid) as [cid0|]; [|discriminate].
    destruct (CursorManager.get (cursorManager g) cid0 (env_now env))
      as [m0 [c|]]; [|discriminate].
    destruct (match GQPGraphCursor.getCurrentNode c with
              | Some cur => String.eqb cur nodeName
              | None => false
              end); [discriminate|].
    destruct (GQPGraphCursor.navigateTo (schema g) c nodeName)
      as [[c' view]|e1] eqn:Hnav; [discriminate|].
    intros [= _ <-]. exact (navigateTo_error _ _ _ _ Hnav). }
  destruct (match truthy cid with
            | Some cid0 => _
            | None => _
            end) as [m [u|e0]].
  - cbn [snd]. destruct (truthy q) as [text|]; intros Hrun.
    + right. right. exists text. auto.
    + right. now left.
  - cbn [snd]. intros [= <-]. left. exact (Hpos m e0 eq_refl).
Qed.

(** X26. An error thrown by [handleToolCall] is a [GQPError], with one
    exception: the promise of the asynchronous [query] is returned without
    being awaited, so an error raised by the executor during a query (by an
    adapter or a plugin hook) that is not a [GQPError] leaves as it is,
    unwrapped. *)
Theorem handleToolCall_wraps_all_but_query_rejections
        (g : t) (params : option RawParams) (env : Env) (e : Thrown) :
  snd (handleToolCall g params env) = Err e ->
  isGQPError e = true
  \/ exists validated filters,
      Validator.validateToolCallParams (validator g) params = Ok validated
      /\ tc_action validated = query
      /\ (QueryExecutor.execute
            (executor g) (schema g)
            (match tc_node validated with Some n => n | None => "" end)
            filters
            (match tc_options validated with
             | Some o => o
             | None => emptyOptions
             end)
            (env_elapsed env) = Err e
          \/ exists text,
              truthy (tc_query validated) = Some text
              /\ QueryExecutor.executeWithSearch
                   (executor g) (schema g)
                   (match tc_node validated with Some n => n | None => "" end)
                   text filters
                   (match tc_options validated with
                    | Some o => o
                    | None => emptyOptions
                    end)
                   (env_elapsed env) = Err e).
Proof.
  unfold handleToolCall.
  destruct (Validator.validateToolCallParams (validator g) params)
    as [validated|e0];
    [|intros [= <-]; left; apply wrapError_isGQPError].
  destruct (if SecurityManager.isEnabled (security g)
            then c <- SecurityManager.getContext (security g) ;;
                 Ok (Some c)
            else Ok None) as [ctx|e0];
    [|intros [= <-]; left; apply wrapError_isGQPError].
  destruct (tc_action validated) eqn:Hact.
  - discriminate.
  - destruct (SecurityManager.checkNodeAccess _ _ _ _);
      [|intros [= <-]; left; apply wrapError_isGQPError].
    destruct (navigateNode _ _ _ _) as [g' r].
    intros H. left. exact (rethrow_isGQPError _ _ H).
  - destruct (_ <- SecurityManager.checkNodeAccess _ _ _ _ ;; _)
      as [filters|e0];
      [|intros [= <-]; left; apply wrapError_isGQPError].
    pose proof (queryNode_error
                  g (match tc_node validated with Some n => n | None => "" end)
                  (tc_query validated) (Some filters) (tc_options validated)
                  (tc_cursorId validated) env e) as Hq.
    destruct (queryNode _ _ _ _ _ _ _) as [g' [r|e1]]; [discriminate|].
    cbn [snd bind] in *. intros [= <-].
    destruct (Hq eq_refl) as [Hgqp|Hexec]; [now left|].
    right. exists validated, filters. auto.
  - destruct (SecurityManager.checkIntrospectionAccess _ _);
      [discriminate|intros [= <-]; left; apply wrapError_isGQPError].
Qed.

Lemma handleToolCall_wraps_all_but_query_rejections_witness :
  snd (handleToolCall rejectingEngine (Some (dropCursorId staleQuery))
                      (mkEnv 0 "a" 0 1))
  = Err (Foreign "boom")
  /\ isGQPError (Foreign "boom") = false
  /\ (isGQPError (Foreign "boom") = true
      \/ exists validated filters,
          Validator.validateToolCallParams
            (validator rejectingEngine) (Some (dropCursorId staleQuery))
          = Ok validated
          /\ tc_action validated = query
          /\ (QueryExecutor.execute
                (executor rejectingEngine) (schema rejectingEngine)
                (match tc_node validated with Some n => n | None => "" end)
                filters
                (match tc_options validated with
                 | Some o => o
                 | None => emptyOptions
                 end)
                1 = Err (Foreign "boom")
              \/ exists text,
                  truthy (tc_query validated) = Some text
                  /\ QueryExecutor.executeWithSearch
                       (executor rejectingEngine) (schema rejectingEngine)
                       (match tc_node validated with
                        | Some n => n
                        | None => ""
                        end)
                       text filters
                       (match tc_options validated with
                        | Some o => o
                        | None => emptyOptions
                        end)
                       1 = Err (Foreign "boom"))).
Proof.
  split; [reflexivity|]. split; [reflexivity|].
  exact (handleToolCall_wraps_all_but_query_rejections
           rejectingEngine (Some (dropCursorId staleQuery))
           (mkEnv 0 "a" 0 1) (Foreign "boom") eq_refl).
Defined.

(** X27. [explore] lists only root nodes that are not hidden and counts
    only those; [introspect] lists no hidden node and no hidden field. *)
Theorem hidden_names_are_never_listed (g : t) :
  (forall n, In n (availableNodes (exploreNodes g)) ->
             SecurityManager.isNodeHidden (security g) (en_name n) = false
             /\ exists node, In node (GQPSchema.getRootNodes (schema g))
                             /\ en_name n = name node)
  /\ ex_totalNodes (exploreNodes g)
     = Z.of_nat
         (length
            (filter (fun node =>
                       negb (SecurityManager.isNodeHidden (security g)
                                                          (name node)))
                    (GQPSchema.getRootNodes (schema g))))
  /\ (forall node, In node (ir_nodes (introspectSchema g)) ->
         SecurityManager.isNodeHidden (security g) (name node) = false
         /\ forall f, In f (fields node) ->
                      SecurityManager.isFieldHidden (security g) (f_name f)
                      = false).
Proof.
  split; [|split; [reflexivity|]].
  - intros n Hn. unfold exploreNodes in Hn. cbn [availableNodes] in Hn.
    apply in_map_iff in Hn as (node & <- & Hn).
    apply slice0_In, filter_In in Hn as (Hin & Hvis).
    cbn [en_name]. split; [now apply negb_true_iff|]. eauto.
  - intros node Hn. unfold introspectSchema in Hn. cbn [ir_nodes] in Hn.
    apply in_map_iff in Hn as (node0 & <- & Hn).
    apply filter_In in Hn as (_ & Hvis).
    unfold SecurityManager.filterHiddenFields.
    destruct (SecurityManager.hiddenFields
                (SecurityManager.config (security g)))
      as [[|h hs]|] eqn:Hh.
    + split; [now apply negb_true_iff|]. intros f _.
      unfold SecurityManager.isFieldHidden. now rewrite Hh.
    + cbn [name fields]. split; [now apply negb_true_iff|].
      intros f Hf. apply filter_In in Hf as [_ Hf].
      now apply negb_true_iff.
    + split; [now apply negb_true_iff|]. intros f _.
      unfold SecurityManager.isFieldHidden. now rewrite Hh.
Qed.

Lemma navigateNode_hidden g l nodeName cid env :
  navigateNode (withHiddenNodes g l) nodeName cid env
  = (withHiddenNodes (fst (navigateNode g nodeName cid env)) l,
     snd (navigateNode g nodeName cid env)).
Proof.
  unfold navigateNode. cbn [withHiddenNodes schema cursorManager security].
  destruct (GQPSchema.getNode (schema g) nodeName); [|reflexivity].
  destruct (CursorManager.getOrCreate _ _ _ _ _ _ _) as [m c].
  destruct (GQPGraphCursor.navigateTo (schema g) c nodeName)
    as [[c' neighborhood]|e]; [|reflexivity].
  destruct (v_currentNode neighborhood); reflexivity.
Qed.

Lemma queryNode_hidden g l nodeName q filters options cid env :
  queryNode (withHiddenNodes g l) nodeName q filters options cid env
  = (withHiddenNodes
       (fst (queryNode g nodeName q filters options cid env)) l,
     snd (queryNode g nodeName q filters options cid env)).
Proof.
  unfold queryNode. cbn [withHiddenNodes schema cursorManager executor].
  destruct (GQPSchema.getNode (schema g) nodeName); [|reflexivity].
  destruct (match truthy cid with
            | Some cid0 => _
            | None => _
            end) as [m [u|e]]; reflexivity.
Qed.

(** X28. The list of hidden nodes has no effect on navigate and query:
    the outcome of such a call is the same whatever the list is. *)
Theorem hiding_a_node_does_not_block_it
        (g : t) (l : option (list string)) (p : option RawParams)
        (env : Env) (validated : ToolCallParams) :
  Validator.validateToolCallParams (validator g) p = Ok validated ->
  tc_action validated = navigate \/ tc_action validated = query ->
  snd (handleToolCall (withHiddenNodes g l) p env)
  = snd (handleToolCall g p env).
Proof.
  intros Hval Hact. unfold handleToolCall.
  cbn [withHiddenNodes validator]. rewrite Hval.
  change (SecurityManager.isEnabled (security (withHiddenNodes g l)))
    with (SecurityManager.isEnabled (security g)).
  change (SecurityManager.getContext (security (withHiddenNodes g l)))
    with (SecurityManager.getContext (security g)).
  destruct (if SecurityManager.isEnabled (security g)
            then c <- SecurityManager.getContext (security g) ;;
                 Ok (Some c)
            else Ok None) as [ctx|e0]; [|reflexivity].
  destruct Hact as [-> | ->].
  - change (SecurityManager.checkNodeAccess
              (security (withHiddenNodes g l)))
      with (SecurityManager.checkNodeAccess (security g)).
    destruct (SecurityManager.checkNodeAccess _ _ _ _); [|reflexivity].
    rewrite navigateNode_hidden.
    now destruct (navigateNode g _ _ env).
  - change (SecurityManager.checkNodeAccess
              (security (withHiddenNodes g l)))
      with (SecurityManager.checkNodeAccess (security g)).
    change (SecurityManager.applyRLS (security (withHiddenNodes g l)))
      with (SecurityManager.applyRLS (security g)).
    destruct (_ <- SecurityManager.checkNodeAccess _ _ _ _ ;; _);
      [|reflexivity].
    rewrite queryNode_hidden.
    now destruct (queryNode g _ _ _ _ _ env).
Qed.

Lemma hiding_a_node_does_not_block_it_witness :
  SecurityManager.isNodeHidden (security secretEngine) "Secret" = true
  /\ snd (handleToolCall
            secretEngine
            (Some (mkRaw (JStr "navigate") (JStr "Secret") JUndefined
                         JUndefined None JUndefined))
            (mkEnv 0 "a" 0 1))
     = snd (handleToolCall
              (withHiddenNodes secretEngine None)
              (Some (mkRaw (JStr "navigate") (JStr "Secret") JUndefined
                           JUndefined None JUndefined))
              (mkEnv 0 "a" 0 1)).
Proof.
  split; [reflexivity|].
  apply (hiding_a_node_does_not_block_it
           (withHiddenNodes secretEngine None) (Some ["Secret"])
           (Some (mkRaw (JStr "navigate") (JStr "Secret") JUndefined
                        JUndefined None JUndefined))
           (mkEnv 0 "a" 0 1)
           (mkParams navigate (Some "Secret") None None None None)).
  - reflexivity.
  - left. reflexivity.
Defined.

Lemma getNeighborhood_positioned schema c size node :
  v_currentNode (GQPGraphCursor.getNeighborhood schema c size) = Some node ->
  exists nm,
    currentNode (GQPGraphCursor.cursor c) = Some nm
    /\ GQPSchema.getNode schema nm = Some node
    /\ v_path (GQPGraphCursor.getNeighborhood schema c size)
       = path (GQPGraphCursor.cursor c).
Proof.
  unfold GQPGraphCursor.getNeighborhood.
  destruct (currentNode (GQPGraphCursor.cursor c)) as [nm|]; cbn [truthy].
  - destruct (String.eqb nm ""); [discriminate|].
    destruct (GQPSchema.getNode schema nm) as [n|] eqn:Hn; [|discriminate].
    cbn [v_currentNode v_path]. intros [= <-]. eauto.
  - discriminate.
Qed.

(** X29. Over a schema that stores every node under its name,
    [navigate] to an unknown node fails with NODE_NOT_FOUND and leaves the
    engine as it was; a successful [navigate] reports the requested node,
    a path that ends with it and no hidden field, and leaves in the pool a
    cursor positioned on that node with that path. *)
Theorem navigate_reports_the_requested_node
        (g : t) (nodeName : string) (cid : option string) (env : Env) :
  wfSchema (schema g) ->
  (GQPSchema.getNode (schema g) nodeName = None ->
   navigateNode g nodeName cid env
   = (g, Err (createError.nodeNotFound nodeName)))
  /\ (forall g' r,
         navigateNode g nodeName cid env = (g', Ok r) ->
         nr_currentNode r = nodeName
         /\ last (nr_path r) "" = nodeName
         /\ (forall f, In f (nr_fields r) ->
                       SecurityManager.isFieldHidden (security g) (nf_name f)
                       = false)
         /\ exists c,
             JsMap.get (CursorManager.cursors (cursorManager g'))
                       (GQPGraphCursor.getId c) = Some c
             /\ currentNode (GQPGraphCursor.cursor c) = Some nodeName
             /\ path (GQPGraphCursor.cursor c) = nr_path r).
Proof.
  intros (Hname & _). unfold navigateNode. split.
  - now intros ->.
  - intros g' r.
    destruct (GQPSchema.getNode (schema g) nodeName) as [registered|];
      [|discriminate].
    destruct (CursorManager.getOrCreate _ _ _ _ _ _ _) as [m c].
    destruct (GQPGraphCursor.navigateTo (schema g) c nodeName)
      as [[c' neighborhood]|e] eqn:Hnav; [|discriminate].
    destruct (v_currentNode neighborhood) as [current|] eqn:Hcur;
      [|discriminate].
    intros [= <- <-].
    cbn [nr_currentNode nr_path nr_fields cursorManager withCursorManager
         CursorManager.cursors CursorManager.withCursors].
    destruct (navigateTo_state _ _ _ _ _ Hnav) as (Hc' & Hp' & _).
    assert (Hview : neighborhood = GQPGraphCursor.getNeighborhood (schema g) c' 5).
    { unfold GQPGraphCursor.navigateTo in Hnav.
      destruct (GQPSchema.getNode (schema g) nodeName); [|discriminate].
      now injection Hnav as <- <-. }
    rewrite Hview in Hcur.
    destruct (getNeighborhood_positioned _ _ _ _ Hcur)
      as (nm & Hnm & Hnode & Hpath).
    rewrite Hc' in Hnm. injection Hnm as <-.
    rewrite Hview, Hpath.
    assert (Hfh : name (SecurityManager.filterHiddenFields (security g) current)
                  = nodeName).
    { unfold SecurityManager.filterHiddenFields.
      destruct (SecurityManager.hiddenFields _) as [[|h hs]|];
        cbn [name]; now apply Hname. }
    split; [exact Hfh|]. split; [|split].
    + rewrite Hp'. apply last_last.
    + intros f Hf. apply in_map_iff in Hf as (field & <- & Hf).
      cbn [nf_name].
      unfold SecurityManager.filterHiddenFields in Hf.
      destruct (SecurityManager.hiddenFields
                  (SecurityManager.config (security g)))
        as [[|h hs]|] eqn:Hh.
      * unfold SecurityManager.isFieldHidden. now rewrite Hh.
      * cbn [fields] in Hf. apply filter_In in Hf as [_ Hf].
        now apply negb_true_iff.
      * unfold SecurityManager.isFieldHidden. now rewrite Hh.
    + exists c'. split; [apply get_set_same|]. auto.
Qed.

Lemma navigate_reports_the_requested_node_witness :
  exists g' r,
    navigateNode secretEngine "Secret" None (mkEnv 0 "a" 0 1) = (g', Ok r)
    /\ nr_currentNode r = "Secret"
    /\ nr_fields r = [].
Proof.
  destruct (navigateNode secretEngine "Secret" None (mkEnv 0 "a" 0 1))
    as [g' [r|e]] eqn:Hnav; [|vm_compute in Hnav; discriminate Hnav].
  exists g', r. split; [reflexivity|].
  split.
  - refine (proj1 (proj2 (navigate_reports_the_requested_node
                            secretEngine "Secret" None (mkEnv 0 "a" 0 1) _)
                         g' r Hnav)).
    apply wfSchema_buildSchema.
  - vm_compute in Hnav. now injection Hnav as <- <-.
Defined.

(** X30. A query on a registered node that names a live cursor leaves
    that cursor, under the same identifier, positioned on the queried node;
    a cursor that was already there is not touched. *)
Theorem query_moves_a_live_cursor
        (g : t) (nodeName : string) (q : option string)
        (filters : option QueryFilters) (options : option QueryOptions)
        (cid : string) (env : Env) (c : GQPGraphCursor.t) :
  GQPSchema.getNode (schema g) nodeName <> None ->
  cid <> "" ->
  snd (CursorManager.get (cursorManager g) cid (env_now env)) = Some c ->
  exists c',
    JsMap.get
      (CursorManager.cursors
         (cursorManager
            (fst (queryNode g nodeName q filters options (Some cid) env))))
      cid = Some c'
    /\ currentNode (GQPGraphCursor.cursor c') = Some nodeName
    /\ (GQPGraphCursor.getCurrentNode c = Some nodeName -> c' = c).
Proof.
  intros Hnode Hcid Hget.
  destruct (get_outcome (cursorManager g) cid (env_now env))
    as (Hsome & Hsame & _).
  destruct (proj1 (Hsome c) Hget) as (Hstored & _).
  assert (Hm : CursorManager.get (cursorManager g) cid (env_now env)
               = (cursorManager g, Some c)).
  { rewrite <- (Hsame ltac:(congruence)) at 2. rewrite <- Hget.
    now destruct (CursorManager.get (cursorManager g) cid (env_now env)). }
  rewrite (queryNode_live_cursor g nodeName q filters options cid env
                                 (cursorManager g) c Hnode Hcid Hm).
  unfold repositioned, GQPGraphCursor.getCurrentNode.
  destruct (GQPGraphCursor.navigateTo (schema g) c nodeName)
    as [[c' view]|e] eqn:Hnav.
  - destruct (navigateTo_state _ _ _ _ _ Hnav) as (Hc' & _).
    destruct (currentNode (GQPGraphCursor.cursor c)) as [cur|] eqn:Hcur.
    + destruct (String.eqb_spec cur nodeName) as [->|Hne].
      * exists c. auto.
      * exists c'. split; [apply get_set_same|]. split; [assumption|].
        intros [= H]. contradiction.
    + exists c'. split; [apply get_set_same|]. split; [assumption|].
      discriminate.
  - exfalso. unfold GQPGraphCursor.navigateTo in Hnav.
    destruct (GQPSchema.getNode (schema g) nodeName);
      [discriminate|now apply Hnode].
Qed.

Lemma query_moves_a_live_cursor_witness :
  exists c',
    JsMap.get
      (CursorManager.cursors
         (cursorManager
            (fst (queryNode (withCursorManager testEngine poolOfThree)
                            "User" None None None (Some "cursor_b")
                            (mkEnv 10 "z" 10 1)))))
      "cursor_b" = Some c'
    /\ currentNode (GQPGraphCursor.cursor c') = Some "User".
Proof.
  destruct (query_moves_a_live_cursor
              (withCursorManager testEngine poolOfThree)
              "User" None None None "cursor_b" (mkEnv 10 "z" 10 1)
              (GQPGraphCursor.new testSchema None 100 "b" 2))
    as (c' & Hget & Hcur & _).
  - discriminate.
  - discriminate.
  - reflexivity.
  - exists c'. split; assumption.
Defined.

End EngineCallFacts.
